(** * Hazard pointers: the Reclaimer of [reclaimer.h]

    A shallow embedding of [HazardPointer], [HazardPointerList] and
    [Reclaimer].  The methods are written once, as programs over the atomic
    operations they perform on the shared registry; the programs are then run
    either alone against a registry ([run]) or interleaved with the programs
    of other threads ([steps]).

    Conventions.  The atomic operations are sequentially consistent and each
    is one step.  [assert] is compiled in: a failed assertion ends the program
    with [AssertionFailed].  [new] does not fail.  A call of an empty
    [std::function] ends with [BadFunctionCall]; a destroyer is named by a
    number and its call is recorded, not executed.  An access outside
    [hazard_pointers_] or through a pointer to no slot ends with
    [InvalidAccess].  [compare_exchange_weak] fails in [run] and [steps] only
    when the head differs from the expected value; the monitor logic [wp]
    makes no assumption on what an operation answers, so it covers the
    spurious failures as well.  [reclaim_map_] is traversed in the order of
    [map_to_list].  Loops take a bound on their iterations and end with
    [OutOfFuel] when it is reached. *)

From stdpp Require Import gmap list.

#[global] Set Warnings "-clear-no-such-hyp".

Local Open Scope Z_scope.

(** ** Data *)

(** [const int kCoefficient = 4 + 1 / 4;] with the integer division of C++. *)
Definition kCoefficient : Z := 4 + 1 / 4.

(** [size_t] is 64 bits wide; an [int] compared or multiplied with a
    [size_t] is converted to it first. *)
Definition size_t_modulus : Z := 2 ^ 64.
Definition to_size_t (z : Z) : Z := z mod size_t_modulus.

(** [void*] values are addresses, [nullptr] is address 0. *)
Definition nullptr : N := 0%N.

(** [struct HazardPointer].  A [HazardPointer*] is the index of the object in
    the store of allocated slots, [None] is the null pointer.  The
    constructor clears [ptr] and [next]; the flag starts clear. *)
Record HazardPointer := mkHazardPointer {
  hp_flag : bool;
  hp_ptr : N;
  hp_next : option nat
}.

Definition HazardPointer_new : HazardPointer :=
  {| hp_flag := false; hp_ptr := nullptr; hp_next := None |}.

(** [struct HazardPointerList], together with the [HazardPointer] objects
    that [new HazardPointer()] has created so far ([hpl_slots], by address). *)
Record HazardPointerList := mkHazardPointerList {
  hpl_slots : list HazardPointer;
  hpl_head : option nat;
  hpl_size : Z
}.

(** [HazardPointerList() : head(new HazardPointer()) {}].  The constructor
    does not mention [size]; the counter starts at zero (static storage, or
    the value-initialising [std::atomic] constructor). *)
Definition HazardPointerList_new : HazardPointerList :=
  {| hpl_slots := [HazardPointer_new]; hpl_head := Some 0%nat; hpl_size := 0 |}.

Definition get_size (l : HazardPointerList) : Z := hpl_size l.

(** [struct ReclaimNode]; [delete_func] is a [std::function], which may be
    empty ([None]); a non-empty one is named by a number.  The [next] link of
    a node is its position in the pool's list. *)
Record ReclaimNode := mkReclaimNode {
  node_ptr : N;
  node_delete_func : option nat
}.

Definition ReclaimNode_new : ReclaimNode :=
  {| node_ptr := nullptr; node_delete_func := None |}.

(** [struct ReclaimPool]: the list linked from [head]; [head] is null when
    the list is empty. *)
Module ReclaimPool.

Definition new : list ReclaimNode := [ReclaimNode_new].

(** [node->next = head; head = node;] *)
Definition Push (node : ReclaimNode) (pool : list ReclaimNode) : list ReclaimNode :=
  node :: pool.

(** [Pop] reads [head->next]: with a null [head] there is nothing to
    read.  With one node left it returns a fresh node and keeps the pool. *)
Definition Pop (pool : list ReclaimNode) : option (ReclaimNode * list ReclaimNode) :=
  match pool with
  | [] => None
  | [_] => Some (ReclaimNode_new, pool)
  | temp :: rest => Some (temp, rest)
  end.

End ReclaimPool.

(** The private state of a [Reclaimer]; [hazard_pointer_list_] is the shared
    registry the programs below act on. *)
Record Reclaimer := mkReclaimer {
  hazard_pointers_ : list nat;
  reclaim_map_ : gmap N ReclaimNode;
  reclaim_pool_ : list ReclaimNode
}.

Definition Reclaimer_new : Reclaimer :=
  {| hazard_pointers_ := []; reclaim_map_ := ∅; reclaim_pool_ := ReclaimPool.new |}.

Definition set_hazard_pointers_ (v : list nat) (r : Reclaimer) : Reclaimer :=
  {| hazard_pointers_ := v; reclaim_map_ := reclaim_map_ r; reclaim_pool_ := reclaim_pool_ r |}.

(** ** Programs over atomic operations *)

(** The operations a thread performs on shared state or on the outside
    world, one constructor per atomic step. *)
Inductive action :=
| head_load
| head_compare_exchange (expected desired : option nat)
| size_load
| size_fetch_add
| new_HazardPointer
| flag_test_and_set (p : nat)
| flag_clear (p : nat)
| ptr_load (p : nat)
| ptr_store (p : nat) (v : N)
| next_load (p : nat)
| next_store (p : nat) (q : option nat)
| call (f : nat) (arg : N)
| yield.

Definition result (a : action) : Type :=
  match a with
  | head_load => option nat
  | head_compare_exchange _ _ => (bool * option nat)%type
  | size_load => Z
  | size_fetch_add => Z
  | new_HazardPointer => nat
  | flag_test_and_set _ => bool
  | flag_clear _ => unit
  | ptr_load _ => N
  | ptr_store _ _ => unit
  | next_load _ => option nat
  | next_store _ _ => unit
  | call _ _ => unit
  | yield => unit
  end.

(** What stops a program: a failed [assert], the call of an empty
    [std::function], an access through a null or dangling pointer or past the
    end of a vector, and a loop that did not finish within its fuel. *)
Inductive exn := AssertionFailed | BadFunctionCall | InvalidAccess | OutOfFuel.

Inductive prog (T : Type) : Type :=
| Ret (x : T)
| Throw (e : exn)
| Act (a : action) (k : result a → prog T).
Arguments Ret {T} x.
Arguments Throw {T} e.
Arguments Act {T} a k.

Fixpoint bind {A B} (m : prog A) (f : A → prog B) : prog B :=
  match m with
  | Ret x => f x
  | Throw e => Throw e
  | Act a k => Act a (λ x, bind (k x) f)
  end.

Declare Scope prog_scope.
Delimit Scope prog_scope with prog.
Bind Scope prog_scope with prog.
Notation "x ← y ; z" := (bind y (λ x, z))
  (at level 20, y at level 100, z at level 200, only parsing) : prog_scope.
Notation "' x ← y ; z" := (bind y (λ x, z))
  (at level 20, x pattern, y at level 100, z at level 200, only parsing) : prog_scope.
Notation "x ;; z" := (bind x (λ _, z))
  (at level 100, z at level 200, only parsing, right associativity) : prog_scope.

Section Methods.
Local Open Scope prog_scope.

Definition perform (a : action) : prog (result a) := Act a Ret.

(** Dereferencing a [HazardPointer*]. *)
Definition deref {T} (p : option nat) (k : nat → prog T) : prog T :=
  match p with
  | None => Throw InvalidAccess
  | Some a => k a
  end.

(** [f(arg)] for a [std::function] [f]. *)
Definition invoke (f : option nat) (arg : N) : prog unit :=
  match f with
  | None => Throw BadFunctionCall
  | Some d => perform (call d arg)
  end.

(** ** The methods of [Reclaimer] *)

(** The first [do ... while (p != nullptr)] of [TryAcquireHazardPointer]:
    the result is [hp]. *)
Fixpoint TryAcquireHazardPointer_find (fuel : nat) (p : option nat) : prog (option nat) :=
  match fuel with
  | O => Throw OutOfFuel
  | S fuel' =>
      deref p (λ a,
        was_set ← perform (flag_test_and_set a);
        if negb was_set then Ret (Some a)
        else
          q ← perform (next_load a);
          match q with
          | None => Ret None
          | Some _ => TryAcquireHazardPointer_find fuel' q
          end)
  end.

(** The [do { new_head->next = old_head; } while (!head.compare_exchange_weak(...))]
    loop; a failed exchange leaves the current head in [old_head]. *)
Fixpoint TryAcquireHazardPointer_push (fuel : nat) (new_head : nat) (old_head : option nat)
  : prog unit :=
  match fuel with
  | O => Throw OutOfFuel
  | S fuel' =>
      perform (next_store new_head old_head);;
      '(ok, current) ← perform (head_compare_exchange old_head (Some new_head));
      if (ok : bool) then Ret ()
      else TryAcquireHazardPointer_push fuel' new_head current
  end.

Definition TryAcquireHazardPointer (fuel : nat) (index : Z) (r : Reclaimer) : prog Reclaimer :=
  let n := Z.of_nat (length (hazard_pointers_ r)) in
  if negb (to_size_t index <=? n) then Throw AssertionFailed
  else if to_size_t index <? n then Ret r
  else
    p ← perform head_load;
    found ← TryAcquireHazardPointer_find fuel p;
    hp ← match found with
         | Some a => Ret a
         | None =>
             new_head ← perform new_HazardPointer;
             perform (flag_test_and_set new_head);;
             perform size_fetch_add;;
             old_head ← perform head_load;
             TryAcquireHazardPointer_push fuel new_head old_head;;
             Ret new_head
         end;
    Ret (set_hazard_pointers_ (hazard_pointers_ r ++ [hp]) r).

(** [hazard_pointers_[index]]: [operator[]] takes a [size_t] and does not
    check it. *)
Definition hazard_pointers_at {T} (r : Reclaimer) (index : Z) (k : nat → prog T) : prog T :=
  match hazard_pointers_ r !! Z.to_nat (to_size_t index) with
  | None => Throw InvalidAccess
  | Some a => k a
  end.

Definition MarkHazard (fuel : nat) (index : Z) (ptr : N) (r : Reclaimer) : prog Reclaimer :=
  r ← TryAcquireHazardPointer fuel index r;
  hazard_pointers_at r index (λ a, perform (ptr_store a ptr);; Ret r).

Definition GetHazardPtr (fuel : nat) (index : Z) (r : Reclaimer) : prog (N * Reclaimer) :=
  r ← TryAcquireHazardPointer fuel index r;
  hazard_pointers_at r index (λ a, v ← (perform (ptr_load a) : prog N); Ret (v, r)).

(** [std::unordered_map::insert] keeps the old entry when the key is there. *)
Definition map_insert_new (k : N) (node : ReclaimNode) (m : gmap N ReclaimNode)
  : gmap N ReclaimNode :=
  match m !! k with
  | Some _ => m
  | None => <[k := node]> m
  end.

Definition ReclaimLater (ptr : N) (func : option nat) (r : Reclaimer) : prog Reclaimer :=
  match ReclaimPool.Pop (reclaim_pool_ r) with
  | None => Throw InvalidAccess
  | Some (_, pool) =>
      let new_node := {| node_ptr := ptr; node_delete_func := func |} in
      Ret {| hazard_pointers_ := hazard_pointers_ r;
             reclaim_map_ := map_insert_new ptr new_node (reclaim_map_ r);
             reclaim_pool_ := pool |}
  end.

(** The [do ... while (p)] of [ReclaimNoHazardPointer] that fills
    [not_allow_delete_set]. *)
Fixpoint ReclaimNoHazardPointer_collect (fuel : nat) (p : option nat)
    (not_allow_delete_set : gset N) : prog (gset N) :=
  match fuel with
  | O => Throw OutOfFuel
  | S fuel' =>
      deref p (λ a,
        ptr ← perform (ptr_load a);
        let set' := if decide (nullptr ≠ ptr) then {[ptr]} ∪ not_allow_delete_set
                    else not_allow_delete_set in
        q ← perform (next_load a);
        match q with
        | None => Ret set'
        | Some _ => ReclaimNoHazardPointer_collect fuel' q set'
        end)
  end.

(** The [for] loop over [reclaim_map_]; [entries] are the entries the
    iterator still has to visit. *)
Fixpoint ReclaimNoHazardPointer_sweep (entries : list (N * ReclaimNode))
    (not_allow_delete_set : gset N) (r : Reclaimer) : prog Reclaimer :=
  match entries with
  | [] => Ret r
  | (key, node) :: rest =>
      if decide (key ∈ not_allow_delete_set)
      then ReclaimNoHazardPointer_sweep rest not_allow_delete_set r
      else
        invoke (node_delete_func node) (node_ptr node);;
        ReclaimNoHazardPointer_sweep rest not_allow_delete_set
          {| hazard_pointers_ := hazard_pointers_ r;
             reclaim_map_ := delete key (reclaim_map_ r);
             reclaim_pool_ := ReclaimPool.Push node (reclaim_pool_ r) |}
  end.

Definition ReclaimNoHazardPointer (fuel : nat) (r : Reclaimer) : prog Reclaimer :=
  sz ← perform size_load;
  if Z.of_nat (size (reclaim_map_ r)) <? to_size_t (kCoefficient * sz) then Ret r
  else
    p ← perform head_load;
    not_allow_delete_set ← ReclaimNoHazardPointer_collect fuel p ∅;
    ReclaimNoHazardPointer_sweep (map_to_list (reclaim_map_ r)) not_allow_delete_set r.

(** [bool Hazard(void* const ptr)] *)
Fixpoint Hazard_loop (fuel : nat) (p : option nat) (ptr : N) : prog bool :=
  match fuel with
  | O => Throw OutOfFuel
  | S fuel' =>
      deref p (λ a,
        v ← perform (ptr_load a);
        if decide (v = ptr) then Ret true
        else
          q ← perform (next_load a);
          match q with
          | None => Ret false
          | Some _ => Hazard_loop fuel' q ptr
          end)
  end.

Definition Hazard (fuel : nat) (ptr : N) : prog bool :=
  p ← perform head_load;
  Hazard_loop fuel p ptr.

(** [~Reclaimer()], first loop. *)
Fixpoint Reclaimer_destroy_handover (hps : list nat) : prog unit :=
  match hps with
  | [] => Ret ()
  | a :: rest =>
      v ← perform (ptr_load a);
      if decide (nullptr = v)
      then perform (flag_clear a);; Reclaimer_destroy_handover rest
      else Throw AssertionFailed
  end.

(** [while (Hazard(it->first)) { std::this_thread::yield(); }] *)
Fixpoint Reclaimer_destroy_wait (fuel spins : nat) (key : N) : prog unit :=
  match spins with
  | O => Throw OutOfFuel
  | S spins' =>
      h ← Hazard fuel key;
      if (h : bool) then perform yield;; Reclaimer_destroy_wait fuel spins' key
      else Ret ()
  end.

(** [~Reclaimer()], second loop; the node is deleted, not pooled. *)
Fixpoint Reclaimer_destroy_drain (fuel : nat) (entries : list (N * ReclaimNode))
    (r : Reclaimer) : prog Reclaimer :=
  match entries with
  | [] => Ret r
  | (key, node) :: rest =>
      Reclaimer_destroy_wait fuel fuel key;;
      invoke (node_delete_func node) (node_ptr node);;
      Reclaimer_destroy_drain fuel rest
        {| hazard_pointers_ := hazard_pointers_ r;
           reclaim_map_ := delete key (reclaim_map_ r);
           reclaim_pool_ := reclaim_pool_ r |}
  end.

Definition Reclaimer_destroy (fuel : nat) (r : Reclaimer) : prog Reclaimer :=
  Reclaimer_destroy_handover (hazard_pointers_ r);;
  Reclaimer_destroy_drain fuel (map_to_list (reclaim_map_ r)) r.

End Methods.

(** ** Running a program against the registry *)

Definition update_slot (p : nat) (f : HazardPointer → HazardPointer) (σ : HazardPointerList)
  : HazardPointerList :=
  {| hpl_slots := alter f p (hpl_slots σ); hpl_head := hpl_head σ; hpl_size := hpl_size σ |}.

Definition set_slot (p : nat) (f : HazardPointer → HazardPointer) (σ : HazardPointerList)
  : option HazardPointerList :=
  _ ← hpl_slots σ !! p; Some (update_slot p f σ).

Definition set_flag (b : bool) (hp : HazardPointer) : HazardPointer :=
  {| hp_flag := b; hp_ptr := hp_ptr hp; hp_next := hp_next hp |}.
Definition set_ptr (v : N) (hp : HazardPointer) : HazardPointer :=
  {| hp_flag := hp_flag hp; hp_ptr := v; hp_next := hp_next hp |}.
Definition set_next (q : option nat) (hp : HazardPointer) : HazardPointer :=
  {| hp_flag := hp_flag hp; hp_ptr := hp_ptr hp; hp_next := q |}.

(** The effect of one atomic operation; [None] when it goes through a
    pointer that names no slot.  A called destroyer and [yield] leave the
    registry alone. *)
Definition exec (a : action) (σ : HazardPointerList) : option (result a * HazardPointerList) :=
  match a return option (result a * HazardPointerList) with
  | head_load => Some (hpl_head σ, σ)
  | head_compare_exchange expected desired =>
      if decide (hpl_head σ = expected)
      then Some ((true, expected),
                 {| hpl_slots := hpl_slots σ; hpl_head := desired; hpl_size := hpl_size σ |})
      else Some ((false, hpl_head σ), σ)
  | size_load => Some (hpl_size σ, σ)
  | size_fetch_add =>
      Some (hpl_size σ,
            {| hpl_slots := hpl_slots σ; hpl_head := hpl_head σ;
               hpl_size := to_size_t (hpl_size σ + 1) |})
  | new_HazardPointer =>
      Some (length (hpl_slots σ),
            {| hpl_slots := hpl_slots σ ++ [HazardPointer_new]; hpl_head := hpl_head σ;
               hpl_size := hpl_size σ |})
  | flag_test_and_set p =>
      hp ← hpl_slots σ !! p; σ' ← set_slot p (set_flag true) σ; Some (hp_flag hp, σ')
  | flag_clear p => σ' ← set_slot p (set_flag false) σ; Some ((), σ')
  | ptr_load p => hp ← hpl_slots σ !! p; Some (hp_ptr hp, σ)
  | ptr_store p v => σ' ← set_slot p (set_ptr v) σ; Some ((), σ')
  | next_load p => hp ← hpl_slots σ !! p; Some (hp_next hp, σ)
  | next_store p q => σ' ← set_slot p (set_next q) σ; Some ((), σ')
  | call _ _ => Some ((), σ)
  | yield => Some ((), σ)
  end.

(** What an observer sees of an atomic operation. *)
Inductive event :=
| ev_head_load (v : option nat)
| ev_head_compare_exchange (expected desired : option nat) (ok : bool)
| ev_size_load (v : Z)
| ev_size_fetch_add (old : Z)
| ev_new_HazardPointer (p : nat)
| ev_flag_test_and_set (p : nat) (was_set : bool)
| ev_flag_clear (p : nat)
| ev_ptr_load (p : nat) (v : N)
| ev_ptr_store (p : nat) (v : N)
| ev_next_load (p : nat) (q : option nat)
| ev_next_store (p : nat) (q : option nat)
| ev_call (f : nat) (arg : N)
| ev_yield.

Definition observe (a : action) : result a → event :=
  match a return result a → event with
  | head_load => ev_head_load
  | head_compare_exchange expected desired => λ x, ev_head_compare_exchange expected desired (fst x)
  | size_load => ev_size_load
  | size_fetch_add => ev_size_fetch_add
  | new_HazardPointer => ev_new_HazardPointer
  | flag_test_and_set p => ev_flag_test_and_set p
  | flag_clear p => λ _, ev_flag_clear p
  | ptr_load p => ev_ptr_load p
  | ptr_store p v => λ _, ev_ptr_store p v
  | next_load p => ev_next_load p
  | next_store p q => λ _, ev_next_store p q
  | call f arg => λ _, ev_call f arg
  | yield => λ _, ev_yield
  end.

Inductive outcome (T : Type) :=
| Returned (x : T)
| Raised (e : exn).
Arguments Returned {T} x.
Arguments Raised {T} e.

(** A thread running alone: the events in order, the registry at the end and
    how the program ended. *)
Fixpoint run {T} (m : prog T) (σ : HazardPointerList)
  : list event * HazardPointerList * outcome T :=
  match m with
  | Ret x => ([], σ, Returned x)
  | Throw e => ([], σ, Raised e)
  | Act a k =>
      match exec a σ with
      | None => ([], σ, Raised InvalidAccess)
      | Some (x, σ') =>
          let '(tr, σ'', o) := run (k x) σ' in (observe a x :: tr, σ'', o)
      end
  end.

(** The destroyer calls of a trace, in order. *)
Definition calls (tr : list event) : list (nat * N) :=
  omap (λ e, match e with ev_call f arg => Some (f, arg) | _ => None end) tr.

(** The reads of published pointers of a trace, in order. *)
Definition loads (tr : list event) : list (nat * N) :=
  omap (λ e, match e with ev_ptr_load p v => Some (p, v) | _ => None end) tr.

(** The slots linked from [p], in the order a traversal meets them. *)
Inductive linked (slots : list HazardPointer) : option nat → list nat → Prop :=
| linked_nil : linked slots None []
| linked_cons a hp l :
    slots !! a = Some hp → linked slots (hp_next hp) l → linked slots (Some a) (a :: l).

Fixpoint chain (fuel : nat) (slots : list HazardPointer) (p : option nat) : list nat :=
  match fuel, p with
  | S fuel', Some a =>
      match slots !! a with
      | Some hp => a :: chain fuel' slots (hp_next hp)
      | None => []
      end
  | _, _ => []
  end.

(** The slots of the registry are those reachable from its head. *)
Definition registry (σ : HazardPointerList) : list nat :=
  chain (length (hpl_slots σ)) (hpl_slots σ) (hpl_head σ).

Definition ptr_at (σ : HazardPointerList) (a : nat) : N :=
  default nullptr (hp_ptr <$> hpl_slots σ !! a).

Definition flag_at (σ : HazardPointerList) (a : nat) : bool :=
  default false (hp_flag <$> hpl_slots σ !! a).

(** [v] is the pointer published by some slot of [l]. *)
Definition publishes (σ : HazardPointerList) (l : list nat) (v : N) : Prop :=
  ∃ a, a ∈ l ∧ ptr_at σ a = v.

#[global] Instance publishes_dec σ l v : Decision (publishes σ l v).
Proof.
  refine (cast_if (decide (v ∈ ptr_at σ <$> l)));
    unfold publishes; pose proof (list_elem_of_fmap (ptr_at σ) l v); naive_solver.
Defined.

(** The non-null pointers published by the slots of [l]. *)
Definition published (σ : HazardPointerList) (l : list nat) : gset N :=
  list_to_set (filter (λ v, nullptr ≠ v) (ptr_at σ <$> l)).

(** ** Threads *)

(** What a thread asks of its [Reclaimer]: the four public methods, and the
    end of the thread, which runs the destructor of the thread-local
    instance; a later request of the same thread number is served by a fresh
    instance, as for a new thread. *)
Inductive request :=
| req_MarkHazard (index : Z) (ptr : N)
| req_GetHazardPtr (index : Z)
| req_ReclaimLater (ptr : N) (func : option nat)
| req_ReclaimNoHazardPointer
| req_thread_exit.

Definition serve (fuel : nat) (c : request) (r : Reclaimer) : prog Reclaimer :=
  match c with
  | req_MarkHazard index ptr => MarkHazard fuel index ptr r
  | req_GetHazardPtr index => bind (GetHazardPtr fuel index r) (λ vr, Ret vr.2)
  | req_ReclaimLater ptr func => ReclaimLater ptr func r
  | req_ReclaimNoHazardPointer => ReclaimNoHazardPointer fuel r
  | req_thread_exit => bind (Reclaimer_destroy fuel r) (λ _, Ret Reclaimer_new)
  end.

(** *** One request at a time *)

(** The registry and the [Reclaimer] of every thread that has one
    ([GetInstance] creates it on first use). *)
Record World := mkWorld {
  world_list : HazardPointerList;
  world_reclaimers : gmap nat Reclaimer
}.

Definition World_new : World :=
  {| world_list := HazardPointerList_new; world_reclaimers := ∅ |}.

Definition GetInstance (t : nat) (w : World) : Reclaimer :=
  default Reclaimer_new (world_reclaimers w !! t).

(** Thread [t] performs request [c] without interruption; there is no next
    world when the request ends the process or never returns. *)
Definition handle (fuel : nat) (t : nat) (c : request) (w : World) : option World :=
  match run (serve fuel c (GetInstance t w)) (world_list w) with
  | (_, σ, Returned r) =>
      Some {| world_list := σ; world_reclaimers := <[t := r]> (world_reclaimers w) |}
  | _ => None
  end.

Inductive reachable : World → Prop :=
| reachable_new : reachable World_new
| reachable_handle fuel t c w w' :
    reachable w → handle fuel t c w = Some w' → reachable w'.

(** *** Interleaved threads *)

(** The program of a thread that performs the requests [cs] in order. *)
Fixpoint thread_main (fuel : nat) (cs : list request) (r : Reclaimer) : prog unit :=
  match cs with
  | [] => Ret ()
  | c :: cs' => bind (serve fuel c r) (thread_main fuel cs')
  end.

(** The registry, what is left to run of every thread, and the events so
    far, each with the thread that performed it. *)
Record Threads := mkThreads {
  shared : HazardPointerList;
  running : list (prog unit);
  history : list (nat * event)
}.

(** Thread [t] performs its next atomic operation. *)
Definition step (t : nat) (w : Threads) : Threads :=
  match running w !! t with
  | Some (Act a k) =>
      match exec a (shared w) with
      | Some (x, σ) =>
          {| shared := σ; running := <[t := k x]> (running w);
             history := history w ++ [(t, observe a x)] |}
      | None =>
          {| shared := shared w; running := <[t := Throw InvalidAccess]> (running w);
             history := history w |}
      end
  | _ => w
  end.

Definition steps (schedule : list nat) (w : Threads) : Threads :=
  foldl (λ w t, step t w) w schedule.

Definition start (fuel : nat) (css : list (list request)) : Threads :=
  {| shared := HazardPointerList_new;
     running := (λ cs, thread_main fuel cs Reclaimer_new) <$> css;
     history := [] |}.

(** Thread [t] is about to pass to a destroyer an address that a slot of the
    registry publishes. *)
Definition destroys_published (t : nat) (w : Threads) : Prop :=
  match running w !! t with
  | Some (Act (call _ arg) _) => publishes (shared w) (registry (shared w)) arg
  | _ => False
  end.

#[global] Instance destroys_published_dec t w : Decision (destroys_published t w).
Proof.
  unfold destroys_published.
  destruct (running w !! t) as [[x|e|[] k]|]; apply _.
Defined.

(** ** Properties of traces that hold whatever the other threads do *)

Section Monitor.
Context {S : Type} (monitor : S → event → option S).

Fixpoint monitor_all (s : S) (tr : list event) : option S :=
  match tr with
  | [] => Some s
  | e :: tr' => s' ← monitor s e; monitor_all s' tr'
  end.

(** Every operation of [m] is accepted by the monitor, whatever the
    operations before it returned, and [Φ] holds when [m] returns. *)
Fixpoint wp {T} (m : prog T) (s : S) (Φ : T → S → Prop) : Prop :=
  match m with
  | Ret x => Φ x s
  | Throw _ => True
  | Act a k => ∀ x : result a, ∃ s', monitor s (observe a x) = Some s' ∧ wp (k x) s' Φ
  end.
End Monitor.

(** The events of thread [t] in a history. *)
Definition events_of (t : nat) (h : list (nat * event)) : list event :=
  omap (λ te : nat * event, if decide (te.1 = t) then Some te.2 else None) h.



(** ** Vocabulary of the statements *)

Definition next_at (σ : HazardPointerList) (a : nat) : option nat :=
  hpl_slots σ !! a ≫= hp_next.

(** The events of the search of [TryAcquireHazardPointer] over slots that
    are all owned. *)
Definition find_trace (σ : HazardPointerList) (l : list nat) : list event :=
  l ≫= λ b, [ev_flag_test_and_set b true; ev_next_load b (next_at σ b)].

(** The events of a traversal that reads the pointer of every slot of [l]. *)
Definition walk_trace (σ : HazardPointerList) (l : list nat) : list event :=
  l ≫= λ b, [ev_ptr_load b (ptr_at σ b); ev_next_load b (next_at σ b)].

(** The values of an [int], the type of the [index] arguments. *)
Definition int_range (z : Z) : Prop := - 2 ^ 31 ≤ z < 2 ^ 31.

(** The event of the destroyer call of an entry of [reclaim_map_]. *)
Definition destroyer_call (kv : N * ReclaimNode) : option event :=
  f ← node_delete_func kv.2; Some (ev_call f (node_ptr kv.2)).

(** The entries a pass with the set [keep] reclaims, in the order of the
    iteration. *)
Definition reclaimed (keep : gset N) (entries : list (N * ReclaimNode))
  : list (N * ReclaimNode) :=
  filter (λ kv, kv.1 ∉ keep) entries.

Definition erase_all (entries : list (N * ReclaimNode)) (m : gmap N ReclaimNode)
  : gmap N ReclaimNode :=
  foldl (λ m kv, delete kv.1 m) m entries.

(** A sequence of operations on a [ReclaimPool]; [None] when [Pop] finds
    the head null. *)
Inductive pool_op :=
| pool_Push (node : ReclaimNode)
| pool_Pop.

Definition pool_apply (pool : list ReclaimNode) (o : pool_op) : option (list ReclaimNode) :=
  match o with
  | pool_Push node => Some (ReclaimPool.Push node pool)
  | pool_Pop => snd <$> ReclaimPool.Pop pool
  end.

Fixpoint pool_run (ops : list pool_op) (pool : list ReclaimNode) : option (list ReclaimNode) :=
  match ops with
  | [] => Some pool
  | o :: ops' => pool' ← pool_apply pool o; pool_run ops' pool'
  end.

(** The value and the registry after a program that returns. *)
Definition after {T} (m : prog T) (σ : HazardPointerList) : option (T * HazardPointerList) :=
  match run m σ with
  | (_, σ', Returned x) => Some (x, σ')
  | _ => None
  end.

(** A thread publishes through the indices 0 to 4, which takes the slot of
    the constructor and creates four, and defers sixteen addresses. *)
Definition sixteen_pending : prog Reclaimer :=
  let marks := (λ i, req_MarkHazard (Z.of_nat i) (100 + N.of_nat i)) <$> seq 0 5 in
  let defers := (λ i, req_ReclaimLater (N.of_nat i) (Some i)) <$> seq 1 16 in
  foldl (λ m c, bind m (serve 5 c)) (Ret Reclaimer_new) (marks ++ defers).

(** The registry after [flag.clear()] on each of the slots [hps]. *)
Definition clear_flags (hps : list nat) (σ : HazardPointerList) : HazardPointerList :=
  foldl (λ σ a, update_slot a (set_flag false) σ) σ hps.

(** The events of the first loop of the destructor when every slot
    publishes nothing. *)
Definition handover_trace (hps : list nat) : list event :=
  hps ≫= λ a, [ev_ptr_load a nullptr; ev_flag_clear a].

(** The events of the loop of [Hazard] over the slots [l]: it stops at the
    first slot that publishes [key]. *)
Fixpoint hazard_trace (σ : HazardPointerList) (l : list nat) (key : N) : list event :=
  match l with
  | [] => []
  | a :: l' =>
      ev_ptr_load a (ptr_at σ a) ::
      if decide (ptr_at σ a = key) then []
      else ev_next_load a (next_at σ a) :: hazard_trace σ l' key
  end.



(** The events of [spins] rounds of waiting for [key]. *)
Definition spin_trace (σ : HazardPointerList) (l : list nat) (key : N) (spins : nat)
  : list event :=
  mjoin (replicate spins (ev_head_load (hpl_head σ) :: hazard_trace σ l key ++ [ev_yield])).



(** Every node of [reclaim_map_] is filed under the address it holds. *)
Definition keys_ok (r : Reclaimer) : Prop :=
  map_Forall (λ k node, node_ptr node = k) (reclaim_map_ r).


(** ** Registries and reclaimers of the examples *)

(** One slot, owned, that publishes [v]. *)
Definition list_one (v : N) : HazardPointerList :=
  {| hpl_slots := [{| hp_flag := true; hp_ptr := v; hp_next := None |}];
     hpl_head := Some 0%nat; hpl_size := 0 |}.


(** A reclaimer that owns the slots [hps] and has the addresses [ptrs]
    pending, each with the destroyer 1. *)
Definition reclaimer_with (hps : list nat) (ptrs : list N) : Reclaimer :=
  {| hazard_pointers_ := hps;
     reclaim_map_ :=
       list_to_map ((λ p, (p, {| node_ptr := p; node_delete_func := Some 1%nat |})) <$> ptrs);
     reclaim_pool_ := ReclaimPool.new |}.

(** The world after the threads have performed the requests [steps], in
    order; a request that does not return is skipped. *)
Definition world_after (steps : list (nat * request)) : World :=
  foldl (λ w tc, default w (handle 2 tc.1 tc.2 w)) World_new steps.

(** Thread 0 publishes 5 through index 0. *)
Definition world_one : World := world_after [(0%nat, req_MarkHazard 0 5)].

(** Then thread 1 publishes 6 through its index 0. *)
Definition world_two : World :=
  world_after [(0%nat, req_MarkHazard 0 5); (1%nat, req_MarkHazard 0 6)].

(** Then thread 0 releases its protection and ends. *)
Definition world_released : World :=
  world_after [(0%nat, req_MarkHazard 0 5); (1%nat, req_MarkHazard 0 6);
               (0%nat, req_MarkHazard 0 0); (0%nat, req_thread_exit)].

(** [m'] does what [m] does, and may go on where [m] runs out of fuel. *)
Inductive refines {T} : prog T → prog T → Prop :=
| refines_fuel m' : refines (Throw OutOfFuel) m'
| refines_Ret x : refines (Ret x) (Ret x)
| refines_Throw e : refines (Throw e) (Throw e)
| refines_Act a k k' : (∀ x, refines (k x) (k' x)) → refines (Act a k) (Act a k').

(** Events that leave the registry as it is. *)
Definition read_only (u : unit) (e : event) : option unit :=
  match e with
  | ev_head_load _ | ev_size_load _ | ev_ptr_load _ _ | ev_next_load _ _
  | ev_call _ _ | ev_yield => Some ()
  | _ => None
  end.

(** A request that touches only the map and the pool of the reclaimer keeps
    what the other components rely on. *)
Definition local_step (r r' : Reclaimer) : Prop :=
  hazard_pointers_ r' = hazard_pointers_ r
  ∧ (keys_ok r → keys_ok r')
  ∧ (reclaim_pool_ r ≠ [] → reclaim_pool_ r' ≠ []).

(** What holds of every world the requests of the threads can reach: the
    slots are linked from the head; a slot whose flag is clear publishes
    nothing; the slots of a reclaimer have their flag set and belong to no
    other reclaimer; the nodes of a reclaimer are filed under their address
    and its pool holds a node. *)
Record world_ok (w : World) : Prop := mk_world_ok {
  ok_linked : ∃ l, linked (hpl_slots (world_list w)) (hpl_head (world_list w)) l ∧ l ≠ [];
  ok_idle : ∀ a, flag_at (world_list w) a = false → ptr_at (world_list w) a = nullptr;
  ok_owned : ∀ t r a,
    world_reclaimers w !! t = Some r → a ∈ hazard_pointers_ r →
    flag_at (world_list w) a = true;
  ok_exclusive : ∀ t1 t2 r1 r2 a,
    world_reclaimers w !! t1 = Some r1 → world_reclaimers w !! t2 = Some r2 →
    a ∈ hazard_pointers_ r1 → a ∈ hazard_pointers_ r2 → t1 = t2;
  ok_NoDup : ∀ t r, world_reclaimers w !! t = Some r → NoDup (hazard_pointers_ r);
  ok_keys : ∀ t r, world_reclaimers w !! t = Some r → keys_ok r;
  ok_pool : ∀ t r, world_reclaimers w !! t = Some r → reclaim_pool_ r ≠ []
}.

(** The registry [σ'] is [σ] after a thread has taken the slot [a], which
    was free or did not exist. *)
Definition acquired (σ σ' : HazardPointerList) (a : nat) : Prop :=
  flag_at σ a = false ∧ flag_at σ' a = true
  ∧ (∀ x, x ≠ a → flag_at σ' x = flag_at σ x)
  ∧ (∀ x, ptr_at σ' x = ptr_at σ x)
  ∧ ∃ l', linked (hpl_slots σ') (hpl_head σ') l' ∧ l' ≠ [].

(** ** The pool, the registry at the end of the program, requests in a row *)

(** [n] calls of [Pop] in a row: the nodes returned, in order, and the pool
    left. *)
Fixpoint Pop_times (n : nat) (pool : list ReclaimNode)
  : option (list ReclaimNode * list ReclaimNode) :=
  match n with
  | O => Some ([], pool)
  | S n' =>
      '(node, pool') ← ReclaimPool.Pop pool;
      '(nodes, pool'') ← Pop_times n' pool';
      Some (node :: nodes, pool'')
  end.

(** [~HazardPointerList()]:
    [p = head; while (p) { temp = p; p = p->next; delete temp; }].
    The result lists the slots deleted, in order; reading [next] of a slot
    that has been deleted is an invalid access. *)
Fixpoint HazardPointerList_destroy_loop (fuel : nat) (σ : HazardPointerList)
    (p : option nat) (deleted : list nat) : list nat * outcome unit :=
  match p, fuel with
  | None, _ => (deleted, Returned ())
  | Some _, O => (deleted, Raised OutOfFuel)
  | Some temp, S fuel' =>
      if decide (temp ∈ deleted) then (deleted, Raised InvalidAccess)
      else
        match hpl_slots σ !! temp with
        | None => (deleted, Raised InvalidAccess)
        | Some hp => HazardPointerList_destroy_loop fuel' σ (hp_next hp) (deleted ++ [temp])
        end
  end.

Definition HazardPointerList_destroy (fuel : nat) (σ : HazardPointerList)
  : list nat * outcome unit :=
  HazardPointerList_destroy_loop fuel σ (hpl_head σ) [].

(** The requests [steps] served one after the other, each by its thread;
    there is no world at the end when one of them does not return. *)
Fixpoint handle_all (fuel : nat) (steps : list (nat * request)) (w : World) : option World :=
  match steps with
  | [] => Some w
  | (t, c) :: rest => w' ← handle fuel t c w; handle_all fuel rest w'
  end.

(** ** Monitors of interleavings *)

Section Accepted.
Context {S : Type} (monitor : nat → S → event → option S) (init : nat → S).

(** Every thread has been accepted by its monitor so far and will be,
    whatever its operations return. *)
Definition accepted (w : Threads) : Prop :=
  ∀ t, ∃ s, monitor_all (monitor t) (init t) (events_of t (history w)) = Some s
            ∧ ∀ m, running w !! t = Some m → wp (monitor t) m s (λ _ _, True).
End Accepted.

#[global] Instance request_eq_dec : EqDecision request.
Proof. solve_decision. Defined.

(** The requests of [cs] that defer the address [p] with the destroyer [f]. *)
Definition deferrals (f : nat) (p : N) (cs : list request) : nat :=
  length (filter (λ c, c = req_ReclaimLater p (Some f)) cs).

(** The calls of the destroyer [f] on the address [p] in a trace. *)
Definition destructions (f : nat) (p : N) (tr : list event) : nat :=
  length (filter (λ c, c = (f, p)) (calls tr)).

(** Counts the calls of [f] on [p] and refuses the one after [budget]. *)
Definition at_most (budget : nat) (f : nat) (p : N) (n : nat) (e : event) : option nat :=
  match e with
  | ev_call f' p' =>
      if decide (f' = f ∧ p' = p)
      then if decide (n < budget)%nat then Some (S n) else None
      else Some n
  | _ => Some n
  end.

(** 1 when [p] is pending with the destroyer [f], 0 otherwise. *)
Definition pending (f : nat) (p : N) (r : Reclaimer) : nat :=
  match reclaim_map_ r !! p with
  | Some node => if decide (node_delete_func node = Some f) then 1%nat else 0%nat
  | None => 0%nat
  end.

(** The requests that neither publish nor read a published pointer. *)
Definition reclaims_only (c : request) : Prop :=
  match c with
  | req_MarkHazard _ _ | req_GetHazardPtr _ => False
  | _ => True
  end.

(** The monitor of thread [t] is [monitor]; the other threads are not
    watched. *)
Definition watch {S : Type} (t : nat) (monitor : S → event → option S) (t' : nat)
  : S → event → option S :=
  if decide (t' = t) then monitor else λ s _, Some s.

(** ** What a thread knows of the registry *)

(** The view a thread has of the slots: the slots whose flag it has set,
    with the pointer each holds; the slots it has created and not linked
    yet, with the link each holds; the addresses it has read from the head
    and from links. *)
Record view := mkView {
  v_own : gmap nat N;
  v_fresh : gmap nat (option nat);
  v_known : gset nat
}.

Definition view_new : view := {| v_own := ∅; v_fresh := ∅; v_known := ∅ |}.

Definition know (x : option nat) (s : view) : view :=
  match x with
  | Some a => {| v_own := v_own s; v_fresh := v_fresh s; v_known := {[a]} ∪ v_known s |}
  | None => s
  end.

Definition with_own (own : gmap nat N) (s : view) : view :=
  {| v_own := own; v_fresh := v_fresh s; v_known := v_known s |}.

Definition with_fresh (fresh : gmap nat (option nat)) (s : view) : view :=
  {| v_own := v_own s; v_fresh := fresh; v_known := v_known s |}.

(** The operations a thread with the view [s] may perform: it links a slot
    it has created, with the link of the slot as the expected head; it
    clears the flag of a slot it owns that holds no pointer; it stores a
    pointer in a linked slot it owns; it stores a link in a slot it has
    created; otherwise it touches the slots it knows. *)
Definition may (s : view) (a : action) : Prop :=
  match a with
  | head_compare_exchange expected desired =>
      ∃ b, desired = Some b ∧ v_fresh s !! b = Some expected
  | flag_test_and_set b => b ∈ v_known s ∨ b ∈ dom (v_fresh s)
  | flag_clear b => v_own s !! b = Some nullptr ∧ b ∈ v_known s
  | ptr_load b => b ∈ v_known s
  | ptr_store b _ => b ∈ dom (v_own s) ∧ b ∈ v_known s
  | next_load b => b ∈ v_known s
  | next_store b _ => b ∈ dom (v_fresh s)
  | _ => True
  end.

(** What the thread may expect of the answer: the head is not null; a
    created slot is new to the thread; the flag of a slot it owns is set
    and the flag of a slot it has just created is clear; a slot it owns
    holds the pointer it has stored. *)
Definition answers (s : view) (a : action) : result a → Prop :=
  match a return result a → Prop with
  | head_load => λ x, is_Some x
  | head_compare_exchange _ _ => λ x, x.1 = false → is_Some x.2
  | new_HazardPointer => λ x, (x ∉ v_known s) ∧ (x ∉ dom (v_fresh s)) ∧ (x ∉ dom (v_own s))
  | flag_test_and_set b => λ x,
      (b ∈ dom (v_own s) → x = true)
      ∧ (b ∈ dom (v_fresh s) → (b ∉ dom (v_own s)) → x = false)
  | ptr_load b => λ x, ∀ v, v_own s !! b = Some v → x = v
  | _ => λ _, True
  end.

(** The view after the operation and its answer. *)
Definition learn (s : view) (a : action) : result a → view :=
  match a return result a → view with
  | head_load => λ x, know x s
  | head_compare_exchange _ desired => λ x,
      if x.1 then
        match desired with
        | Some b => know (Some b) (with_fresh (delete b (v_fresh s)) s)
        | None => s
        end
      else know x.2 s
  | new_HazardPointer => λ x, with_fresh (<[x := None]> (v_fresh s)) s
  | flag_test_and_set b => λ x, if x then s else with_own (<[b := nullptr]> (v_own s)) s
  | flag_clear b => λ _, with_own (delete b (v_own s)) s
  | ptr_store b v => λ _, with_own (<[b := v]> (v_own s)) s
  | next_load _ => λ x, know x s
  | next_store b q => λ _, with_fresh (<[b := q]> (v_fresh s)) s
  | _ => λ _, s
  end.

(** The program [m] performs only operations that its view allows,
    whatever expected answers it gets, it never makes an invalid access,
    and [Φ] holds when it returns. *)
Fixpoint wpl {T} (m : prog T) (s : view) (Φ : T → view → Prop) : Prop :=
  match m with
  | Ret x => Φ x s
  | Throw e => e ≠ InvalidAccess
  | Act a k => may s a ∧ ∀ x, answers s a x → wpl (k x) (learn s a x) Φ
  end.

(** The slots a thread holds according to its own events: those whose flag
    its [test_and_set] found clear and that it has not cleared since, each
    with the pointer the thread stored in it last, null when it stored
    none. *)
Definition hold (m : gmap nat N) (e : event) : gmap nat N :=
  match e with
  | ev_flag_test_and_set a false => <[a := nullptr]> m
  | ev_flag_clear a => delete a m
  | ev_ptr_store a v => if decide (a ∈ dom m) then <[a := v]> m else m
  | _ => m
  end.

Definition held (tr : list event) : gmap nat N := foldl hold ∅ tr.

(** The views [G] of the threads fit the registry [σ]: the chain from the
    head and the slots created but not linked yet make up the slots; a slot
    created by a thread and not linked is in no chain, holds the link the
    thread stored and no pointer, and its flag is clear until the thread
    sets it; the addresses known are in the chain; a slot owned has its
    flag set, holds the pointer its owner stored and has one owner; a slot
    whose flag is clear holds no pointer. *)
Record fits (σ : HazardPointerList) (G : nat → view) : Prop := mk_fits {
  fit_linked : linked (hpl_slots σ) (hpl_head σ) (registry σ) ∧ registry σ ≠ [];
  fit_cover : ∀ a, (a < length (hpl_slots σ))%nat →
    a ∈ registry σ ∨ ∃ t, a ∈ dom (v_fresh (G t));
  fit_fresh : ∀ t a q, v_fresh (G t) !! a = Some q →
    (a ∉ registry σ) ∧ is_Some (hpl_slots σ !! a)
    ∧ next_at σ a = q ∧ ptr_at σ a = nullptr
    ∧ ((a ∉ dom (v_own (G t))) → flag_at σ a = false);
  fit_fresh_one : ∀ t1 t2 a,
    a ∈ dom (v_fresh (G t1)) → a ∈ dom (v_fresh (G t2)) → t1 = t2;
  fit_known : ∀ t a, a ∈ v_known (G t) → a ∈ registry σ;
  fit_own : ∀ t a v, v_own (G t) !! a = Some v →
    flag_at σ a = true ∧ ptr_at σ a = v
    ∧ (a ∈ registry σ ∨ a ∈ dom (v_fresh (G t)));
  fit_own_one : ∀ t1 t2 a,
    a ∈ dom (v_own (G t1)) → a ∈ dom (v_own (G t2)) → t1 = t2;
  fit_idle : ∀ a, flag_at σ a = false → ptr_at σ a = nullptr
}.

(** The views fit the registry, the slots a thread owns are those its
    events say it holds, every thread goes on within its view and ends
    with no slot left to link, and a thread that does not exist has
    created no slot. *)
Record coherent (w : Threads) (G : nat → view) : Prop := mk_coherent {
  co_fits : fits (shared w) G;
  co_held : ∀ t, v_own (G t) = held (events_of t (history w));
  co_running : ∀ t m, running w !! t = Some m → wpl m (G t) (λ _ s, v_fresh s = ∅);
  co_absent : ∀ t, running w !! t = None → v_fresh (G t) = ∅
}.

(** What a [Reclaimer] and the view of its thread have in common between
    two requests. *)
Definition settled (r : Reclaimer) (s : view) : Prop :=
  NoDup (hazard_pointers_ r)
  ∧ (∀ a, a ∈ hazard_pointers_ r → a ∈ dom (v_own s) ∧ a ∈ v_known s)
  ∧ v_fresh s = ∅ ∧ reclaim_pool_ r ≠ [].

(** The view [s'] is [s] with more addresses known. *)
Definition grows (s s' : view) : Prop :=
  v_own s' = v_own s ∧ v_fresh s' = v_fresh s ∧ v_known s ⊆ v_known s'.

(** The views [G] with the view of thread [t] replaced by [s]. *)
Definition set_view (t : nat) (s : view) (G : nat → view) : nat → view :=
  λ t', if decide (t' = t) then s else G t'.

(** ** Traversals of the registry *)

(** Where a thread stands in the traversal it began with its last load of
    the head: the head it loaded, the slots it has gone through (pointer
    read, then link followed), the pointer it is at ([None] when it has
    left the traversal, [Some None] at the end of the chain), whether it
    has read the pointer of the slot it is at, and the non-null pointers
    it has read from the slots of the traversal. *)
Record traversal := mkTraversal {
  tr_head : option nat;
  tr_visited : list nat;
  tr_cursor : option (option nat);
  tr_read : bool;
  tr_seen : gset N
}.

Definition traversal_new : traversal :=
  {| tr_head := None; tr_visited := []; tr_cursor := None; tr_read := false; tr_seen := ∅ |}.

(** The traversal after an event; a destroyer call is refused unless the
    traversal has reached the end of the chain and has not read the
    address. *)
Definition traverse (s : traversal) (e : event) : option traversal :=
  match e with
  | ev_head_load x =>
      Some {| tr_head := x; tr_visited := []; tr_cursor := Some x; tr_read := false;
              tr_seen := ∅ |}
  | ev_ptr_load b v =>
      Some (if decide (tr_cursor s = Some (Some b))
            then {| tr_head := tr_head s; tr_visited := tr_visited s;
                    tr_cursor := tr_cursor s; tr_read := true;
                    tr_seen := if decide (nullptr ≠ v) then {[v]} ∪ tr_seen s
                               else tr_seen s |}
            else s)
  | ev_next_load b q =>
      Some (if decide (tr_cursor s = Some (Some b) ∧ tr_read s = true)
            then {| tr_head := tr_head s; tr_visited := tr_visited s ++ [b];
                    tr_cursor := Some q; tr_read := false; tr_seen := tr_seen s |}
            else {| tr_head := tr_head s; tr_visited := tr_visited s;
                    tr_cursor := None; tr_read := false; tr_seen := tr_seen s |})
  | ev_call _ arg =>
      if decide (tr_cursor s = Some None ∧ arg ∉ tr_seen s) then Some s else None
  | _ => Some s
  end.

(** The traversal [s] is on its way to the slot [b] of the registry, or has
    gone through it and has read the pointer [p] from it. *)
Definition on_track (σ : HazardPointerList) (b : nat) (p : N) (s : traversal) : Prop :=
  ∀ q, tr_cursor s = Some q →
    ∃ rest, linked (hpl_slots σ) q rest
      ∧ (∀ c, c ∈ rest → c ∈ registry σ)
      ∧ b ∈ tr_visited s ++ rest
      ∧ (b ∈ tr_visited s → p ∈ tr_seen s)
      ∧ (tr_read s = true → q = Some b → p ∈ tr_seen s).

(** Since the history [base]: the events [since]; as long as thread [t]
    has not loaded the head again and no thread has stored a pointer in the
    slot [b], the slot is in the registry and holds [p], the traversal of
    [t] is on track, and [t] has not called a destroyer on [p]. *)
Definition spared (base : list (nat * event)) (t b : nat) (p : N) (w : Threads)
    (since : list (nat * event)) : Prop :=
  history w = base ++ since
  ∧ ((∀ v, (t, ev_head_load v) ∉ since) → (∀ t' v, (t', ev_ptr_store b v) ∉ since) →
     ptr_at (shared w) b = p ∧ b ∈ registry (shared w)
     ∧ (∀ s, monitor_all traverse traversal_new (events_of t (history w)) = Some s →
          on_track (shared w) b p s)
     ∧ ∀ f, (t, ev_call f p) ∉ since).

(** Since the history [base]: the events [since]; as long as the thread
    [t1] has stored no pointer in the slot [b], it holds the slot with the
    pointer [p] and no thread has stored a pointer in it. *)
Definition kept (base : list (nat * event)) (t1 b : nat) (p : N) (w : Threads)
    (since : list (nat * event)) : Prop :=
  history w = base ++ since
  ∧ ((∀ v, (t1, ev_ptr_store b v) ∉ since) →
     held (events_of t1 (history w)) !! b = Some p
     ∧ ∀ t' v, (t', ev_ptr_store b v) ∉ since).
(** ** Facts about [run] *)

Lemma run_bind {A B} (m : prog A) (f : A → prog B) σ :
  run (bind m f) σ =
  match run m σ with
  | (tr, σ', Returned x) => let '(tr2, σ'', o) := run (f x) σ' in (tr ++ tr2, σ'', o)
  | (tr, σ', Raised e) => (tr, σ', Raised e)
  end.
Proof.
  revert σ. induction m as [x|e|a k IH]; intros σ; simpl.
  - by destruct (run (f x) σ) as [[??]?].
  - done.
  - destruct (exec a σ) as [[x σ']|]; [|done].
    rewrite IH. destruct (run (k x) σ') as [[tr σ''] [y|e]]; [|done].
    by destruct (run (f y) σ'') as [[??]?].
Qed.

Lemma run_act {T} a (k : result a → prog T) σ x σ' :
  exec a σ = Some (x, σ') →
  run (Act a k) σ = let '(tr, σ'', o) := run (k x) σ' in (observe a x :: tr, σ'', o).
Proof. intros H. simpl. by rewrite H. Qed.

Lemma update_slot_same p f σ hp :
  hpl_slots σ !! p = Some hp → f hp = hp → update_slot p f σ = σ.
Proof.
  intros Hp Hf. destruct σ as [sl h sz]. unfold update_slot. simpl in *. f_equal.
  apply list_eq. intros i. destruct (decide (i = p)) as [->|Hne].
  - rewrite list_lookup_alter_eq, Hp. simpl. by rewrite Hf.
  - by rewrite list_lookup_alter_ne.
Qed.

Lemma ptr_at_lookup σ a hp : hpl_slots σ !! a = Some hp → ptr_at σ a = hp_ptr hp.
Proof. unfold ptr_at. by intros ->. Qed.

Lemma flag_at_lookup σ a hp : hpl_slots σ !! a = Some hp → flag_at σ a = hp_flag hp.
Proof. unfold flag_at. by intros ->. Qed.

Lemma exec_flag_test_and_set σ p hp :
  hpl_slots σ !! p = Some hp →
  exec (flag_test_and_set p) σ = Some (hp_flag hp, update_slot p (set_flag true) σ).
Proof. intros H. simpl. unfold set_slot. by rewrite H. Qed.

Lemma exec_flag_clear σ p hp :
  hpl_slots σ !! p = Some hp →
  exec (flag_clear p) σ = Some ((), update_slot p (set_flag false) σ).
Proof. intros H. simpl. unfold set_slot. by rewrite H. Qed.

Lemma exec_ptr_load σ p hp :
  hpl_slots σ !! p = Some hp → exec (ptr_load p) σ = Some (hp_ptr hp, σ).
Proof. intros H. simpl. by rewrite H. Qed.

Lemma exec_ptr_store σ p v hp :
  hpl_slots σ !! p = Some hp →
  exec (ptr_store p v) σ = Some ((), update_slot p (set_ptr v) σ).
Proof. intros H. simpl. unfold set_slot. by rewrite H. Qed.

Lemma exec_next_load σ p hp :
  hpl_slots σ !! p = Some hp → exec (next_load p) σ = Some (hp_next hp, σ).
Proof. intros H. simpl. by rewrite H. Qed.

(** ** Linked slots *)

Lemma linked_inj slots p l1 l2 : linked slots p l1 → linked slots p l2 → l1 = l2.
Proof.
  intros H. revert l2. induction H as [|a hp l Ha _ IH]; intros l2 H2; inversion H2; subst.
  - done.
  - f_equal. apply IH. congruence.
Qed.

Lemma linked_some slots p l : linked slots p l → l ≠ [] → ∃ a, p = Some a.
Proof. intros [] ?; [done|eauto]. Qed.

Lemma linked_valid slots p l a : linked slots p l → a ∈ l → is_Some (slots !! a).
Proof.
  induction 1 as [|b hp l Hb _ IH]; intros Ha.
  - by apply elem_of_nil in Ha.
  - apply elem_of_cons in Ha as [->|Ha]; eauto.
Qed.

(** A change of slots that keeps every [next] keeps the links. *)
Lemma linked_preserved slots slots' p l :
  (∀ a hp, slots !! a = Some hp → ∃ hp', slots' !! a = Some hp' ∧ hp_next hp' = hp_next hp) →
  linked slots p l → linked slots' p l.
Proof.
  intros Hs. induction 1 as [|a hp l Ha _ IH]; [constructor|].
  destruct (Hs _ _ Ha) as (hp' & Ha' & Hn). econstructor; [done|]. by rewrite Hn.
Qed.

Lemma linked_alter slots p l a f :
  (∀ hp, hp_next (f hp) = hp_next hp) →
  linked slots p l → linked (alter f a slots) p l.
Proof.
  intros Hf. apply linked_preserved. intros b hp Hb.
  destruct (decide (b = a)) as [->|Hne].
  - exists (f hp). by rewrite list_lookup_alter_eq, Hb.
  - exists hp. by rewrite list_lookup_alter_ne.
Qed.

Lemma linked_app slots more p l : linked slots p l → linked (slots ++ more) p l.
Proof.
  apply linked_preserved. intros a hp Ha. exists hp. split; [|done].
  by apply lookup_app_l_Some.
Qed.

Lemma chain_linked fuel slots p l :
  linked slots p l → (length l ≤ fuel)%nat → chain fuel slots p = l.
Proof.
  intros H. revert fuel. induction H as [|a hp l Ha _ IH]; intros fuel Hf.
  - by destruct fuel.
  - destruct fuel as [|fuel]; simpl in *; [lia|]. rewrite Ha. f_equal. apply IH. lia.
Qed.

Lemma linked_suffix slots p l a l1 l2 :
  linked slots p l → l = l1 ++ a :: l2 → linked slots (Some a) (a :: l2).
Proof.
  intros H. revert l1. induction H as [|b hp l Hb Hl IH]; intros l1 E.
  - by destruct l1.
  - destruct l1 as [|c l1]; simplify_eq/=.
    + by econstructor.
    + by eapply IH.
Qed.

Lemma linked_NoDup slots p l : linked slots p l → NoDup l.
Proof.
  induction 1 as [|a hp l Ha Hl IH]; constructor; [|done].
  intros Hin. apply list_elem_of_split in Hin as (l1 & l2 & ->).
  pose proof (linked_suffix _ _ _ _ _ _ Hl eq_refl) as Hs.
  assert (linked slots (Some a) (a :: l1 ++ a :: l2)) as Hfull by by econstructor.
  pose proof (linked_inj _ _ _ _ Hs Hfull) as E.
  apply (f_equal length) in E. simpl in E. rewrite length_app in E. simpl in E. lia.
Qed.

Lemma linked_length slots p l : linked slots p l → (length l ≤ length slots)%nat.
Proof.
  intros H.
  assert (l ⊆+ seq 0 (length slots)) as Hsub.
  { apply NoDup_submseteq; [by eapply linked_NoDup|].
    intros a Ha. apply elem_of_seq. split; [lia|].
    destruct (linked_valid _ _ _ _ H Ha) as [hp Hhp].
    apply lookup_lt_Some in Hhp. simpl. lia. }
  apply submseteq_length in Hsub. by rewrite length_seq in Hsub.
Qed.

Lemma registry_linked σ l : linked (hpl_slots σ) (hpl_head σ) l → registry σ = l.
Proof. intros H. apply chain_linked; [done|]. by eapply linked_length. Qed.

Lemma next_at_lookup σ a hp : hpl_slots σ !! a = Some hp → next_at σ a = hp_next hp.
Proof. unfold next_at. by intros ->. Qed.

(** ** [TryAcquireHazardPointer] *)

Lemma find_run_idle busy : ∀ fuel p σ a rest,
  linked (hpl_slots σ) p (busy ++ a :: rest) →
  Forall (λ b, flag_at σ b = true) busy → flag_at σ a = false →
  (length busy < fuel)%nat →
  run (TryAcquireHazardPointer_find fuel p) σ =
    (find_trace σ busy ++ [ev_flag_test_and_set a false],
     update_slot a (set_flag true) σ, Returned (Some a)).
Proof.
  induction busy as [|b busy IH]; intros fuel p σ a rest Hl Hbusy Ha Hfuel;
    (destruct fuel as [|fuel]; [simpl in Hfuel; lia|]); inversion Hl as [|? hp ? Hhp Hnext]; subst.
  - simpl. unfold set_slot. rewrite Hhp. simpl.
    rewrite (flag_at_lookup _ _ _ Hhp) in Ha. by rewrite Ha.
  - apply Forall_cons in Hbusy as [Hb Hbusy].
    rewrite (flag_at_lookup _ _ _ Hhp) in Hb.
    cbn [TryAcquireHazardPointer_find deref perform bind].
    erewrite run_act; [|by apply exec_flag_test_and_set].
    rewrite Hb. cbn [negb bind].
    rewrite (update_slot_same b _ σ hp) by (done || by destruct hp; simpl in *; subst).
    erewrite run_act; [|by apply exec_next_load].
    cbn [find_trace mbind list_bind].
    rewrite (next_at_lookup _ _ _ Hhp).
    destruct (linked_some _ _ _ Hnext) as [c Hc]; [by destruct busy|].
    rewrite Hc in *. cbn [bind].
    by rewrite (IH fuel (Some c) σ a rest); [|done..|simpl in Hfuel; lia].
Qed.

Lemma find_run_busy l : ∀ fuel p σ,
  linked (hpl_slots σ) p l → l ≠ [] →
  Forall (λ b, flag_at σ b = true) l → (length l ≤ fuel)%nat →
  run (TryAcquireHazardPointer_find fuel p) σ = (find_trace σ l, σ, Returned None).
Proof.
  induction l as [|b l IH]; intros fuel p σ Hl Hne Hbusy Hfuel; [done|].
  destruct fuel as [|fuel]; [simpl in Hfuel; lia|].
  inversion Hl as [|? hp ? Hhp Hnext]; subst.
  apply Forall_cons in Hbusy as [Hb Hbusy].
  rewrite (flag_at_lookup _ _ _ Hhp) in Hb.
  cbn [TryAcquireHazardPointer_find deref perform bind].
  erewrite run_act; [|by apply exec_flag_test_and_set].
  rewrite Hb. cbn [negb bind].
  rewrite (update_slot_same b _ σ hp) by (done || by destruct hp; simpl in *; subst).
  erewrite run_act; [|by apply exec_next_load].
  cbn [find_trace mbind list_bind]. rewrite (next_at_lookup _ _ _ Hhp).
  destruct l as [|c l].
  - inversion Hnext as [E|]. simpl. done.
  - destruct (linked_some _ _ _ Hnext) as [d Hd]; [done|].
    rewrite Hd in *. cbn [bind].
    by rewrite (IH fuel (Some d) σ); [|done..|simpl in *; lia].
Qed.

Lemma to_size_t_small z : 0 ≤ z < size_t_modulus → to_size_t z = z.
Proof. intros. unfold to_size_t. by apply Z.mod_small. Qed.

Lemma alter_fresh (f : HazardPointer → HazardPointer) l x :
  alter f (length l) (l ++ [x]) = l ++ [f x].
Proof.
  replace (length l) with (length l + 0)%nat by lia. by rewrite alter_app_r.
Qed.

Lemma lookup_fresh (l : list HazardPointer) x : (l ++ [x]) !! length l = Some x.
Proof. by rewrite lookup_app_r, Nat.sub_diag. Qed.

Lemma TryAcquireHazardPointer_unfold fuel index r :
  to_size_t index = Z.of_nat (length (hazard_pointers_ r)) →
  TryAcquireHazardPointer fuel index r =
  (bind (perform head_load) (λ p,
   bind (TryAcquireHazardPointer_find fuel p) (λ found,
   bind (match found with
         | Some a => Ret a
         | None =>
             bind (perform new_HazardPointer) (λ new_head,
             bind (perform (flag_test_and_set new_head)) (λ _,
             bind (perform size_fetch_add) (λ _,
             bind (perform head_load) (λ old_head,
             bind (TryAcquireHazardPointer_push fuel new_head old_head) (λ _,
             Ret new_head)))))
         end) (λ hp,
   Ret (set_hazard_pointers_ (hazard_pointers_ r ++ [hp]) r))))).
Proof.
  intros Hi. unfold TryAcquireHazardPointer.
  by rewrite Hi, Z.leb_refl, Z.ltb_irrefl.
Qed.

Lemma TryAcquireHazardPointer_first_use_cases fuel σ r l index :
  linked (hpl_slots σ) (hpl_head σ) l → l ≠ [] → (length l ≤ fuel)%nat →
  to_size_t index = Z.of_nat (length (hazard_pointers_ r)) →
  (∀ busy a rest,
     l = busy ++ a :: rest → Forall (λ b, flag_at σ b = true) busy → flag_at σ a = false →
     run (TryAcquireHazardPointer fuel index r) σ =
       (ev_head_load (hpl_head σ) :: find_trace σ busy ++ [ev_flag_test_and_set a false],
        update_slot a (set_flag true) σ,
        Returned (set_hazard_pointers_ (hazard_pointers_ r ++ [a]) r)))
  ∧ (Forall (λ b, flag_at σ b = true) l →
     let a := length (hpl_slots σ) in
     run (TryAcquireHazardPointer fuel index r) σ =
       (ev_head_load (hpl_head σ) :: find_trace σ l ++
          [ev_new_HazardPointer a; ev_flag_test_and_set a false;
           ev_size_fetch_add (hpl_size σ); ev_head_load (hpl_head σ);
           ev_next_store a (hpl_head σ);
           ev_head_compare_exchange (hpl_head σ) (Some a) true],
        {| hpl_slots := hpl_slots σ ++
                        [{| hp_flag := true; hp_ptr := nullptr; hp_next := hpl_head σ |}];
           hpl_head := Some a;
           hpl_size := to_size_t (hpl_size σ + 1) |},
        Returned (set_hazard_pointers_ (hazard_pointers_ r ++ [a]) r))).
Proof.
  intros Hl Hne Hfuel Hidx.
  rewrite (TryAcquireHazardPointer_unfold fuel index r Hidx).
  split.
  - intros busy a rest -> Hbusy Ha.
    cbn [perform bind]. erewrite run_act; [|done].
    rewrite run_bind, (find_run_idle busy fuel _ σ a rest); [|done..|].
    + simpl. by rewrite app_nil_r.
    + rewrite length_app in Hfuel. simpl in Hfuel. lia.
  - intros Hbusy a.
    cbn [perform bind]. erewrite run_act; [|done].
    rewrite run_bind, (find_run_busy l fuel _ σ) by done.
    destruct fuel as [|fuel]; [destruct l; [done|simpl in Hfuel; lia]|].
    destruct σ as [sl h sz]. simpl in *. unfold set_slot. simpl.
    rewrite lookup_fresh. simpl. rewrite alter_fresh. simpl.
    rewrite lookup_fresh. simpl. rewrite alter_fresh. simpl.
    by rewrite decide_True.
Qed.


Lemma first_idle_split σ (l : list nat) :
  Forall (λ b, flag_at σ b = true) l
  ∨ ∃ busy a rest, l = busy ++ a :: rest
      ∧ Forall (λ b, flag_at σ b = true) busy ∧ flag_at σ a = false.
Proof.
  induction l as [|b l [IH|(busy & a & rest & -> & Hbusy & Ha)]].
  - by left.
  - destruct (flag_at σ b) eqn:Hb.
    + left. by constructor.
    + right. by exists [], b, l.
  - destruct (flag_at σ b) eqn:Hb.
    + right. exists (b :: busy), a, rest. split; [done|]. split; [by constructor|done].
    + right. by exists [], b, (busy ++ a :: rest).
Qed.

Lemma lookup_update_slot_eq σ a f hp :
  hpl_slots σ !! a = Some hp → hpl_slots (update_slot a f σ) !! a = Some (f hp).
Proof. intros H. simpl. by rewrite list_lookup_alter_eq, H. Qed.


(** Both cases of a first use at once: the slot taken, [a], comes last in
    [hazard_pointers_] and has its flag set; it is either a slot of the
    registry whose flag was clear or a new slot that publishes nothing. *)
Lemma TryAcquireHazardPointer_acquires fuel σ r l index :
  linked (hpl_slots σ) (hpl_head σ) l → l ≠ [] → (length l ≤ fuel)%nat →
  to_size_t index = Z.of_nat (length (hazard_pointers_ r)) →
  ∃ tr σ' a hp,
    run (TryAcquireHazardPointer fuel index r) σ =
      (tr, σ', Returned (set_hazard_pointers_ (hazard_pointers_ r ++ [a]) r))
    ∧ hpl_slots σ' !! a = Some hp ∧ hp_flag hp = true
    ∧ ((a ∈ l ∧ flag_at σ a = false ∧ σ' = update_slot a (set_flag true) σ)
       ∨ (a = length (hpl_slots σ) ∧ hp_ptr hp = nullptr
          ∧ Forall (λ b, flag_at σ b = true) l
          ∧ σ' = {| hpl_slots := hpl_slots σ ++
                      [{| hp_flag := true; hp_ptr := nullptr; hp_next := hpl_head σ |}];
                    hpl_head := Some a;
                    hpl_size := to_size_t (hpl_size σ + 1) |})).
Proof.
  intros Hl Hne Hfuel Hidx.
  destruct (TryAcquireHazardPointer_first_use_cases fuel σ r l index Hl Hne Hfuel Hidx)
    as [Hreuse Hnew].
  destruct (first_idle_split σ l) as [Hbusy|(busy & a & rest & E & Hbusy & Ha)].
  - specialize (Hnew Hbusy). simpl in Hnew. eexists _, _, _, _. split; [exact Hnew|].
    simpl. rewrite lookup_fresh. split; [done|]. split; [done|]. right. done.
  - pose proof (Hreuse busy a rest E Hbusy Ha) as Hrun.
    assert (a ∈ l) as Hin.
    { rewrite E. apply elem_of_app. right. apply elem_of_cons. by left. }
    destruct (linked_valid _ _ _ _ Hl Hin) as [hp Hhp].
    eexists _, _, a, _. split; [exact Hrun|].
    split; [by apply lookup_update_slot_eq|]. split; [done|]. left. done.
Qed.

(** ** [MarkHazard] and [GetHazardPtr] *)

Lemma run_hazard_pointers_at {T} r index a (k : nat → prog T) σ :
  hazard_pointers_ r !! Z.to_nat (to_size_t index) = Some a →
  run (hazard_pointers_at r index k) σ = run (k a) σ.
Proof. intros Ha. unfold hazard_pointers_at. by rewrite Ha. Qed.

Lemma TryAcquireHazardPointer_registered fuel index r σ :
  to_size_t index < Z.of_nat (length (hazard_pointers_ r)) →
  run (TryAcquireHazardPointer fuel index r) σ = ([], σ, Returned r).
Proof.
  intros Hi. unfold TryAcquireHazardPointer.
  rewrite (proj2 (Z.leb_le _ _)) by lia. by rewrite (proj2 (Z.ltb_lt _ _)) by lia.
Qed.

Lemma TryAcquireHazardPointer_rejected fuel index r σ :
  Z.of_nat (length (hazard_pointers_ r)) < to_size_t index →
  run (TryAcquireHazardPointer fuel index r) σ = ([], σ, Raised AssertionFailed).
Proof.
  intros Hi. unfold TryAcquireHazardPointer. by rewrite (proj2 (Z.leb_gt _ _)) by lia.
Qed.

(** C6, as stated, fails: with no index in use, the index 1 does not
    exceed the number of indices in use plus one, and [MarkHazard] fails the
    assertion of [TryAcquireHazardPointer] before it touches the registry;
    so does a negative index, which the comparison converts to [size_t]. *)
Lemma MarkHazard_index_past_end :
  let r := Reclaimer_new in
  let σ := HazardPointerList_new in
  1 ≤ Z.of_nat (length (hazard_pointers_ r)) + 1
  ∧ run (MarkHazard 1 1 7 r) σ = ([], σ, Raised AssertionFailed)
  ∧ run (MarkHazard 1 (-1) 7 r) σ = ([], σ, Raised AssertionFailed).
Proof. split; [done|]. split; reflexivity. Qed.

(** With [n] indices in use, [MarkHazard] with an index from 0 to [n]
    passes the assertion, reads [hazard_pointers_] within its bounds and
    stores [ptr] in the slot of that index. *)
Lemma MarkHazard_run_in_range fuel σ r l index ptr :
  linked (hpl_slots σ) (hpl_head σ) l → l ≠ [] → (length l ≤ fuel)%nat →
  Forall (λ a, is_Some (hpl_slots σ !! a)) (hazard_pointers_ r) →
  0 ≤ index ≤ Z.of_nat (length (hazard_pointers_ r)) → int_range index →
  ∃ tr σ' r' a,
    run (MarkHazard fuel index ptr r) σ = (tr ++ [ev_ptr_store a ptr], σ', Returned r')
    ∧ hazard_pointers_ r' !! Z.to_nat index = Some a
    ∧ ptr_at σ' a = ptr
    ∧ (index < Z.of_nat (length (hazard_pointers_ r)) →
       r' = r ∧ tr = [] ∧ σ' = update_slot a (set_ptr ptr) σ)
    ∧ (index = Z.of_nat (length (hazard_pointers_ r)) →
       hazard_pointers_ r' = hazard_pointers_ r ++ [a]).
Proof.
  intros Hl Hne Hfuel Hown Hidx Hint.
  unfold int_range in Hint.
  assert (0 ≤ index < size_t_modulus) as Hsz by (unfold size_t_modulus; lia).
  destruct (decide (index < Z.of_nat (length (hazard_pointers_ r)))) as [Hlt|Hge].
  - destruct (lookup_lt_is_Some_2 (hazard_pointers_ r) (Z.to_nat index)) as [a Ha]; [lia|].
    rewrite Forall_forall in Hown.
    destruct (Hown a) as [hp Hhp]; [by eapply list_elem_of_lookup_2|].
    exists [], (update_slot a (set_ptr ptr) σ), r, a.
    split; [|split; [done|split; [|split; [done|lia]]]].
    + unfold MarkHazard.
      rewrite run_bind, TryAcquireHazardPointer_registered by (rewrite to_size_t_small; lia).
      rewrite (run_hazard_pointers_at r index a) by (by rewrite to_size_t_small).
      cbn [perform bind]. erewrite run_act; [|by eapply exec_ptr_store]. done.
    + by erewrite ptr_at_lookup; [|by apply lookup_update_slot_eq].
  - assert (index = Z.of_nat (length (hazard_pointers_ r))) as Hn by lia.
    destruct (TryAcquireHazardPointer_acquires fuel σ r l index Hl Hne Hfuel)
      as (tr & σ' & a & hp & Hrun & Hhp & _); [by rewrite to_size_t_small|].
    assert ((hazard_pointers_ r ++ [a]) !! Z.to_nat index = Some a) as Ha.
    { rewrite Hn, Nat2Z.id. by rewrite lookup_app_r, Nat.sub_diag. }
    exists tr, (update_slot a (set_ptr ptr) σ'),
      (set_hazard_pointers_ (hazard_pointers_ r ++ [a]) r), a.
    split; [|split; [done|split; [|split; [lia|done]]]].
    + unfold MarkHazard. rewrite run_bind, Hrun.
      rewrite (run_hazard_pointers_at _ index a) by (by rewrite to_size_t_small).
      cbn [perform bind]. erewrite run_act; [|by eapply exec_ptr_store]. done.
    + by erewrite ptr_at_lookup; [|by apply lookup_update_slot_eq].
Qed.

(** On the first use of an index [GetHazardPtr] takes a slot as
    [TryAcquireHazardPointer] does and returns the null pointer, provided
    the slots of the registry whose flag is clear publish nothing. *)
Lemma GetHazardPtr_run_first_use fuel σ r l index :
  linked (hpl_slots σ) (hpl_head σ) l → l ≠ [] → (length l ≤ fuel)%nat →
  Forall (λ a, flag_at σ a = false → ptr_at σ a = nullptr) l →
  index = Z.of_nat (length (hazard_pointers_ r)) → int_range index →
  ∃ tr σ' a,
    let r' := set_hazard_pointers_ (hazard_pointers_ r ++ [a]) r in
    run (TryAcquireHazardPointer fuel index r) σ = (tr, σ', Returned r')
    ∧ flag_at σ' a = true
    ∧ ((a ∈ l ∧ flag_at σ a = false) ∨ a = length (hpl_slots σ))
    ∧ run (GetHazardPtr fuel index r) σ =
        (tr ++ [ev_ptr_load a nullptr], σ', Returned (nullptr, r'))
    ∧ ∀ ptr, run (MarkHazard fuel index ptr r) σ =
        (tr ++ [ev_ptr_store a ptr], update_slot a (set_ptr ptr) σ', Returned r').
Proof.
  intros Hl Hne Hfuel Hidle Hn Hint.
  unfold int_range in Hint.
  assert (0 ≤ index < size_t_modulus) as Hsz by (unfold size_t_modulus; lia).
  destruct (TryAcquireHazardPointer_acquires fuel σ r l index Hl Hne Hfuel)
    as (tr & σ' & a & hp & Hrun & Hhp & Hflag & Hcase); [by rewrite to_size_t_small|].
  assert ((hazard_pointers_ r ++ [a]) !! Z.to_nat index = Some a) as Ha.
  { rewrite Hn, Nat2Z.id. by rewrite lookup_app_r, Nat.sub_diag. }
  assert (hp_ptr hp = nullptr) as Hnull.
  { destruct Hcase as [(Hin & Hclear & ->)|(_ & ? & _)]; [|done].
    rewrite Forall_forall in Hidle. specialize (Hidle a Hin Hclear).
    destruct (linked_valid _ _ _ _ Hl Hin) as [hp0 Hhp0].
    rewrite (lookup_update_slot_eq _ _ _ _ Hhp0) in Hhp. simplify_eq.
    by rewrite (ptr_at_lookup _ _ _ Hhp0) in Hidle. }
  exists tr, σ', a. simpl. split; [done|].
  split; [by rewrite (flag_at_lookup _ _ _ Hhp)|].
  split; [by destruct Hcase as [(? & ? & _)|(? & _ & _ & _)]; [left|right]|].
  split.
  - unfold GetHazardPtr. rewrite run_bind, Hrun.
    rewrite (run_hazard_pointers_at _ index a) by (by rewrite to_size_t_small).
    cbn [perform bind]. erewrite run_act; [|by eapply exec_ptr_load]. by rewrite Hnull.
  - intros ptr. unfold MarkHazard. rewrite run_bind, Hrun.
    rewrite (run_hazard_pointers_at _ index a) by (by rewrite to_size_t_small).
    cbn [perform bind]. erewrite run_act; [|by eapply exec_ptr_store]. done.
Qed.

(** ** [ReclaimNoHazardPointer] *)

Lemma published_cons σ a l :
  published σ (a :: l) =
  (if decide (nullptr ≠ ptr_at σ a) then {[ptr_at σ a]} else ∅) ∪ published σ l.
Proof.
  unfold published. rewrite fmap_cons, filter_cons.
  destruct (decide (nullptr ≠ ptr_at σ a)); [done|]. set_solver.
Qed.

Lemma elem_of_published σ l v : v ∈ published σ l ↔ v ≠ nullptr ∧ publishes σ l v.
Proof.
  unfold published, publishes. rewrite elem_of_list_to_set, list_elem_of_filter, list_elem_of_fmap.
  naive_solver.
Qed.

Lemma collect_run l : ∀ fuel p σ set,
  linked (hpl_slots σ) p l → l ≠ [] → (length l ≤ fuel)%nat →
  run (ReclaimNoHazardPointer_collect fuel p set) σ =
    (walk_trace σ l, σ, Returned (published σ l ∪ set)).
Proof.
  induction l as [|a l IH]; intros fuel p σ set Hl Hne Hfuel; [done|].
  destruct fuel as [|fuel]; [simpl in Hfuel; lia|].
  inversion Hl as [|? hp ? Hhp Hnext]; subst.
  cbn [ReclaimNoHazardPointer_collect deref perform bind].
  erewrite run_act; [|by apply exec_ptr_load].
  erewrite run_act; [|by apply exec_next_load].
  cbn [walk_trace mbind list_bind].
  rewrite (next_at_lookup _ _ _ Hhp), (ptr_at_lookup _ _ _ Hhp), published_cons.
  rewrite (ptr_at_lookup _ _ _ Hhp).
  destruct l as [|c l].
  - inversion Hnext as [E|]. simpl. do 2 f_equal.
    unfold published. simpl. destruct (decide (nullptr ≠ hp_ptr hp)); set_solver.
  - destruct (linked_some _ _ _ Hnext) as [d Hd]; [done|].
    rewrite Hd in *. cbn [bind].
    rewrite (IH fuel (Some d) σ); [|done..|simpl in *; lia].
    simpl. do 2 f_equal. destruct (decide (nullptr ≠ hp_ptr hp)); set_solver.
Qed.

Lemma sweep_run entries : ∀ keep r σ,
  Forall (λ kv : N * ReclaimNode, is_Some (node_delete_func kv.2)) entries →
  run (ReclaimNoHazardPointer_sweep entries keep r) σ =
    (omap destroyer_call (reclaimed keep entries), σ,
     Returned {| hazard_pointers_ := hazard_pointers_ r;
                 reclaim_map_ := erase_all (reclaimed keep entries) (reclaim_map_ r);
                 reclaim_pool_ := reverse (reclaimed keep entries).*2 ++ reclaim_pool_ r |}).
Proof.
  induction entries as [|[k node] entries IH]; intros keep r σ Hf.
  - by destruct r.
  - apply Forall_cons in Hf as [[f Hnode] Hf]. simpl in Hnode.
    unfold reclaimed. rewrite filter_cons. cbn [ReclaimNoHazardPointer_sweep].
    destruct (decide (k ∈ keep)) as [Hin|Hout].
    + rewrite decide_False by (simpl; tauto). by apply IH.
    + rewrite decide_True by done.
      rewrite Hnode. cbn [invoke perform bind]. erewrite run_act; [|done].
      rewrite IH by done. simpl. unfold destroyer_call at 2. simpl. rewrite Hnode. simpl.
      rewrite reverse_cons, <- app_assoc. done.
Qed.

Lemma lookup_erase_all entries : ∀ (m : gmap N ReclaimNode) k,
  erase_all entries m !! k = if decide (k ∈ entries.*1) then None else m !! k.
Proof.
  induction entries as [|[k' node] entries IH]; intros m k.
  - case_decide as H; [by apply elem_of_nil in H|done].
  - unfold erase_all in *. cbn [foldl]. rewrite IH, fmap_cons. cbn [fst].
    destruct (decide (k ∈ entries.*1)) as [Hin|Hout].
    + rewrite decide_True; [done|]. by apply elem_of_cons; right.
    + destruct (decide (k = k')) as [->|Hne].
      * rewrite decide_True by (apply elem_of_cons; by left). by rewrite lookup_delete_eq.
      * rewrite decide_False by (intros [?|?]%elem_of_cons; done).
        by rewrite lookup_delete_ne.
Qed.

Lemma elem_of_reclaimed keep (m : gmap N ReclaimNode) k node :
  (k, node) ∈ reclaimed keep (map_to_list m) ↔ m !! k = Some node ∧ k ∉ keep.
Proof.
  unfold reclaimed. rewrite list_elem_of_filter, elem_of_map_to_list. simpl. tauto.
Qed.

Lemma elem_of_reclaimed_keys keep (m : gmap N ReclaimNode) k :
  k ∈ (reclaimed keep (map_to_list m)).*1 ↔ is_Some (m !! k) ∧ k ∉ keep.
Proof.
  rewrite list_elem_of_fmap. split.
  - intros ([k' node] & -> & H). apply elem_of_reclaimed in H as [H ?]. simpl. eauto.
  - intros [[node H] ?]. exists (k, node). split; [done|]. by apply elem_of_reclaimed.
Qed.

Lemma run_ReclaimNoHazardPointer_below fuel r σ :
  Z.of_nat (size (reclaim_map_ r)) < to_size_t (kCoefficient * get_size σ) →
  run (ReclaimNoHazardPointer fuel r) σ = ([ev_size_load (hpl_size σ)], σ, Returned r).
Proof.
  intros H. unfold ReclaimNoHazardPointer. cbn [perform bind].
  erewrite run_act; [|done]. unfold get_size in H.
  by rewrite (proj2 (Z.ltb_lt _ _)) by done.
Qed.

Lemma run_ReclaimNoHazardPointer_reached fuel r σ l :
  linked (hpl_slots σ) (hpl_head σ) l → l ≠ [] → (length l ≤ fuel)%nat →
  map_Forall (λ _ node, is_Some (node_delete_func node)) (reclaim_map_ r) →
  to_size_t (kCoefficient * get_size σ) ≤ Z.of_nat (size (reclaim_map_ r)) →
  let entries := reclaimed (published σ l) (map_to_list (reclaim_map_ r)) in
  run (ReclaimNoHazardPointer fuel r) σ =
    (ev_size_load (hpl_size σ) :: ev_head_load (hpl_head σ) ::
       walk_trace σ l ++ omap destroyer_call entries,
     σ,
     Returned {| hazard_pointers_ := hazard_pointers_ r;
                 reclaim_map_ := erase_all entries (reclaim_map_ r);
                 reclaim_pool_ := reverse entries.*2 ++ reclaim_pool_ r |}).
Proof.
  intros Hl Hne Hfuel Hf Hth entries. unfold ReclaimNoHazardPointer. cbn [perform bind].
  erewrite run_act; [|done]. unfold get_size in Hth.
  rewrite (proj2 (Z.ltb_ge _ _)) by done.
  erewrite run_act; [|done].
  rewrite run_bind, (collect_run l) by done.
  rewrite sweep_run.
  - subst entries. by rewrite (right_id_L ∅ (∪)).
  - apply Forall_forall. intros [k node] Hin%elem_of_map_to_list. by eapply Hf.
Qed.

(** C1: when the threshold is met, [ReclaimNoHazardPointer] first reads the
    pointer of every slot linked from the head and so builds the set of the
    non-null pointers they publish; then every entry whose address is not in
    the set has its destroyer called on the address, its node pushed on the
    pool and is erased, and every entry whose address is in the set stays as
    it is, its destroyer not called. *)
Theorem ReclaimNoHazardPointer_scan_and_reclaim fuel σ r l :
  linked (hpl_slots σ) (hpl_head σ) l → l ≠ [] → (length l ≤ fuel)%nat →
  map_Forall (λ k node, node_ptr node = k ∧ is_Some (node_delete_func node))
    (reclaim_map_ r) →
  to_size_t (kCoefficient * get_size σ) ≤ Z.of_nat (size (reclaim_map_ r)) →
  let observed := published σ l in
  (∀ v, v ∈ observed ↔ v ≠ nullptr ∧ publishes σ l v)
  ∧ run (ReclaimNoHazardPointer_collect fuel (hpl_head σ) ∅) σ =
      (walk_trace σ l, σ, Returned observed)
  ∧ ∃ r' destroyed,
      run (ReclaimNoHazardPointer fuel r) σ =
        (ev_size_load (hpl_size σ) :: ev_head_load (hpl_head σ) ::
           walk_trace σ l ++ ((λ c, ev_call c.1 c.2) <$> destroyed),
         σ, Returned r')
      ∧ hazard_pointers_ r' = hazard_pointers_ r
      ∧ (∀ k node, reclaim_map_ r !! k = Some node → k ∉ observed →
           (∃ f, node_delete_func node = Some f ∧ (f, k) ∈ destroyed)
           ∧ node ∈ reclaim_pool_ r' ∧ reclaim_map_ r' !! k = None)
      ∧ (∀ k node, reclaim_map_ r !! k = Some node → k ∈ observed →
           reclaim_map_ r' !! k = Some node ∧ ∀ f, (f, k) ∉ destroyed)
      ∧ (∀ f k, (f, k) ∈ destroyed →
           ∃ node, reclaim_map_ r !! k = Some node ∧ node_delete_func node = Some f)
      ∧ (∀ k, reclaim_map_ r !! k = None → reclaim_map_ r' !! k = None)
      ∧ reclaim_pool_ r' ≡ₚ
          (reclaimed observed (map_to_list (reclaim_map_ r))).*2 ++ reclaim_pool_ r.
Proof.
  intros Hl Hne Hfuel Hmap Hth observed.
  split; [intros v; apply elem_of_published|].
  split; [by rewrite (collect_run l), (right_id_L ∅ (∪))|].
  set (entries := reclaimed observed (map_to_list (reclaim_map_ r))).
  assert (∀ k node, (k, node) ∈ entries → node_ptr node = k ∧ is_Some (node_delete_func node))
    as Hentries.
  { intros k node [Hk _]%elem_of_reclaimed. by apply (Hmap k node). }
  assert (omap destroyer_call entries =
          (λ c, ev_call c.1 c.2) <$> omap (λ kv, f ← node_delete_func kv.2; Some (f, kv.1)) entries)
    as Hcalls.
  { clearbody entries. induction entries as [|[k node] entries IH]; [done|].
    destruct (Hentries k node) as [Hp [f Hnode]]; [by left|].
    simpl. unfold destroyer_call at 1. simpl. rewrite Hnode. simpl. rewrite Hp.
    f_equal. apply IH. intros ???. apply Hentries. by right. }
  eexists _, _. split.
  { rewrite (run_ReclaimNoHazardPointer_reached fuel r σ l); [|done|done|done| |done].
    - fold observed. fold entries. by rewrite Hcalls.
    - intros k node Hk. by apply (Hmap k node). }
  simpl. split; [done|].
  assert (∀ f k, (f, k) ∈ omap (λ kv, f ← node_delete_func kv.2; Some (f, kv.1)) entries
                 ↔ ∃ node, (k, node) ∈ entries ∧ node_delete_func node = Some f) as Hin.
  { intros f k. rewrite list_elem_of_omap. split.
    - intros ([k' node] & Hkv & Hsome). simpl in Hsome.
      destruct (node_delete_func node) eqn:E; simplify_eq/=. eauto.
    - intros (node & Hkv & Hnode). exists (k, node). split; [done|]. simpl. by rewrite Hnode. }
  split; [|split; [|split; [|split]]].
  - intros k node Hk Hout.
    assert ((k, node) ∈ entries) as Hkv by by apply elem_of_reclaimed.
    destruct (Hentries k node Hkv) as [_ [f Hnode]].
    split; [exists f; split; [done|]; apply Hin; eauto|].
    split.
    + apply elem_of_app. left. rewrite elem_of_reverse, list_elem_of_fmap. by exists (k, node).
    + rewrite lookup_erase_all, decide_True; [done|]. apply elem_of_reclaimed_keys. eauto.
  - intros k node Hk Hobs. split.
    + rewrite lookup_erase_all, decide_False; [done|].
      intros [_ ?]%elem_of_reclaimed_keys. done.
    + intros f (node' & [_ ?]%elem_of_reclaimed & _)%Hin. done.
  - intros f k (node & [Hk _]%elem_of_reclaimed & Hnode)%Hin. eauto.
  - intros k Hk. rewrite lookup_erase_all. by destruct (decide _).
  - by rewrite reverse_Permutation.
Qed.

(** C2, on the code: with a count of 4 and 16 pending entries, fewer than
    4.25 times the count, [ReclaimNoHazardPointer] does not return at once:
    it reads the five slots and calls the sixteen destroyers.  The
    coefficient [4 + 1 / 4] is 4. *)
Theorem ReclaimNoHazardPointer_scans_at_four_times :
  kCoefficient = 4
  ∧ ∃ r σ, after sixteen_pending HazardPointerList_new = Some (r, σ)
      ∧ get_size σ = 4 ∧ size (reclaim_map_ r) = 16%nat
      ∧ 4 * Z.of_nat (size (reclaim_map_ r)) < 17 * get_size σ
      ∧ ∃ tr r', run (ReclaimNoHazardPointer 5 r) σ = (tr, σ, Returned r')
          ∧ loads tr = [(4%nat, 104%N); (3%nat, 103%N); (2%nat, 102%N); (1%nat, 101%N);
                          (0%nat, 100%N)]
          ∧ length (calls tr) = 16%nat
          ∧ reclaim_map_ r' = ∅.
Proof.
  split; [done|].
  eexists _, _. split; [vm_compute; reflexivity|].
  split; [done|]. split; [by vm_compute|]. split; [by vm_compute|].
  eexists _, _. split; [vm_compute; reflexivity|].
  split; [by vm_compute|]. split; by vm_compute.
Qed.

(** ** [ReclaimPool] *)

Lemma pool_apply_nonempty pool o :
  pool ≠ [] → ∃ pool', pool_apply pool o = Some pool' ∧ pool' ≠ [].
Proof.
  intros Hne. destruct o as [node|]; simpl.
  - by eexists.
  - destruct pool as [|n [|n' pool]]; [done|by eexists..].
Qed.

(** C9: the pool is built with one node, [Push] adds a node, [Pop] on a
    pool of one node returns a fresh node and keeps the pool, and after any
    sequence of [Push] and [Pop] the pool holds a node: its head is not
    null. *)
Theorem ReclaimPool_never_empty :
  length ReclaimPool.new = 1%nat
  ∧ (∀ node pool, length (ReclaimPool.Push node pool) = S (length pool))
  ∧ (∀ node, ReclaimPool.Pop [node] = Some (ReclaimNode_new, [node]))
  ∧ ∀ ops, ∃ pool, pool_run ops ReclaimPool.new = Some pool ∧ pool ≠ [].
Proof.
  split; [done|]. split; [done|]. split; [done|].
  intros ops. assert (ReclaimPool.new ≠ []) as Hne by done.
  revert Hne. generalize ReclaimPool.new. induction ops as [|o ops IH]; intros pool Hne.
  - by exists pool.
  - destruct (pool_apply_nonempty pool o Hne) as (pool' & Hp & Hne').
    simpl. rewrite Hp. simpl. by apply IH.
Qed.

(** ** [~Reclaimer] *)

Lemma first_split {A} (P : A → Prop) `{∀ x, Decision (P x)} (l : list A) :
  Forall (λ x, ¬ P x) l
  ∨ ∃ l1 x l2, l = l1 ++ x :: l2 ∧ Forall (λ x, ¬ P x) l1 ∧ P x.
Proof.
  induction l as [|y l [IH|(l1 & x & l2 & -> & Hl1 & Hx)]].
  - by left.
  - destruct (decide (P y)) as [Hy|Hy].
    + right. by exists [], y, l.
    + left. by constructor.
  - destruct (decide (P y)) as [Hy|Hy].
    + right. by exists [], y, (l1 ++ x :: l2).
    + right. exists (y :: l1), x, l2. split; [done|]. split; [by constructor|done].
Qed.

Lemma ptr_at_set_flag σ a b x : ptr_at (update_slot a (set_flag b) σ) x = ptr_at σ x.
Proof.
  unfold ptr_at. simpl. destruct (decide (x = a)) as [->|Hne].
  - rewrite list_lookup_alter_eq. by destruct (hpl_slots σ !! a).
  - by rewrite list_lookup_alter_ne.
Qed.

Lemma next_at_set_flag σ a b x : next_at (update_slot a (set_flag b) σ) x = next_at σ x.
Proof.
  unfold next_at. simpl. destruct (decide (x = a)) as [->|Hne].
  - rewrite list_lookup_alter_eq. by destruct (hpl_slots σ !! a).
  - by rewrite list_lookup_alter_ne.
Qed.

Lemma valid_update_slot σ a f x :
  is_Some (hpl_slots (update_slot a f σ) !! x) ↔ is_Some (hpl_slots σ !! x).
Proof. simpl. by rewrite !lookup_lt_is_Some, length_alter. Qed.

Lemma ptr_at_clear_flags hps : ∀ σ x, ptr_at (clear_flags hps σ) x = ptr_at σ x.
Proof.
  induction hps as [|a hps IH]; intros σ x; [done|].
  unfold clear_flags in *. simpl. by rewrite IH, ptr_at_set_flag.
Qed.

Lemma head_clear_flags hps : ∀ σ, hpl_head (clear_flags hps σ) = hpl_head σ.
Proof.
  induction hps as [|a hps IH]; intros σ; [done|].
  unfold clear_flags in *. simpl. by rewrite IH.
Qed.

Lemma length_clear_flags hps : ∀ σ,
  length (hpl_slots (clear_flags hps σ)) = length (hpl_slots σ).
Proof.
  induction hps as [|a hps IH]; intros σ; [done|].
  unfold clear_flags in *. simpl. rewrite IH. simpl. by rewrite length_alter.
Qed.

Lemma linked_clear_flags hps : ∀ σ p l,
  linked (hpl_slots σ) p l → linked (hpl_slots (clear_flags hps σ)) p l.
Proof.
  induction hps as [|a hps IH]; intros σ p l Hl; [done|].
  unfold clear_flags in *. simpl. apply IH. simpl. by apply linked_alter.
Qed.

Lemma clear_flags_snoc hps b σ :
  clear_flags (hps ++ [b]) σ = update_slot b (set_flag false) (clear_flags hps σ).
Proof. unfold clear_flags. by rewrite foldl_app. Qed.


Lemma handover_run hps : ∀ σ,
  Forall (λ a, is_Some (hpl_slots σ !! a) ∧ ptr_at σ a = nullptr) hps →
  run (Reclaimer_destroy_handover hps) σ =
    (handover_trace hps, clear_flags hps σ, Returned ()).
Proof.
  induction hps as [|a hps IH]; intros σ Hok; [done|].
  apply Forall_cons in Hok as [[[hp Hhp] Hnull] Hok].
  rewrite (ptr_at_lookup _ _ _ Hhp) in Hnull.
  cbn [Reclaimer_destroy_handover perform bind].
  erewrite run_act; [|by apply exec_ptr_load].
  rewrite Hnull, decide_True by done. cbn [bind].
  erewrite run_act; [|by eapply exec_flag_clear].
  rewrite IH; [done|].
  eapply Forall_impl; [exact Hok|]. intros x [? ?].
  by rewrite valid_update_slot, ptr_at_set_flag.
Qed.

Lemma handover_run_fail ok : ∀ σ a rest,
  Forall (λ a, is_Some (hpl_slots σ !! a) ∧ ptr_at σ a = nullptr) ok →
  is_Some (hpl_slots σ !! a) → ptr_at σ a ≠ nullptr →
  run (Reclaimer_destroy_handover (ok ++ a :: rest)) σ =
    (handover_trace ok ++ [ev_ptr_load a (ptr_at σ a)], clear_flags ok σ,
     Raised AssertionFailed).
Proof.
  induction ok as [|b ok IH]; intros σ a rest Hok [hp Hhp] Hptr.
  - rewrite (ptr_at_lookup _ _ _ Hhp) in *.
    cbn [app Reclaimer_destroy_handover perform bind].
    erewrite run_act; [|by apply exec_ptr_load].
    by rewrite decide_False by done.
  - apply Forall_cons in Hok as [[[hpb Hhpb] Hnull] Hok].
    rewrite (ptr_at_lookup _ _ _ Hhpb) in Hnull.
    cbn [app Reclaimer_destroy_handover perform bind].
    erewrite run_act; [|by apply exec_ptr_load].
    rewrite Hnull, decide_True by done. cbn [bind].
    erewrite run_act; [|by eapply exec_flag_clear].
    rewrite (IH _ a rest).
    + by rewrite ptr_at_set_flag.
    + eapply Forall_impl; [exact Hok|]. intros x [? ?].
      by rewrite valid_update_slot, ptr_at_set_flag.
    + rewrite valid_update_slot. eauto.
    + by rewrite ptr_at_set_flag.
Qed.

Lemma publishes_elem_of σ l v : publishes σ l v ↔ v ∈ ptr_at σ <$> l.
Proof. unfold publishes. rewrite list_elem_of_fmap. naive_solver. Qed.

Lemma publishes_cons σ a l v :
  publishes σ (a :: l) v ↔ ptr_at σ a = v ∨ publishes σ l v.
Proof. rewrite !publishes_elem_of, fmap_cons, elem_of_cons. naive_solver. Qed.

Lemma Hazard_loop_run l : ∀ fuel p σ key,
  linked (hpl_slots σ) p l → l ≠ [] → (length l ≤ fuel)%nat →
  run (Hazard_loop fuel p key) σ =
    (hazard_trace σ l key, σ, Returned (bool_decide (publishes σ l key))).
Proof.
  induction l as [|a l IH]; intros fuel p σ key Hl Hne Hfuel; [done|].
  destruct fuel as [|fuel]; [simpl in Hfuel; lia|].
  inversion Hl as [|? hp ? Hhp Hnext]; subst.
  cbn [Hazard_loop deref perform bind hazard_trace].
  erewrite run_act; [|by apply exec_ptr_load].
  rewrite (ptr_at_lookup _ _ _ Hhp), (next_at_lookup _ _ _ Hhp).
  destruct (decide (hp_ptr hp = key)) as [Heq|Hneq].
  - rewrite decide_True by done. simpl. rewrite bool_decide_eq_true_2; [done|].
    apply publishes_cons. left. by rewrite (ptr_at_lookup _ _ _ Hhp).
  - rewrite decide_False by done. erewrite run_act; [|by apply exec_next_load].
    assert (publishes σ (a :: l) key ↔ publishes σ l key) as Hpub.
    { rewrite publishes_cons, (ptr_at_lookup _ _ _ Hhp). tauto. }
    rewrite (bool_decide_ext _ _ Hpub).
    destruct l as [|c l].
    + inversion Hnext as [E|]. rewrite bool_decide_eq_false_2; [done|].
      intros (x & Hx & _). by apply elem_of_nil in Hx.
    + destruct (linked_some _ _ _ Hnext) as [d Hd]; [done|].
      rewrite Hd in *. cbn [bind].
      by rewrite (IH fuel (Some d) σ); [|done..|simpl in *; lia].
Qed.

Lemma Hazard_run fuel σ l key :
  linked (hpl_slots σ) (hpl_head σ) l → l ≠ [] → (length l ≤ fuel)%nat →
  run (Hazard fuel key) σ =
    (ev_head_load (hpl_head σ) :: hazard_trace σ l key, σ,
     Returned (bool_decide (publishes σ l key))).
Proof.
  intros Hl Hne Hfuel. unfold Hazard. cbn [perform bind].
  erewrite run_act; [|done]. by rewrite (Hazard_loop_run l).
Qed.

Lemma wait_run_clear fuel spins σ l key :
  linked (hpl_slots σ) (hpl_head σ) l → l ≠ [] → (length l ≤ fuel)%nat →
  ¬ publishes σ l key → (0 < spins)%nat →
  run (Reclaimer_destroy_wait fuel spins key) σ =
    (ev_head_load (hpl_head σ) :: hazard_trace σ l key, σ, Returned ()).
Proof.
  intros Hl Hne Hfuel Hpub Hspins. destruct spins as [|spins]; [lia|].
  cbn [Reclaimer_destroy_wait]. rewrite run_bind, (Hazard_run fuel σ l) by done.
  rewrite bool_decide_eq_false_2 by done. simpl. by rewrite app_nil_r.
Qed.

Lemma wait_run_spin fuel σ l key : ∀ spins,
  linked (hpl_slots σ) (hpl_head σ) l → l ≠ [] → (length l ≤ fuel)%nat →
  publishes σ l key →
  run (Reclaimer_destroy_wait fuel spins key) σ =
    (mjoin (replicate spins (ev_head_load (hpl_head σ) :: hazard_trace σ l key ++ [ev_yield])),
     σ, Raised OutOfFuel).
Proof.
  intros spins Hl Hne Hfuel Hpub. induction spins as [|spins IH]; [done|].
  cbn [Reclaimer_destroy_wait]. rewrite run_bind, (Hazard_run fuel σ l) by done.
  rewrite bool_decide_eq_true_2 by done. cbn [perform bind].
  erewrite run_act; [|done]. rewrite IH. simpl. by rewrite <- app_assoc.
Qed.



Lemma calls_app tr1 tr2 : calls (tr1 ++ tr2) = calls tr1 ++ calls tr2.
Proof. apply omap_app. Qed.

Lemma calls_hazard_trace σ l key : calls (hazard_trace σ l key) = [].
Proof.
  induction l as [|a l IH]; [done|]. simpl. destruct (decide _); [done|]. simpl. apply IH.
Qed.

Lemma calls_spin_trace σ l key spins : calls (spin_trace σ l key spins) = [].
Proof.
  unfold spin_trace. induction spins as [|spins IH]; [done|].
  simpl. unfold calls in *. rewrite !omap_app, IH. simpl.
  fold (calls (hazard_trace σ l key)). by rewrite calls_hazard_trace.
Qed.







Lemma publishes_ext σ σ' l v :
  (∀ x, ptr_at σ' x = ptr_at σ x) → publishes σ' l v ↔ publishes σ l v.
Proof. intros H. unfold publishes. by setoid_rewrite H. Qed.


(** ** Monitors *)

Section MonitorFacts.
Context {S : Type} (monitor : S → event → option S).

Lemma monitor_all_app s tr1 tr2 :
  monitor_all monitor s (tr1 ++ tr2) =
  monitor_all monitor s tr1 ≫= λ s', monitor_all monitor s' tr2.
Proof.
  revert s. induction tr1 as [|e tr1 IH]; intros s; [done|].
  simpl. destruct (monitor s e) as [s'|]; [|done]. simpl. apply IH.
Qed.

Lemma wp_bind {A B} (m : prog A) (f : A → prog B) s (Φ : B → S → Prop) :
  wp monitor m s (λ x s', wp monitor (f x) s' Φ) → wp monitor (bind m f) s Φ.
Proof.
  revert s. induction m as [x|e|a k IH]; intros s; simpl; [done|done|].
  intros H x. destruct (H x) as (s' & Hs' & Hk). eauto.
Qed.

Lemma wp_deref {T} p (k : nat → prog T) s (Φ : T → S → Prop) :
  (∀ a, p = Some a → wp monitor (k a) s Φ) → wp monitor (deref p k) s Φ.
Proof. destruct p; simpl; eauto. Qed.

(** A thread running alone is one of the cases [wp] covers. *)
Lemma wp_run {T} (m : prog T) s (Φ : T → S → Prop) σ tr σ' o :
  wp monitor m s Φ → run m σ = (tr, σ', o) →
  ∃ s', monitor_all monitor s tr = Some s' ∧ ∀ x, o = Returned x → Φ x s'.
Proof.
  revert s σ tr. induction m as [x|e|a k IH]; intros s σ tr Hwp Hrun; simpl in *.
  - simplify_eq. exists s. split; [done|]. by intros ? [= <-].
  - simplify_eq. by exists s.
  - destruct (exec a σ) as [[x σ1]|]; [|simplify_eq; by exists s].
    destruct (run (k x) σ1) as [[tr1 σ2] o1] eqn:Hk. simplify_eq.
    destruct (Hwp x) as (s1 & Hs1 & Hwp1).
    destruct (IH x s1 σ1 tr1 Hwp1 Hk) as (s' & Hs' & HΦ).
    exists s'. simpl. rewrite Hs1. done.
Qed.
End MonitorFacts.

(** ** The count and the number of slots *)

Ltac wp_step :=
  try unfold perform at 1;
  lazymatch goal with
  | |- wp _ (Act _ _) _ _ =>
      let x := fresh "x" in intros x; eexists; split; [reflexivity|]; cbn [bind perform]
  | |- wp _ (deref _ _) _ _ =>
      let a := fresh "a" in apply wp_deref; intros a ->; cbn [bind perform]
  | |- wp _ (Ret _) _ _ => cbn [wp]
  | |- wp _ (Throw _) _ _ => exact I
  end.

Section Balance.
Implicit Types (n : Z).












End Balance.

Lemma to_size_t_range z : 0 ≤ to_size_t z < size_t_modulus.
Proof. unfold to_size_t. apply Z.mod_pos_bound. by unfold size_t_modulus. Qed.






Lemma handle_run fuel t c w w' :
  handle fuel t c w = Some w' →
  ∃ tr r, run (serve fuel c (GetInstance t w)) (world_list w) = (tr, world_list w', Returned r)
          ∧ world_reclaimers w' = <[t := r]> (world_reclaimers w).
Proof.
  unfold handle. destruct (run _ _) as [[tr σ'] [r|e]]; [|done].
  intros [= <-]. by exists tr, r.
Qed.



(** C7, on the code: the registry is constructed with one slot and a count
    of zero, and a thread that publishes through two indices leaves two
    slots and a count of one. *)
Theorem HazardPointerList_size_misses_first_slot :
  length (hpl_slots HazardPointerList_new) = 1%nat
  ∧ get_size HazardPointerList_new = 0
  ∧ ∃ r σ,
      after (bind (MarkHazard 2 0 100 Reclaimer_new) (MarkHazard 2 1 101))
        HazardPointerList_new = Some (r, σ)
      ∧ length (hpl_slots σ) = 2%nat ∧ get_size σ = 1.
Proof.
  split; [done|]. split; [done|]. eexists _, _. split; [vm_compute; reflexivity|]. done.
Qed.


(** ** Destroyer calls and the addresses read before them *)

Section Guard.
Implicit Types (s : gset N).







Lemma keys_ok_delete r k hps pool :
  keys_ok r →
  keys_ok {| hazard_pointers_ := hps; reclaim_map_ := delete k (reclaim_map_ r);
             reclaim_pool_ := pool |}.
Proof. unfold keys_ok. simpl. apply map_Forall_delete. Qed.






Lemma keys_ok_entries r :
  keys_ok r →
  Forall (λ kv : N * ReclaimNode, node_ptr kv.2 = kv.1) (map_to_list (reclaim_map_ r)).
Proof.
  intros Hr. apply Forall_forall. intros [k node] Hin%elem_of_map_to_list. by apply (Hr k).
Qed.

Lemma keys_ok_same_map r r' : reclaim_map_ r' = reclaim_map_ r → keys_ok r → keys_ok r'.
Proof. unfold keys_ok. by intros ->. Qed.


End Guard.

(** ** Interleavings *)

Lemma events_of_app t h1 h2 : events_of t (h1 ++ h2) = events_of t h1 ++ events_of t h2.
Proof. apply omap_app. Qed.






(** The retry of the compare-exchange: threads 1 and 2 both find the only
    slot owned and create a slot; thread 2 links its slot while thread 1 is
    between its load of the head and its exchange, so the first exchange of
    thread 1 fails and the second links its slot in front of that of
    thread 2. *)
Lemma compare_exchange_retries :
  let w := steps (replicate 3 0 ++ replicate 7 1 ++ replicate 10 2 ++ replicate 5 1)%nat
             (start 3 [[req_GetHazardPtr 0]; [req_GetHazardPtr 0]; [req_GetHazardPtr 0]]) in
  drop 7 (events_of 1 (history w)) =
    [ev_next_store 1 (Some 0); ev_head_compare_exchange (Some 0) (Some 1) false;
     ev_next_store 1 (Some 2); ev_head_compare_exchange (Some 2) (Some 1) true;
     ev_ptr_load 1 0]%nat
  ∧ registry (shared w) = [1; 2; 0]%nat ∧ get_size (shared w) = 2
  ∧ running w = [Ret (); Ret (); Ret ()].
Proof. by vm_compute. Qed.


(** ** The theorems at concrete inputs *)



Lemma ReclaimNoHazardPointer_scan_and_reclaim_witness :
  let σ := list_one 100 in
  let r := reclaimer_with [0%nat] [100; 7]%N in
  linked (hpl_slots σ) (hpl_head σ) [0%nat]
  ∧ map_Forall (λ k node, node_ptr node = k ∧ is_Some (node_delete_func node))
      (reclaim_map_ r)
  ∧ to_size_t (kCoefficient * get_size σ) ≤ Z.of_nat (size (reclaim_map_ r))
  ∧ published σ [0%nat] = {[100%N]}
  ∧ ∃ r' destroyed,
      run (ReclaimNoHazardPointer 1 r) σ =
        ([ev_size_load 0; ev_head_load (Some 0%nat); ev_ptr_load 0 100; ev_next_load 0 None]
           ++ ((λ c, ev_call c.1 c.2) <$> destroyed), σ, Returned r')
      ∧ (1%nat, 7%N) ∈ destroyed ∧ reclaim_map_ r' !! 7%N = None
      ∧ {| node_ptr := 7; node_delete_func := Some 1%nat |} ∈ reclaim_pool_ r'
      ∧ reclaim_map_ r' !! 100%N = reclaim_map_ r !! 100%N
      ∧ (1%nat, 100%N) ∉ destroyed.
Proof.
  intros σ r.
  assert (linked (hpl_slots σ) (hpl_head σ) [0%nat]) as Hl by (repeat econstructor).
  assert (map_Forall (λ k node, node_ptr node = k ∧ is_Some (node_delete_func node))
            (reclaim_map_ r)) as Hmap.
  { apply map_Forall_insert_2; [by split|].
    apply map_Forall_insert_2; [by split|]. apply map_Forall_empty. }
  assert (to_size_t (kCoefficient * get_size σ) ≤ Z.of_nat (size (reclaim_map_ r))) as Hth
    by (vm_compute; discriminate).
  assert (published σ [0%nat] = {[100%N]}) as Hpub by (vm_compute; reflexivity).
  split; [exact Hl|]. split; [exact Hmap|]. split; [exact Hth|]. split; [exact Hpub|].
  destruct (ReclaimNoHazardPointer_scan_and_reclaim 1 σ r [0%nat] Hl
              ltac:(done) ltac:(simpl; lia) Hmap Hth)
    as (_ & _ & r' & destroyed & Hrun & _ & Hout & Hin & _).
  exists r', destroyed. split; [exact Hrun|].
  rewrite Hpub in Hout, Hin.
  destruct (Hout 7%N {| node_ptr := 7; node_delete_func := Some 1%nat |})
    as ((f & Hf & Hcall) & Hpool & Hgone).
  { vm_compute. reflexivity. }
  { intros H%elem_of_singleton. discriminate H. }
  destruct (Hin 100%N {| node_ptr := 100; node_delete_func := Some 1%nat |})
    as (Hkept & Hnot).
  { vm_compute. reflexivity. }
  { by apply elem_of_singleton. }
  injection Hf as <-.
  split; [exact Hcall|]. split; [exact Hgone|]. split; [exact Hpool|].
  split; [rewrite Hkept; vm_compute; reflexivity|exact (Hnot 1%nat)].
Defined.


(** ** More fuel *)

Lemma refines_refl {T} (m : prog T) : refines m m.
Proof. induction m; by constructor. Qed.

Lemma refines_bind {A B} (m m' : prog A) (f f' : A → prog B) :
  refines m m' → (∀ x, refines (f x) (f' x)) → refines (bind m f) (bind m' f').
Proof.
  intros Hm Hf. induction Hm as [m'|x|e|a k k' _ IH]; simpl; [constructor|done|constructor|].
  constructor. intros x. apply IH.
Qed.

(** A run that ends otherwise than by lack of fuel is a run of every
    program that refines it. *)
Lemma refines_run {T} (m m' : prog T) : refines m m' → ∀ σ tr σ' o,
  run m σ = (tr, σ', o) → o ≠ Raised OutOfFuel → run m' σ = (tr, σ', o).
Proof.
  induction 1 as [m'|x|e|a k k' _ IH]; intros σ tr σ' o Hrun Ho; simpl in *.
  - by simplify_eq.
  - done.
  - done.
  - destruct (exec a σ) as [[x σ1]|]; [|done].
    destruct (run (k x) σ1) as [[tr1 σ2] o1] eqn:Hk. simplify_eq.
    by rewrite (IH x σ1 tr1 σ' o Hk Ho).
Qed.

Ltac refines_go :=
  repeat first
    [ apply refines_refl
    | lazymatch goal with
      | |- refines (Act _ _) (Act _ _) => constructor; intros ?
      | |- refines (deref ?p _) (deref ?p _) => destruct p; cbn [deref bind perform]
      | |- refines (Ret _) (Ret _) => constructor
      | |- refines (Throw _) _ => constructor
      | |- refines (if ?b then _ else _) (if ?b then _ else _) => destruct b
      | |- refines (match ?x with Some _ => _ | None => _ end)
                   (match ?x with Some _ => _ | None => _ end) => destruct x
      | |- refines (let (_, _) := ?x in _) (let (_, _) := ?x in _) => destruct x
      end ].

Lemma find_refines fuel : ∀ fuel' p, (fuel ≤ fuel')%nat →
  refines (TryAcquireHazardPointer_find fuel p) (TryAcquireHazardPointer_find fuel' p).
Proof.
  induction fuel as [|fuel IH]; intros fuel' p Hle; [constructor|].
  destruct fuel' as [|fuel']; [lia|]. cbn [TryAcquireHazardPointer_find bind perform].
  refines_go. apply IH. lia.
Qed.

Lemma push_refines fuel : ∀ fuel' new_head old_head, (fuel ≤ fuel')%nat →
  refines (TryAcquireHazardPointer_push fuel new_head old_head)
          (TryAcquireHazardPointer_push fuel' new_head old_head).
Proof.
  induction fuel as [|fuel IH]; intros fuel' new_head old_head Hle; [constructor|].
  destruct fuel' as [|fuel']; [lia|]. cbn [TryAcquireHazardPointer_push bind perform].
  refines_go. apply IH. lia.
Qed.

Lemma TryAcquireHazardPointer_refines fuel fuel' index r : (fuel ≤ fuel')%nat →
  refines (TryAcquireHazardPointer fuel index r) (TryAcquireHazardPointer fuel' index r).
Proof.
  intros Hle. unfold TryAcquireHazardPointer. cbn [bind perform]. refines_go.
  apply refines_bind; [by apply find_refines|]. intros found.
  apply refines_bind; [|intros; apply refines_refl].
  destruct found; cbn [bind perform]; refines_go.
  apply refines_bind; [by apply push_refines|]. intros. apply refines_refl.
Qed.

Lemma collect_refines fuel : ∀ fuel' p set, (fuel ≤ fuel')%nat →
  refines (ReclaimNoHazardPointer_collect fuel p set)
          (ReclaimNoHazardPointer_collect fuel' p set).
Proof.
  induction fuel as [|fuel IH]; intros fuel' p set Hle; [constructor|].
  destruct fuel' as [|fuel']; [lia|]. cbn [ReclaimNoHazardPointer_collect bind perform].
  refines_go. apply IH. lia.
Qed.

Lemma Hazard_loop_refines fuel : ∀ fuel' p key, (fuel ≤ fuel')%nat →
  refines (Hazard_loop fuel p key) (Hazard_loop fuel' p key).
Proof.
  induction fuel as [|fuel IH]; intros fuel' p key Hle; [constructor|].
  destruct fuel' as [|fuel']; [lia|]. cbn [Hazard_loop bind perform].
  refines_go. apply IH. lia.
Qed.

Lemma wait_refines fuel fuel' spins : ∀ spins' key,
  (fuel ≤ fuel')%nat → (spins ≤ spins')%nat →
  refines (Reclaimer_destroy_wait fuel spins key) (Reclaimer_destroy_wait fuel' spins' key).
Proof.
  induction spins as [|spins IH]; intros spins' key Hle Hle'; [constructor|].
  destruct spins' as [|spins']; [lia|]. cbn [Reclaimer_destroy_wait]. unfold Hazard.
  cbn [bind perform]. refines_go.
  apply refines_bind; [by apply Hazard_loop_refines|]. intros [].
  - cbn [bind perform]. refines_go. apply IH; lia.
  - constructor.
Qed.

Lemma drain_refines fuel fuel' entries : ∀ r, (fuel ≤ fuel')%nat →
  refines (Reclaimer_destroy_drain fuel entries r) (Reclaimer_destroy_drain fuel' entries r).
Proof.
  induction entries as [|[k node] entries IH]; intros r Hle; [constructor|].
  cbn [Reclaimer_destroy_drain].
  apply refines_bind; [by apply wait_refines|]. intros _.
  apply refines_bind; [apply refines_refl|]. intros _. by apply IH.
Qed.

(** A request that returns with some fuel returns the same with more. *)
Lemma serve_refines fuel fuel' c r : (fuel ≤ fuel')%nat →
  refines (serve fuel c r) (serve fuel' c r).
Proof.
  intros Hle. destruct c as [index ptr|index|ptr func| |]; cbn [serve].
  - unfold MarkHazard. apply refines_bind; [by apply TryAcquireHazardPointer_refines|].
    intros. apply refines_refl.
  - apply refines_bind; [|intros; apply refines_refl]. unfold GetHazardPtr.
    apply refines_bind; [by apply TryAcquireHazardPointer_refines|]. intros. apply refines_refl.
  - apply refines_refl.
  - unfold ReclaimNoHazardPointer. cbn [bind perform]. refines_go.
    apply refines_bind; [by apply collect_refines|]. intros. apply refines_refl.
  - apply refines_bind; [|intros; apply refines_refl]. unfold Reclaimer_destroy.
    apply refines_bind; [apply refines_refl|]. intros. by apply drain_refines.
Qed.

Lemma handle_fuel fuel fuel' t c w w' :
  (fuel ≤ fuel')%nat → handle fuel t c w = Some w' → handle fuel' t c w = Some w'.
Proof.
  intros Hle. unfold handle.
  destruct (run (serve fuel c _) _) as [[tr σ'] [r|e]] eqn:Hrun; [|done].
  by rewrite (refines_run _ _ (serve_refines fuel fuel' c _ Hle) _ _ _ _ Hrun).
Qed.

(** ** Reachable worlds *)

Lemma flag_at_set_ptr σ a v x : flag_at (update_slot a (set_ptr v) σ) x = flag_at σ x.
Proof.
  unfold flag_at. simpl. destruct (decide (x = a)) as [->|Hne].
  - rewrite list_lookup_alter_eq. by destruct (hpl_slots σ !! a).
  - by rewrite list_lookup_alter_ne.
Qed.

Lemma ptr_at_set_ptr_ne σ a v x :
  x ≠ a → ptr_at (update_slot a (set_ptr v) σ) x = ptr_at σ x.
Proof. intros Hne. unfold ptr_at. simpl. by rewrite list_lookup_alter_ne. Qed.

Lemma flag_at_set_flag_ne σ a b x :
  x ≠ a → flag_at (update_slot a (set_flag b) σ) x = flag_at σ x.
Proof. intros Hne. unfold flag_at. simpl. by rewrite list_lookup_alter_ne. Qed.

Lemma flag_at_true_valid σ a : flag_at σ a = true → is_Some (hpl_slots σ !! a).
Proof. unfold flag_at. destruct (hpl_slots σ !! a); [by eexists|done]. Qed.

Lemma flag_at_clear_flags_ne hps : ∀ σ x,
  x ∉ hps → flag_at (clear_flags hps σ) x = flag_at σ x.
Proof.
  induction hps as [|a hps IH] using rev_ind; intros σ x Hx; [done|].
  rewrite clear_flags_snoc, flag_at_set_flag_ne by set_solver. apply IH. set_solver.
Qed.

Lemma acquires_acquired σ σ' l a hp :
  linked (hpl_slots σ) (hpl_head σ) l → l ≠ [] →
  hpl_slots σ' !! a = Some hp → hp_flag hp = true →
  (a ∈ l ∧ flag_at σ a = false ∧ σ' = update_slot a (set_flag true) σ)
  ∨ (a = length (hpl_slots σ) ∧ hp_ptr hp = nullptr
     ∧ Forall (λ b, flag_at σ b = true) l
     ∧ σ' = {| hpl_slots := hpl_slots σ ++
                 [{| hp_flag := true; hp_ptr := nullptr; hp_next := hpl_head σ |}];
               hpl_head := Some a;
               hpl_size := to_size_t (hpl_size σ + 1) |}) →
  acquired σ σ' a.
Proof.
  intros Hl Hne Hhp Hflag [(Hin & Hclear & ->)|(-> & Hnull & Hbusy & ->)].
  - split; [done|]. split; [by rewrite (flag_at_lookup _ _ _ Hhp)|].
    split; [intros x Hx; by apply flag_at_set_flag_ne|].
    split; [intros x; apply ptr_at_set_flag|].
    exists l. split; [|done]. by apply linked_alter.
  - assert (flag_at σ (length (hpl_slots σ)) = false) as Hfresh.
    { unfold flag_at. by rewrite lookup_ge_None_2. }
    split; [done|]. split; [by rewrite (flag_at_lookup _ _ _ Hhp)|].
    split; [|split].
    + intros x Hx. unfold flag_at. simpl.
      destruct (decide (x < length (hpl_slots σ))%nat).
      * by rewrite lookup_app_l.
      * rewrite !lookup_ge_None_2; [done|lia|]. rewrite length_app. simpl. lia.
    + intros x. unfold ptr_at. simpl.
      destruct (decide (x < length (hpl_slots σ))%nat).
      * by rewrite lookup_app_l.
      * destruct (decide (x = length (hpl_slots σ))) as [->|].
        -- by rewrite lookup_fresh, lookup_ge_None_2.
        -- rewrite !lookup_ge_None_2; [done|lia|]. rewrite length_app. simpl. lia.
    + exists (length (hpl_slots σ) :: l). split; [|done]. simpl.
      econstructor; [apply lookup_fresh|]. simpl. by apply linked_app.
Qed.

(** What [world_ok] says of the reclaimer of a thread, created or not. *)
Lemma GetInstance_ok t w :
  world_ok w →
  let r := GetInstance t w in
  (∀ a, a ∈ hazard_pointers_ r → flag_at (world_list w) a = true)
  ∧ (∀ t' r' a, t' ≠ t → world_reclaimers w !! t' = Some r' →
       a ∈ hazard_pointers_ r' → a ∉ hazard_pointers_ r)
  ∧ NoDup (hazard_pointers_ r) ∧ keys_ok r ∧ reclaim_pool_ r ≠ [].
Proof.
  intros Hw r. subst r. unfold GetInstance.
  destruct (world_reclaimers w !! t) as [r|] eqn:Ht; simpl.
  - split; [intros a; by apply (ok_owned w Hw t r)|].
    split; [|split; [by apply (ok_NoDup w Hw t)|split;
                     [by apply (ok_keys w Hw t)|by apply (ok_pool w Hw t)]]].
    intros t' r' a Hne Ht' Ha' Ha. apply Hne. by eapply (ok_exclusive w Hw t' t r' r a).
  - split; [by intros a ?%elem_of_nil|]. split; [by intros ???????%elem_of_nil|].
    split; [constructor|]. split; [apply map_Forall_empty|done].
Qed.

(** The conditions under which the world stays well formed when thread [t]
    changes the registry to [σ'] and its reclaimer to [r']. *)
Lemma world_ok_update w t σ' r' :
  world_ok w →
  (∃ l, linked (hpl_slots σ') (hpl_head σ') l ∧ l ≠ []) →
  (∀ a, flag_at σ' a = false → ptr_at σ' a = nullptr) →
  (∀ a, a ∈ hazard_pointers_ r' → flag_at σ' a = true) →
  (∀ t' r'' a, t' ≠ t → world_reclaimers w !! t' = Some r'' → a ∈ hazard_pointers_ r'' →
     flag_at σ' a = true ∧ a ∉ hazard_pointers_ r') →
  NoDup (hazard_pointers_ r') → keys_ok r' → reclaim_pool_ r' ≠ [] →
  world_ok {| world_list := σ'; world_reclaimers := <[t := r']> (world_reclaimers w) |}.
Proof.
  intros Hw Hl Hidle Hown Hothers Hnd Hkeys Hpool.
  split; simpl; [done|done|..].
  - intros t1 r1 a. destruct (decide (t1 = t)) as [->|Hne].
    + rewrite lookup_insert_eq. intros [= <-]. apply Hown.
    + rewrite lookup_insert_ne by done. intros H1 Ha. by apply (Hothers t1 r1 a).
  - intros t1 t2 r1 r2 a.
    destruct (decide (t1 = t)) as [->|Hne1]; destruct (decide (t2 = t)) as [->|Hne2];
      rewrite ?lookup_insert_eq, ?lookup_insert_ne by done; try done.
    + intros [= <-] H2 Ha1 Ha2. by destruct (Hothers t2 r2 a).
    + intros H1 [= <-] Ha1 Ha2. by destruct (Hothers t1 r1 a).
    + apply (ok_exclusive w Hw).
  - intros t1 r1. destruct (decide (t1 = t)) as [->|Hne].
    + rewrite lookup_insert_eq. by intros [= <-].
    + rewrite lookup_insert_ne by done. apply (ok_NoDup w Hw).
  - intros t1 r1. destruct (decide (t1 = t)) as [->|Hne].
    + rewrite lookup_insert_eq. by intros [= <-].
    + rewrite lookup_insert_ne by done. apply (ok_keys w Hw).
  - intros t1 r1. destruct (decide (t1 = t)) as [->|Hne].
    + rewrite lookup_insert_eq. by intros [= <-].
    + rewrite lookup_insert_ne by done. apply (ok_pool w Hw).
Qed.

Lemma world_ok_store w t a v :
  world_ok w → a ∈ hazard_pointers_ (GetInstance t w) →
  world_ok {| world_list := update_slot a (set_ptr v) (world_list w);
              world_reclaimers := <[t := GetInstance t w]> (world_reclaimers w) |}.
Proof.
  intros Hw Ha. destruct (GetInstance_ok t w Hw) as (Hown & Hothers & Hnd & Hkeys & Hpool).
  apply world_ok_update; try done.
  - destruct (ok_linked w Hw) as (l & Hl & Hne). exists l. split; [|done]. by apply linked_alter.
  - intros x. rewrite flag_at_set_ptr. intros Hx.
    destruct (decide (x = a)) as [->|Hne]; [by rewrite (Hown a Ha) in Hx|].
    rewrite ptr_at_set_ptr_ne by done. by apply (ok_idle w Hw).
  - intros x Hx. rewrite flag_at_set_ptr. by apply Hown.
  - intros t' r'' x Hne Ht' Hx. rewrite flag_at_set_ptr.
    split; [by apply (ok_owned w Hw t' r'')|by eapply Hothers].
Qed.

Lemma world_ok_acquire w t σ' a :
  world_ok w → acquired (world_list w) σ' a →
  world_ok {| world_list := σ';
              world_reclaimers :=
                <[t := set_hazard_pointers_ (hazard_pointers_ (GetInstance t w) ++ [a])
                         (GetInstance t w)]> (world_reclaimers w) |}.
Proof.
  intros Hw (Hfree & Htaken & Hflags & Hptrs & Hl).
  destruct (GetInstance_ok t w Hw) as (Hown & Hothers & Hnd & Hkeys & Hpool).
  assert (∀ x, flag_at (world_list w) x = true → flag_at σ' x = true) as Hkeep.
  { intros x Hx. destruct (decide (x = a)) as [->|Hne]; [done|]. by rewrite Hflags. }
  assert (a ∉ hazard_pointers_ (GetInstance t w)) as Hfresh.
  { intros Ha. by rewrite (Hown a Ha) in Hfree. }
  apply world_ok_update; simpl; try done.
  - intros x Hx. rewrite Hptrs. apply (ok_idle w Hw).
    destruct (decide (x = a)) as [->|Hne]; [done|]. by rewrite <- Hflags.
  - intros x [Hx| ->%list_elem_of_singleton]%elem_of_app; [by apply Hkeep, Hown|done].
  - intros t' r'' x Hne Ht' Hx.
    pose proof (ok_owned w Hw t' r'' x Ht' Hx) as Hfx. split; [by apply Hkeep|].
    intros [Hx'| ->%list_elem_of_singleton]%elem_of_app.
    + by eapply Hothers.
    + by rewrite Hfx in Hfree.
  - apply NoDup_app. split; [done|]. split; [|apply NoDup_singleton].
    intros x Hx ->%list_elem_of_singleton. done.
Qed.

Lemma world_ok_local w t r' :
  world_ok w → local_step (GetInstance t w) r' →
  world_ok {| world_list := world_list w;
              world_reclaimers := <[t := r']> (world_reclaimers w) |}.
Proof.
  intros Hw (Hhps & Hk & Hp).
  destruct (GetInstance_ok t w Hw) as (Hown & Hothers & Hnd & Hkeys & Hpool).
  apply world_ok_update; rewrite ?Hhps; try done; [apply (ok_linked w Hw)|apply (ok_idle w Hw)| |by apply Hk|by apply Hp].
  intros t' r'' x Hne Ht' Hx. split; [by apply (ok_owned w Hw t' r'')|by eapply Hothers].
Qed.

Lemma world_ok_exit w t :
  world_ok w →
  Forall (λ a, ptr_at (world_list w) a = nullptr) (hazard_pointers_ (GetInstance t w)) →
  world_ok {| world_list := clear_flags (hazard_pointers_ (GetInstance t w)) (world_list w);
              world_reclaimers := <[t := Reclaimer_new]> (world_reclaimers w) |}.
Proof.
  intros Hw Hnull.
  destruct (GetInstance_ok t w Hw) as (Hown & Hothers & Hnd & Hkeys & Hpool).
  apply world_ok_update; simpl; try done.
  - destruct (ok_linked w Hw) as (l & Hl & Hne). exists l. split; [|done].
    rewrite head_clear_flags. by apply linked_clear_flags.
  - intros x. rewrite ptr_at_clear_flags.
    destruct (decide (x ∈ hazard_pointers_ (GetInstance t w))) as [Hx|Hx].
    + intros _. rewrite Forall_forall in Hnull. by apply Hnull.
    + rewrite flag_at_clear_flags_ne by done. apply (ok_idle w Hw).
  - by intros x ?%elem_of_nil.
  - intros t' r'' x Hne Ht' Hx. split; [|by intros ?%elem_of_nil].
    rewrite flag_at_clear_flags_ne by by eapply Hothers.
    by apply (ok_owned w Hw t' r'').
  - constructor.
Qed.

Lemma exec_read_only a σ x σ' :
  exec a σ = Some (x, σ') → read_only () (observe a x) = Some () → σ' = σ.
Proof.
  destruct a; simpl; intros H Hr; try done;
    repeat match goal with
           | H : context [hpl_slots σ !! ?p] |- _ => destruct (hpl_slots σ !! p)
           end; by simplify_eq/=.
Qed.

Lemma run_read_only {T} (m : prog T) : ∀ σ tr σ' o,
  run m σ = (tr, σ', o) → is_Some (monitor_all read_only () tr) → σ' = σ.
Proof.
  induction m as [x|e|a k IH]; intros σ tr σ' o Hrun Hmon; simpl in *.
  - by simplify_eq.
  - by simplify_eq.
  - destruct (exec a σ) as [[x σ1]|] eqn:Hexec; [|by simplify_eq].
    destruct (run (k x) σ1) as [[tr1 σ2] o1] eqn:Hk. simplify_eq. simpl in Hmon.
    destruct (read_only () (observe a x)) as [[]|] eqn:Hr; [|by destruct Hmon].
    simpl in Hmon. rewrite <- (exec_read_only _ _ _ _ Hexec Hr). by eapply IH.
Qed.

Lemma local_step_refl r : local_step r r.
Proof. by split. Qed.

Lemma local_step_trans r1 r2 r3 : local_step r1 r2 → local_step r2 r3 → local_step r1 r3.
Proof.
  intros (H1 & K1 & P1) (H2 & K2 & P2). split; [congruence|]. split; auto.
Qed.

Section ReadOnly.
Implicit Types (u : unit).

Lemma collect_reads fuel : ∀ p set (Φ : gset N → unit → Prop),
  (∀ x, Φ x ()) → wp read_only (ReclaimNoHazardPointer_collect fuel p set) () Φ.
Proof.
  induction fuel as [|fuel IH]; intros p set Φ HΦ; [done|].
  cbn [ReclaimNoHazardPointer_collect]. do 3 wp_step.
  destruct x0; [by apply IH|by wp_step].
Qed.

Lemma invoke_reads f arg (Φ : unit → unit → Prop) :
  Φ () () → wp read_only (invoke f arg) () Φ.
Proof. intros HΦ. destruct f; [|done]. cbn [invoke]. wp_step. by destruct x. Qed.

Lemma sweep_reads entries : ∀ set r (Φ : Reclaimer → unit → Prop),
  (∀ r', local_step r r' → Φ r' ()) →
  wp read_only (ReclaimNoHazardPointer_sweep entries set r) () Φ.
Proof.
  induction entries as [|[k node] entries IH]; intros set r Φ HΦ.
  - apply HΦ, local_step_refl.
  - cbn [ReclaimNoHazardPointer_sweep]. destruct (decide _); [by apply IH|].
    apply wp_bind, invoke_reads. apply IH. intros r' Hr'. apply HΦ.
    eapply local_step_trans; [|exact Hr']. split; [done|]. split; [|done].
    intros Hk. by apply keys_ok_delete.
Qed.

Lemma ReclaimNoHazardPointer_reads fuel r :
  wp read_only (ReclaimNoHazardPointer fuel r) () (λ r' _, local_step r r').
Proof.
  unfold ReclaimNoHazardPointer. cbn [bind perform]. wp_step.
  destruct (_ <? _); [wp_step; apply local_step_refl|]. cbn [bind perform]. wp_step.
  apply wp_bind, collect_reads. intros set. by apply sweep_reads.
Qed.

Lemma Hazard_loop_reads fuel : ∀ p key (Φ : bool → unit → Prop),
  (∀ x, Φ x ()) → wp read_only (Hazard_loop fuel p key) () Φ.
Proof.
  induction fuel as [|fuel IH]; intros p key Φ HΦ; [done|].
  cbn [Hazard_loop]. do 2 wp_step. destruct (decide _); [by wp_step|]. wp_step.
  destruct x0; [by apply IH|by wp_step].
Qed.

Lemma wait_reads fuel spins : ∀ key (Φ : unit → unit → Prop),
  Φ () () → wp read_only (Reclaimer_destroy_wait fuel spins key) () Φ.
Proof.
  induction spins as [|spins IH]; intros key Φ HΦ; [done|].
  cbn [Reclaimer_destroy_wait]. apply wp_bind. unfold Hazard. cbn [bind perform]. wp_step.
  apply Hazard_loop_reads. intros [].
  - cbn [bind perform]. wp_step. by apply IH.
  - by wp_step.
Qed.

Lemma drain_reads fuel entries : ∀ r (Φ : Reclaimer → unit → Prop),
  (∀ x, Φ x ()) → wp read_only (Reclaimer_destroy_drain fuel entries r) () Φ.
Proof.
  induction entries as [|[k node] entries IH]; intros r Φ HΦ; [by simpl|].
  cbn [Reclaimer_destroy_drain]. apply wp_bind, wait_reads.
  apply wp_bind, invoke_reads. by apply IH.
Qed.
End ReadOnly.

Lemma run_ReclaimNoHazardPointer_local fuel r σ tr σ' r' :
  run (ReclaimNoHazardPointer fuel r) σ = (tr, σ', Returned r') →
  σ' = σ ∧ local_step r r'.
Proof.
  intros Hrun.
  destruct (wp_run read_only _ () _ _ _ _ _ (ReclaimNoHazardPointer_reads fuel r) Hrun)
    as ([] & Hmon & Hpost).
  split; [|by apply Hpost]. eapply run_read_only; [done|]. by rewrite Hmon.
Qed.

Lemma run_drain_read_only fuel entries r σ tr σ' o :
  run (Reclaimer_destroy_drain fuel entries r) σ = (tr, σ', o) → σ' = σ.
Proof.
  intros Hrun.
  destruct (wp_run read_only _ () (λ _ _, True) _ _ _ _
              (drain_reads fuel entries r _ (λ _, I)) Hrun) as ([] & Hmon & _).
  eapply run_read_only; [done|]. by rewrite Hmon.
Qed.

Lemma run_ReclaimLater_local ptr func r σ tr σ' r' :
  run (ReclaimLater ptr func r) σ = (tr, σ', Returned r') → σ' = σ ∧ local_step r r'.
Proof.
  unfold ReclaimLater.
  destruct (reclaim_pool_ r) as [|n [|n' pool]] eqn:Hpool; simpl; [done|..];
    intros [= <- <- <-]; (split; [done|]); (split; [done|]); simpl; (split; [|done]);
    intros Hk; unfold keys_ok, map_insert_new; simpl;
    (destruct (reclaim_map_ r !! ptr); [done|]); by apply map_Forall_insert_2.
Qed.

Lemma lookup_snoc (l : list nat) a : (l ++ [a]) !! length l = Some a.
Proof. by rewrite lookup_app_r, Nat.sub_diag. Qed.

(** What a returned [TryAcquireHazardPointer] has done, whatever the index. *)
Lemma run_TryAcquireHazardPointer_cases fuel σ r l index tr σ' r' :
  linked (hpl_slots σ) (hpl_head σ) l → l ≠ [] → (length l ≤ fuel)%nat →
  run (TryAcquireHazardPointer fuel index r) σ = (tr, σ', Returned r') →
  (to_size_t index < Z.of_nat (length (hazard_pointers_ r)) ∧ σ' = σ ∧ r' = r)
  ∨ (to_size_t index = Z.of_nat (length (hazard_pointers_ r))
     ∧ ∃ a, r' = set_hazard_pointers_ (hazard_pointers_ r ++ [a]) r
            ∧ acquired σ σ' a ∧ is_Some (hpl_slots σ' !! a)).
Proof.
  intros Hl Hne Hfuel Hrun.
  destruct (Z.lt_trichotomy (to_size_t index) (Z.of_nat (length (hazard_pointers_ r))))
    as [Hlt|[Heq|Hgt]].
  - rewrite TryAcquireHazardPointer_registered in Hrun by done. left. by simplify_eq.
  - destruct (TryAcquireHazardPointer_acquires fuel σ r l index Hl Hne Hfuel Heq)
      as (tr1 & σ1 & a & hp & Hrun1 & Hhp & Hflag & Hcase).
    rewrite Hrun1 in Hrun. simplify_eq. right. split; [done|]. exists a.
    split; [done|]. split; [by eapply acquires_acquired|by eexists].
  - rewrite TryAcquireHazardPointer_rejected in Hrun by done. done.
Qed.

(** Every request keeps the world well formed. *)
Lemma handle_ok fuel t c w w' : world_ok w → handle fuel t c w = Some w' → world_ok w'.
Proof.
  intros Hw Hstep. destruct (ok_linked w Hw) as (l & Hl & Hne).
  apply (handle_fuel fuel (Nat.max fuel (length l))) in Hstep; [|lia].
  assert (length l ≤ Nat.max fuel (length l))%nat as Hfuel by lia.
  revert Hstep Hfuel. generalize (Nat.max fuel (length l)). clear fuel. intros fuel Hstep Hfuel.
  destruct (handle_run _ _ _ _ _ Hstep) as (tr & r' & Hrun & Hrecl).
  destruct w' as [σ' recl']. simpl in *. subst recl'.
  destruct (GetInstance_ok t w Hw) as (Hown & _).
  set (r := GetInstance t w) in *.
  destruct c as [index ptr|index|ptr func| |]; cbn [serve] in Hrun.
  - unfold MarkHazard in Hrun. rewrite run_bind in Hrun.
    destruct (run (TryAcquireHazardPointer fuel index r) (world_list w))
      as [[tr1 σ1] [r1|e]] eqn:Hacq; [|done].
    destruct (run_TryAcquireHazardPointer_cases _ _ _ _ _ _ _ _ Hl Hne Hfuel Hacq)
      as [(Hlt & -> & ->)|(Heq & a & -> & Hacquired & Hvalid)].
    + destruct (lookup_lt_is_Some_2 (hazard_pointers_ r) (Z.to_nat (to_size_t index)))
        as [a Ha]; [pose proof (to_size_t_range index); lia|].
      assert (a ∈ hazard_pointers_ r) as Hin by by eapply list_elem_of_lookup_2.
      destruct (flag_at_true_valid _ _ (Hown a Hin)) as [hp Hhp].
      rewrite (run_hazard_pointers_at r index a) in Hrun by done.
      cbn [bind perform] in Hrun. erewrite run_act in Hrun; [|by eapply exec_ptr_store].
      simpl in Hrun. simplify_eq. by apply world_ok_store.
    + assert ((hazard_pointers_ r ++ [a]) !! Z.to_nat (to_size_t index) = Some a) as Ha.
      { rewrite Heq, Nat2Z.id. apply lookup_snoc. }
      destruct Hvalid as [hp Hhp].
      rewrite (run_hazard_pointers_at _ index a) in Hrun by done.
      cbn [bind perform] in Hrun. erewrite run_act in Hrun; [|by eapply exec_ptr_store].
      simpl in Hrun. simplify_eq.
      pose proof (world_ok_acquire w t σ1 a Hw Hacquired) as Hw1. fold r in Hw1.
      pose proof (world_ok_store _ t a ptr Hw1) as Hw2.
      unfold GetInstance in Hw2. simpl in Hw2. rewrite lookup_insert_eq in Hw2. simpl in Hw2.
      rewrite insert_insert_eq in Hw2. apply Hw2. apply elem_of_app. right. by left.
  - rewrite run_bind in Hrun. unfold GetHazardPtr in Hrun. rewrite run_bind in Hrun.
    destruct (run (TryAcquireHazardPointer fuel index r) (world_list w))
      as [[tr1 σ1] [r1|e]] eqn:Hacq; [|done].
    destruct (run_TryAcquireHazardPointer_cases _ _ _ _ _ _ _ _ Hl Hne Hfuel Hacq)
      as [(Hlt & -> & ->)|(Heq & a & -> & Hacquired & Hvalid)].
    + destruct (lookup_lt_is_Some_2 (hazard_pointers_ r) (Z.to_nat (to_size_t index)))
        as [a Ha]; [pose proof (to_size_t_range index); lia|].
      assert (a ∈ hazard_pointers_ r) as Hin by by eapply list_elem_of_lookup_2.
      destruct (flag_at_true_valid _ _ (Hown a Hin)) as [hp Hhp].
      rewrite (run_hazard_pointers_at r index a) in Hrun by done.
      cbn [bind perform] in Hrun. erewrite run_act in Hrun; [|by eapply exec_ptr_load].
      simpl in Hrun. simplify_eq. apply world_ok_local; [done|apply local_step_refl].
    + assert ((hazard_pointers_ r ++ [a]) !! Z.to_nat (to_size_t index) = Some a) as Ha.
      { rewrite Heq, Nat2Z.id. apply lookup_snoc. }
      destruct Hvalid as [hp Hhp].
      rewrite (run_hazard_pointers_at _ index a) in Hrun by done.
      cbn [bind perform] in Hrun. erewrite run_act in Hrun; [|by eapply exec_ptr_load].
      simpl in Hrun. simplify_eq. by apply world_ok_acquire.
  - destruct (run_ReclaimLater_local _ _ _ _ _ _ _ Hrun) as [-> Hlocal].
    by apply world_ok_local.
  - destruct (run_ReclaimNoHazardPointer_local _ _ _ _ _ _ Hrun) as [-> Hlocal].
    by apply world_ok_local.
  - rewrite run_bind in Hrun. unfold Reclaimer_destroy in Hrun. rewrite run_bind in Hrun.
    assert (Forall (λ a, is_Some (hpl_slots (world_list w) !! a)) (hazard_pointers_ r))
      as Hvalid.
    { apply Forall_forall. intros a Ha. by apply flag_at_true_valid, Hown. }
    destruct (first_split (λ a, ptr_at (world_list w) a ≠ nullptr) (hazard_pointers_ r))
      as [Hnull|(ok & a & rest & E & Hok & Ha)].
    + assert (Forall (λ a, ptr_at (world_list w) a = nullptr) (hazard_pointers_ r)) as Hnull'.
      { eapply Forall_impl; [exact Hnull|]. intros a Ha. simpl in Ha.
        by destruct (decide (ptr_at (world_list w) a = nullptr)). }
      rewrite handover_run in Hrun.
      2:{ apply Forall_forall. intros a Ha. rewrite Forall_forall in Hvalid, Hnull'. eauto. }
      destruct (run (Reclaimer_destroy_drain fuel _ r) _) as [[tr2 σ2] [r2|e]] eqn:Hdrain;
        [|done].
      apply run_drain_read_only in Hdrain. simpl in Hrun. simplify_eq.
      by apply world_ok_exit.
    + rewrite E in Hrun, Hvalid. apply Forall_app in Hvalid as [Hv1 Hv2].
      apply Forall_cons in Hv2 as [Hva _].
      rewrite (handover_run_fail ok _ a rest) in Hrun; [done| |done|done].
      apply Forall_forall. intros b Hb. rewrite Forall_forall in Hv1, Hok.
      split; [by apply Hv1|]. specialize (Hok b Hb). simpl in Hok.
      by destruct (decide (ptr_at (world_list w) b = nullptr)).
Qed.

Lemma World_new_ok : world_ok World_new.
Proof.
  split; simpl; try (intros; by simplify_map_eq).
  - exists [0%nat]. split; [|done]. by repeat econstructor.
  - intros [|a]; [done|]. intros _. unfold ptr_at. simpl. by destruct a.
Qed.

Lemma reachable_ok w : reachable w → world_ok w.
Proof.
  induction 1 as [|fuel t c w w' _ IH Hstep]; [apply World_new_ok|by eapply handle_ok].
Qed.

Lemma reachable_world_after steps : reachable (world_after steps).
Proof.
  unfold world_after. induction steps as [|[t c] steps IH] using rev_ind; [constructor|].
  rewrite foldl_app. simpl.
  destruct (handle 2 t c _) as [w'|] eqn:Hstep; [|done]. simpl. by eapply reachable_handle.
Qed.

(** What the theorems about a single call assume of the registry and of the
    reclaimer holds in every reachable world. *)
Lemma reachable_preconditions w t :
  reachable w →
  let σ := world_list w in
  let r := GetInstance t w in
  linked (hpl_slots σ) (hpl_head σ) (registry σ) ∧ registry σ ≠ []
  ∧ (length (registry σ) ≤ length (hpl_slots σ))%nat
  ∧ Forall (λ a, is_Some (hpl_slots σ !! a)) (hazard_pointers_ r)
  ∧ Forall (λ a, flag_at σ a = false → ptr_at σ a = nullptr) (registry σ)
  ∧ keys_ok r ∧ reclaim_pool_ r ≠ [].
Proof.
  intros Hw%reachable_ok σ r. subst σ r.
  destruct (ok_linked w Hw) as (l & Hl & Hne).
  destruct (GetInstance_ok t w Hw) as (Hown & _ & _ & Hkeys & Hpool).
  rewrite (registry_linked _ _ Hl).
  split; [done|]. split; [done|]. split; [by eapply linked_length|].
  split; [apply Forall_forall; intros a Ha; by apply flag_at_true_valid, Hown|].
  split; [|done]. apply Forall_forall. intros a _. apply (ok_idle w Hw).
Qed.

(** C6, as the code has it: in every reachable world, with [n] indices of a
    thread in use, [MarkHazard] with an index from 0 to [n] passes the
    assertion, reads [hazard_pointers_] within its bounds and stores [ptr]
    in the slot of that index; an index below [n] leaves the slots of the
    thread as they are, the index [n] registers one more. *)
Theorem MarkHazard_sequential_index fuel w t index ptr :
  reachable w →
  let σ := world_list w in
  let r := GetInstance t w in
  (length (hpl_slots σ) ≤ fuel)%nat →
  0 ≤ index ≤ Z.of_nat (length (hazard_pointers_ r)) → int_range index →
  ∃ tr σ' r' a,
    run (MarkHazard fuel index ptr r) σ = (tr ++ [ev_ptr_store a ptr], σ', Returned r')
    ∧ hazard_pointers_ r' !! Z.to_nat index = Some a
    ∧ ptr_at σ' a = ptr
    ∧ (index < Z.of_nat (length (hazard_pointers_ r)) →
       r' = r ∧ tr = [] ∧ σ' = update_slot a (set_ptr ptr) σ)
    ∧ (index = Z.of_nat (length (hazard_pointers_ r)) →
       hazard_pointers_ r' = hazard_pointers_ r ++ [a]).
Proof.
  intros Hw σ r Hfuel Hidx Hint. subst σ r.
  destruct (reachable_preconditions w t Hw) as (Hl & Hne & Hlen & Hvalid & _).
  apply (MarkHazard_run_in_range fuel _ _ (registry (world_list w))); try done. lia.
Qed.

(** C10: in every reachable world, [GetHazardPtr] on the first use of an
    index takes a slot as [TryAcquireHazardPointer] does, so as [MarkHazard]
    does before its store: a slot of the registry whose flag was clear, or
    a new one; and it returns the null pointer. *)
Theorem GetHazardPtr_first_use fuel w t index :
  reachable w →
  let σ := world_list w in
  let r := GetInstance t w in
  (length (hpl_slots σ) ≤ fuel)%nat →
  index = Z.of_nat (length (hazard_pointers_ r)) → int_range index →
  ∃ tr σ' a,
    let r' := set_hazard_pointers_ (hazard_pointers_ r ++ [a]) r in
    run (TryAcquireHazardPointer fuel index r) σ = (tr, σ', Returned r')
    ∧ flag_at σ' a = true
    ∧ ((a ∈ registry σ ∧ flag_at σ a = false) ∨ a = length (hpl_slots σ))
    ∧ run (GetHazardPtr fuel index r) σ =
        (tr ++ [ev_ptr_load a nullptr], σ', Returned (nullptr, r'))
    ∧ ∀ ptr, run (MarkHazard fuel index ptr r) σ =
        (tr ++ [ev_ptr_store a ptr], update_slot a (set_ptr ptr) σ', Returned r').
Proof.
  intros Hw σ r Hfuel Hidx Hint. subst σ r.
  destruct (reachable_preconditions w t Hw) as (Hl & Hne & Hlen & _ & Hidle & _).
  apply (GetHazardPtr_run_first_use fuel _ _ (registry (world_list w))); try done. lia.
Qed.

Lemma MarkHazard_sequential_index_witness :
  let σ := world_list world_one in
  let r := GetInstance 0 world_one in
  reachable world_one ∧ hazard_pointers_ r = [0%nat]
  ∧ (∃ tr σ' r' a,
       run (MarkHazard 2 1 9 r) σ = (tr ++ [ev_ptr_store a 9], σ', Returned r')
       ∧ hazard_pointers_ r' = [0; a]%nat ∧ ptr_at σ' a = 9%N)
  ∧ (∃ σ' a,
       run (MarkHazard 2 0 9 r) σ = ([ev_ptr_store a 9], σ', Returned r)
       ∧ hazard_pointers_ r !! 0%nat = Some a ∧ ptr_at σ' a = 9%N).
Proof.
  intros σ r.
  pose proof (reachable_world_after [(0%nat, req_MarkHazard 0 5)]) as Hw.
  assert (length (hpl_slots σ) ≤ 2)%nat as Hfuel by (vm_compute; lia).
  assert (hazard_pointers_ r = [0%nat]) as Hhps by reflexivity.
  split; [exact Hw|]. split; [exact Hhps|]. split.
  - destruct (MarkHazard_sequential_index 2 world_one 0 1 9 Hw Hfuel
                ltac:(fold r; rewrite Hhps; simpl; lia) ltac:(unfold int_range; lia))
      as (tr & σ' & r' & a & Hrun & _ & Hptr & _ & Hn).
    exists tr, σ', r', a. split; [exact Hrun|]. split; [|exact Hptr].
    fold r in Hn. rewrite Hhps in Hn. exact (Hn eq_refl).
  - destruct (MarkHazard_sequential_index 2 world_one 0 0 9 Hw Hfuel
                ltac:(fold r; rewrite Hhps; simpl; lia) ltac:(unfold int_range; lia))
      as (tr & σ' & r' & a & Hrun & Ha & Hptr & Hlt & _).
    fold r in Hlt. rewrite Hhps in Hlt.
    destruct (Hlt ltac:(simpl; lia)) as (-> & -> & _).
    exists σ', a. split; [exact Hrun|]. split; [exact Ha|exact Hptr].
Defined.

Lemma GetHazardPtr_first_use_witness :
  let σ := world_list world_released in
  let r := GetInstance 2 world_released in
  reachable world_released
  ∧ registry σ = [1; 0]%nat ∧ flag_at σ 0 = false ∧ flag_at σ 1 = true
  ∧ hazard_pointers_ r = []
  ∧ ∃ tr σ',
      run (GetHazardPtr 2 0 r) σ =
        (tr ++ [ev_ptr_load 0 nullptr], σ',
         Returned (nullptr, set_hazard_pointers_ [0%nat] r))
      ∧ flag_at σ' 0 = true
      ∧ run (MarkHazard 2 0 9 r) σ =
          (tr ++ [ev_ptr_store 0 9], update_slot 0 (set_ptr 9) σ',
           Returned (set_hazard_pointers_ [0%nat] r)).
Proof.
  intros σ r.
  pose proof (reachable_world_after
                [(0%nat, req_MarkHazard 0 5); (1%nat, req_MarkHazard 0 6);
                 (0%nat, req_MarkHazard 0 0); (0%nat, req_thread_exit)]) as Hw.
  split; [exact Hw|]. split; [reflexivity|]. split; [reflexivity|]. split; [reflexivity|].
  split; [reflexivity|].
  assert (length (hpl_slots σ) ≤ 2)%nat as Hfuel by (vm_compute; lia).
  destruct (GetHazardPtr_first_use 2 world_released 2 0 Hw Hfuel eq_refl ltac:(unfold int_range; lia))
    as (tr & σ' & a & Hacq & Hflag & Hcase & Hget & Hmark).
  assert (a = 0%nat) as ->.
  { pose proof (f_equal (λ x, match x.2 with
                              | Returned vr => hazard_pointers_ vr.2
                              | Raised _ => []
                              end) Hget) as Ha.
    vm_compute in Ha. by injection Ha. }
  exists tr, σ'. split; [exact Hget|]. split; [exact Hflag|exact (Hmark 9%N)].
Defined.


(** ** The pool *)

Lemma Pop_times_fresh k last :
  Pop_times k [last] = Some (replicate k ReclaimNode_new, [last]).
Proof. induction k as [|k IH]; [done|]. simpl. by rewrite IH. Qed.

Lemma Pop_times_nodes base : ∀ k last,
  Pop_times (length base + k) (base ++ [last]) =
    Some (base ++ replicate k ReclaimNode_new, [last]).
Proof.
  induction base as [|node base IH]; intros k last; [apply Pop_times_fresh|].
  cbn [length Nat.add Pop_times app].
  assert (ReclaimPool.Pop (node :: base ++ [last]) = Some (node, base ++ [last])) as ->.
  { simpl. by destruct base. }
  simpl. by rewrite IH.
Qed.

Lemma foldl_Push nodes : ∀ pool,
  foldl (λ pool node, ReclaimPool.Push node pool) pool nodes = reverse nodes ++ pool.
Proof.
  induction nodes as [|node nodes IH]; intros pool; [done|].
  cbn [foldl]. rewrite IH, reverse_cons, <-(assoc_L (++)). done.
Qed.

(** X1: the pool hands its nodes out last in, first out, never hands out
    the node at its bottom, and hands out fresh nodes once only that node
    is left. *)
Theorem ReclaimPool_Pop_order nodes rest last k :
  let pool := foldl (λ pool node, ReclaimPool.Push node pool) (rest ++ [last]) nodes in
  Pop_times (length nodes + length rest + k) pool =
    Some (reverse nodes ++ rest ++ replicate k ReclaimNode_new, [last]).
Proof.
  intros pool. subst pool.
  rewrite foldl_Push, !(assoc_L (++)), <-Pop_times_nodes, !length_app, length_reverse.
  done.
Qed.

(** ** Deferring an address *)

Lemma Pop_nonempty pool :
  pool ≠ [] →
  ∃ node pool', ReclaimPool.Pop pool = Some (node, pool') ∧ pool' ≠ []
    ∧ ((length pool ≤ 1)%nat → pool' = pool)
    ∧ ((1 < length pool)%nat → pool = node :: pool').
Proof.
  destruct pool as [|node [|node' pool]]; [done| |]; intros _.
  - exists ReclaimNode_new, [node]. simpl. repeat split; try done. lia.
  - exists node, (node' :: pool). simpl. repeat split; try done. lia.
Qed.

(** X2: in every reachable world [ReclaimLater] returns and leaves the
    registry alone.  An address that is not pending gets an entry with the
    destroyer given; for an address that is pending the map stays as it is,
    so the destroyer given first is kept and the one given now is dropped.
    The node taken from the pool is gone from it in both cases. *)
Theorem ReclaimLater_keeps_first_destroyer fuel w t ptr func :
  reachable w →
  let r := GetInstance t w in
  ∃ r',
    run (ReclaimLater ptr func r) (world_list w) = ([], world_list w, Returned r')
    ∧ handle fuel t (req_ReclaimLater ptr func) w =
        Some {| world_list := world_list w;
                world_reclaimers := <[t := r']> (world_reclaimers w) |}
    ∧ hazard_pointers_ r' = hazard_pointers_ r
    ∧ (reclaim_map_ r !! ptr = None →
       reclaim_map_ r' =
         <[ptr := {| node_ptr := ptr; node_delete_func := func |}]> (reclaim_map_ r))
    ∧ (is_Some (reclaim_map_ r !! ptr) → reclaim_map_ r' = reclaim_map_ r)
    ∧ ((length (reclaim_pool_ r) ≤ 1)%nat → reclaim_pool_ r' = reclaim_pool_ r)
    ∧ ((1 < length (reclaim_pool_ r))%nat →
       ∃ node, reclaim_pool_ r = node :: reclaim_pool_ r').
Proof.
  intros Hw r. destruct (reachable_preconditions w t Hw) as (_ & _ & _ & _ & _ & _ & Hpool).
  fold r in Hpool.
  destruct (Pop_nonempty _ Hpool) as (node & pool' & Hpop & _ & Hone & Hmore).
  unfold handle. cbn [serve]. fold r. unfold ReclaimLater. rewrite Hpop. simpl.
  eexists. split; [done|]. split; [done|]. simpl. split; [done|].
  unfold map_insert_new. split; [by intros ->|]. split; [by intros [? ->]|].
  split; [done|]. intros ?. exists node. auto.
Qed.

Lemma ReclaimLater_keeps_first_destroyer_witness :
  let w := world_after [(0%nat, req_ReclaimLater 7 (Some 1%nat))] in
  reachable w
  ∧ reclaim_map_ (GetInstance 0 w) !! 7%N = Some {| node_ptr := 7; node_delete_func := Some 1%nat |}
  ∧ ∃ r', handle 0 0 (req_ReclaimLater 7 (Some 2%nat)) w =
            Some {| world_list := world_list w;
                    world_reclaimers := <[0%nat := r']> (world_reclaimers w) |}
          ∧ reclaim_map_ r' = reclaim_map_ (GetInstance 0 w).
Proof.
  intros w. assert (reachable w) as Hw by apply reachable_world_after.
  assert (reclaim_map_ (GetInstance 0 w) !! 7%N =
          Some {| node_ptr := 7; node_delete_func := Some 1%nat |}) as Hlook
    by (vm_compute; reflexivity).
  split; [exact Hw|]. split; [exact Hlook|].
  destruct (ReclaimLater_keeps_first_destroyer 0 w 0 7 (Some 2%nat) Hw)
    as (r' & _ & Hhandle & _ & _ & Hkeep & _).
  exists r'. split; [exact Hhandle|]. apply Hkeep. rewrite Hlook. by eexists.
Defined.

(** ** A pending null address *)

Lemma elem_of_calls tr f arg : (f, arg) ∈ calls tr ↔ ev_call f arg ∈ tr.
Proof.
  unfold calls. rewrite list_elem_of_omap. split.
  - intros (e & He & Hc). destruct e; simplify_eq/=. done.
  - intros He. by exists (ev_call f arg).
Qed.

(** The drain does not return, and does not call the destroyer of [k],
    when [k] is pending and published. *)
Lemma drain_run_published fuel l entries : ∀ r σ k node,
  linked (hpl_slots σ) (hpl_head σ) l → l ≠ [] → (length l ≤ fuel)%nat →
  Forall (λ kv : N * ReclaimNode, node_ptr kv.2 = kv.1) entries →
  (k, node) ∈ entries → publishes σ l k →
  ∃ tr e, run (Reclaimer_destroy_drain fuel entries r) σ = (tr, σ, Raised e)
          ∧ ∀ f, (f, k) ∉ calls tr.
Proof.
  induction entries as [|[k0 node0] entries IH]; intros r σ k node Hl Hne Hfuel Hkeys Hin Hpub.
  { by apply elem_of_nil in Hin. }
  apply Forall_cons in Hkeys as [Hk0 Hkeys]. simpl in Hk0.
  cbn [Reclaimer_destroy_drain]. rewrite run_bind.
  assert (0 < fuel)%nat as Hpos by (destruct l; simpl in *; [done|lia]).
  destruct (decide (publishes σ l k0)) as [Hpub0|Hpub0].
  - rewrite (wait_run_spin fuel σ l) by done. eexists _, _. split; [done|].
    intros f. fold (spin_trace σ l k0 fuel). rewrite calls_spin_trace. apply not_elem_of_nil.
  - rewrite (wait_run_clear fuel fuel σ l) by done. rewrite run_bind.
    destruct (node_delete_func node0) as [f0|] eqn:Hf0; cbn [invoke].
    + change (run (perform (call f0 (node_ptr node0))) σ)
        with ([ev_call f0 (node_ptr node0)], σ, @Returned unit ()).
      cbn beta iota.
      assert ((k, node) ∈ entries) as Hin'.
      { apply elem_of_cons in Hin as [[= -> ->]|]; done. }
      destruct (IH {| hazard_pointers_ := hazard_pointers_ r;
                      reclaim_map_ := delete k0 (reclaim_map_ r);
                      reclaim_pool_ := reclaim_pool_ r |} σ k node Hl Hne Hfuel Hkeys Hin' Hpub)
        as (tr & e & -> & Hcalls).
      eexists _, _. split; [done|]. intros f.
      rewrite !calls_app. change (calls (ev_head_load ?h :: ?t)) with (calls t).
      rewrite calls_hazard_trace. simpl. rewrite Hk0.
      intros [[= -> ->]|Hc]%elem_of_cons; [done|]. by apply (Hcalls f).
    + simpl. eexists _, _. split; [done|]. intros f. rewrite app_nil_r.
      change (calls (ev_head_load ?h :: ?t)) with (calls t).
      rewrite calls_hazard_trace. apply not_elem_of_nil.
Qed.

(** X3: the null address is never in the set of a scan, so a pass of
    [ReclaimNoHazardPointer] that reaches the threshold passes a pending
    null address to its destroyer; for the destructor the null address is
    published as long as some slot of the registry holds no pointer, so it
    waits, and neither returns nor calls that destroyer. *)
Theorem null_address_pending fuel σ r l node :
  linked (hpl_slots σ) (hpl_head σ) l → l ≠ [] → (length l ≤ fuel)%nat →
  Forall (λ a, is_Some (hpl_slots σ !! a)) (hazard_pointers_ r) → keys_ok r →
  reclaim_map_ r !! nullptr = Some node →
  (map_Forall (λ _ node, is_Some (node_delete_func node)) (reclaim_map_ r) →
   to_size_t (kCoefficient * get_size σ) ≤ Z.of_nat (size (reclaim_map_ r)) →
   ∃ tr r' f,
     run (ReclaimNoHazardPointer fuel r) σ = (tr, σ, Returned r')
     ∧ node_delete_func node = Some f ∧ (f, nullptr) ∈ calls tr
     ∧ reclaim_map_ r' !! nullptr = None)
  ∧ (Forall (λ a, ptr_at σ a = nullptr) (hazard_pointers_ r) →
     publishes σ l nullptr →
     ∃ tr e,
       run (Reclaimer_destroy fuel r) σ =
         (tr, clear_flags (hazard_pointers_ r) σ, Raised e)
       ∧ ∀ f, (f, nullptr) ∉ calls tr).
Proof.
  intros Hl Hne Hfuel Hvalid Hkeys Hnode. split.
  - intros Hfuncs Hreach.
    rewrite (run_ReclaimNoHazardPointer_reached fuel r σ l) by done.
    destruct (Hfuncs _ _ Hnode) as [f Hf].
    assert ((nullptr, node) ∈ reclaimed (published σ l) (map_to_list (reclaim_map_ r)))
      as Hin.
    { apply elem_of_reclaimed. split; [done|]. rewrite elem_of_published. by intros [? _]. }
    eexists _, _, f. split; [done|]. split; [done|]. split.
    + apply elem_of_calls. do 2 right. apply elem_of_app. right.
      apply list_elem_of_omap. exists (nullptr, node). split; [done|].
      unfold destroyer_call. simpl. rewrite Hf. simpl. by rewrite (Hkeys _ _ Hnode).
    + simpl. rewrite lookup_erase_all. rewrite decide_True; [done|].
      apply list_elem_of_fmap. by exists (nullptr, node).
  - intros Hnull Hpub. unfold Reclaimer_destroy. rewrite run_bind.
    rewrite handover_run.
    2:{ apply Forall_forall. intros a Ha. rewrite Forall_forall in Hvalid, Hnull. eauto. }
    set (σ' := clear_flags (hazard_pointers_ r) σ).
    assert (publishes σ' l nullptr) as Hpub'.
    { apply (publishes_ext σ σ'); [|done]. intros x. apply ptr_at_clear_flags. }
    destruct (drain_run_published fuel l (map_to_list (reclaim_map_ r)) r σ' nullptr node)
      as (tr & e & Hrun & Hcalls); try done.
    + subst σ'. rewrite head_clear_flags. by apply linked_clear_flags.
    + by apply keys_ok_entries.
    + by apply elem_of_map_to_list.
    + rewrite Hrun. eexists _, _. split; [done|]. intros f. rewrite calls_app.
      intros [Hc|Hc]%elem_of_app; [|by apply (Hcalls f)].
      apply elem_of_calls in Hc. unfold handover_trace in Hc.
      apply list_elem_of_bind in Hc as (a & Hc & _). set_solver.
Qed.

Lemma null_address_pending_witness :
  let σ := list_one 0 in
  let r := reclaimer_with [0%nat] [0%N] in
  linked (hpl_slots σ) (hpl_head σ) [0%nat]
  ∧ reclaim_map_ r !! nullptr = Some {| node_ptr := 0; node_delete_func := Some 1%nat |}
  ∧ publishes σ [0%nat] nullptr
  ∧ (∃ tr r', run (ReclaimNoHazardPointer 1 r) σ = (tr, σ, Returned r')
              ∧ (1%nat, nullptr) ∈ calls tr ∧ reclaim_map_ r' !! nullptr = None)
  ∧ (∃ tr e, run (Reclaimer_destroy 1 r) σ = (tr, clear_flags [0%nat] σ, Raised e)
             ∧ ∀ f, (f, nullptr) ∉ calls tr).
Proof.
  intros σ r.
  assert (linked (hpl_slots σ) (hpl_head σ) [0%nat]) as Hl by (repeat econstructor).
  assert (Forall (λ a, is_Some (hpl_slots σ !! a)) (hazard_pointers_ r)) as Hvalid
    by (repeat constructor; by eexists).
  assert (keys_ok r) as Hkeys.
  { apply map_Forall_insert_2; [done|]. apply map_Forall_empty. }
  assert (reclaim_map_ r !! nullptr = Some {| node_ptr := 0; node_delete_func := Some 1%nat |})
    as Hnode by (vm_compute; reflexivity).
  assert (publishes σ [0%nat] nullptr) as Hpub.
  { exists 0%nat. split; [by left|reflexivity]. }
  split; [exact Hl|]. split; [exact Hnode|]. split; [exact Hpub|].
  destruct (null_address_pending 1 σ r [0%nat] _ Hl ltac:(done) ltac:(simpl; lia)
              Hvalid Hkeys Hnode) as [Hscan Hexit].
  split.
  - destruct Hscan as (tr & r' & f & Hrun & Hf & Hcall & Hgone).
    + apply map_Forall_insert_2; [by eexists|]. apply map_Forall_empty.
    + vm_compute. discriminate.
    + injection Hf as <-. by exists tr, r'.
  - apply Hexit; [|exact Hpub]. by repeat constructor.
Defined.

(** ** What a request does to the registry *)

(** What [TryAcquireHazardPointer] has done when it returns: the chain of
    the registry is as it was or, when every slot of it was owned, has one
    new slot in front; the owned slots keep flag and pointer; the slot of
    the index exists and was registered before or was not owned. *)
Lemma run_TryAcquireHazardPointer_effect fuel index r σ l tr1 σ1 r1 :
  linked (hpl_slots σ) (hpl_head σ) l → l ≠ [] → (length l ≤ fuel)%nat →
  (∀ a, a ∈ hazard_pointers_ r → flag_at σ a = true) →
  run (TryAcquireHazardPointer fuel index r) σ = (tr1, σ1, Returned r1) →
  ((linked (hpl_slots σ1) (hpl_head σ1) l
    ∧ length (hpl_slots σ1) = length (hpl_slots σ))
   ∨ (linked (hpl_slots σ1) (hpl_head σ1) (length (hpl_slots σ) :: l)
      ∧ length (hpl_slots σ1) = S (length (hpl_slots σ))
      ∧ Forall (λ b, flag_at σ b = true) l))
  ∧ (∀ x, flag_at σ x = true → ptr_at σ1 x = ptr_at σ x ∧ flag_at σ1 x = true)
  ∧ reclaim_map_ r1 = reclaim_map_ r ∧ reclaim_pool_ r1 = reclaim_pool_ r
  ∧ ∃ a, hazard_pointers_ r1 !! Z.to_nat (to_size_t index) = Some a
         ∧ is_Some (hpl_slots σ1 !! a)
         ∧ (a ∈ hazard_pointers_ r ∨ flag_at σ a = false).
Proof.
  intros Hl Hne Hfuel Hown Hrun1.
  destruct (Z.lt_trichotomy (to_size_t index) (Z.of_nat (length (hazard_pointers_ r))))
    as [Hlt|[Heq|Hgt]].
  - rewrite TryAcquireHazardPointer_registered in Hrun1 by done.
    injection Hrun1 as <- <- <-.
    split; [by left|]. split; [done|]. split; [done|]. split; [done|].
    destruct (lookup_lt_is_Some_2 (hazard_pointers_ r) (Z.to_nat (to_size_t index)))
      as [a Ha]; [pose proof (to_size_t_range index); lia|].
    assert (a ∈ hazard_pointers_ r) as Hin by by eapply list_elem_of_lookup_2.
    exists a. split; [done|]. split; [by apply flag_at_true_valid, Hown|by left].
  - destruct (TryAcquireHazardPointer_acquires fuel σ r l index Hl Hne Hfuel Heq)
      as (tr2 & σ2 & a & hp & Hrun2 & Hhp & Hflag & Hcase).
    rewrite Hrun2 in Hrun1. simplify_eq.
    pose proof (acquires_acquired _ _ _ _ _ Hl Hne Hhp Hflag Hcase)
      as (Hidle & _ & Hflags & Hptrs & _).
    split; [|split; [|split; [done|split; [done|]]]].
    + destruct Hcase as [(_ & _ & ->)|(-> & _ & Hbusy & ->)].
      * left. split; [by apply linked_alter|]. simpl. by rewrite length_alter.
      * right. simpl. split; [|split; [rewrite length_app; simpl; lia|done]].
        econstructor; [apply lookup_fresh|]. simpl. by apply linked_app.
    + intros x Hx. split; [apply Hptrs|]. rewrite Hflags; [done|]. intros ->. congruence.
    + exists a. simpl. rewrite Heq, Nat2Z.id, lookup_snoc.
      split; [done|]. split; [by eexists|by right].
  - rewrite TryAcquireHazardPointer_rejected in Hrun1 by done. done.
Qed.

(** A destructor that returns found no pointer in the slots of the
    reclaimer, has cleared their flags and has done nothing else to the
    registry. *)
Lemma run_Reclaimer_destroy_returned fuel r σ tr σ' r' :
  (∀ a, a ∈ hazard_pointers_ r → flag_at σ a = true) →
  run (Reclaimer_destroy fuel r) σ = (tr, σ', Returned r') →
  Forall (λ a, ptr_at σ a = nullptr) (hazard_pointers_ r)
  ∧ σ' = clear_flags (hazard_pointers_ r) σ.
Proof.
  intros Hown Hrun. unfold Reclaimer_destroy in Hrun. rewrite run_bind in Hrun.
  destruct (run (Reclaimer_destroy_handover (hazard_pointers_ r)) σ)
    as [[tr1 σ1] [[]|e]] eqn:Hrun1; [|done].
  destruct (run (Reclaimer_destroy_drain fuel _ r) σ1) as [[tr2 σ2] [r2|e]] eqn:Hdrain;
    [|done].
  apply run_drain_read_only in Hdrain. simpl in Hrun.
  destruct (first_split (λ a, ptr_at σ a ≠ nullptr) (hazard_pointers_ r))
    as [Hnull|(ok & a & rest & E & Hok & Ha)].
  - assert (Forall (λ a, ptr_at σ a = nullptr) (hazard_pointers_ r)) as Hnull'.
    { eapply Forall_impl; [exact Hnull|]. intros a Ha. simpl in Ha.
      by destruct (decide (ptr_at σ a = nullptr)). }
    rewrite handover_run in Hrun1; [by simplify_eq|].
    apply Forall_forall. intros a Ha. rewrite Forall_forall in Hnull'.
    split; [by apply flag_at_true_valid, Hown|by apply Hnull'].
  - rewrite E in Hrun1. rewrite (handover_run_fail ok _ a rest) in Hrun1; [done| | |done].
    + apply Forall_forall. intros b Hb. rewrite Forall_forall in Hok.
      split; [apply flag_at_true_valid, Hown; rewrite E; set_solver|].
      specialize (Hok b Hb). simpl in Hok. by destruct (decide (ptr_at σ b = nullptr)).
    + apply flag_at_true_valid, Hown. rewrite E. set_solver.
Qed.

(** A request that returns either leaves the chain of the registry as it
    is or, when every slot of it is owned, puts one new slot in front; the
    slots that are owned, but not by the reclaimer that serves the request,
    keep their flag and their pointer. *)
Lemma serve_effect fuel c r σ l tr σ' r' :
  linked (hpl_slots σ) (hpl_head σ) l → l ≠ [] → (length l ≤ fuel)%nat →
  (∀ a, a ∈ hazard_pointers_ r → flag_at σ a = true) →
  run (serve fuel c r) σ = (tr, σ', Returned r') →
  ((linked (hpl_slots σ') (hpl_head σ') l ∧ length (hpl_slots σ') = length (hpl_slots σ))
   ∨ (linked (hpl_slots σ') (hpl_head σ') (length (hpl_slots σ) :: l)
      ∧ length (hpl_slots σ') = S (length (hpl_slots σ))
      ∧ Forall (λ b, flag_at σ b = true) l))
  ∧ (∀ x, flag_at σ x = true → x ∉ hazard_pointers_ r →
       ptr_at σ' x = ptr_at σ x ∧ flag_at σ' x = true).
Proof.
  intros Hl Hne Hfuel Hown Hrun.
  destruct c as [index ptr|index|ptr func| |]; cbn [serve] in Hrun.
  - unfold MarkHazard in Hrun. rewrite run_bind in Hrun.
    destruct (run (TryAcquireHazardPointer fuel index r) σ) as [[tr1 σ1] [r1|e]] eqn:Hrun1;
      [|done].
    destruct (run_TryAcquireHazardPointer_effect _ _ _ _ _ _ _ _ Hl Hne Hfuel Hown Hrun1)
      as (Hshape & Hframe & _ & _ & a & Ha & [hp Hhp] & Hmine).
    rewrite (run_hazard_pointers_at r1 index a) in Hrun by done.
    cbn [bind perform] in Hrun. erewrite run_act in Hrun; [|by eapply exec_ptr_store].
    simpl in Hrun. simplify_eq. split.
    + destruct Hshape as [[Hl1 Hlen]|(Hl1 & Hlen & Hbusy)]; [left|right]; simpl;
        rewrite length_alter; (split; [by apply linked_alter|done]).
    + intros x Hx Hnot. destruct (Hframe x Hx) as [Hp Hf].
      rewrite flag_at_set_ptr. split; [|done]. rewrite ptr_at_set_ptr_ne; [done|].
      intros ->. destruct Hmine; [done|congruence].
  - rewrite run_bind in Hrun. unfold GetHazardPtr in Hrun. rewrite run_bind in Hrun.
    destruct (run (TryAcquireHazardPointer fuel index r) σ) as [[tr1 σ1] [r1|e]] eqn:Hrun1;
      [|done].
    destruct (run_TryAcquireHazardPointer_effect _ _ _ _ _ _ _ _ Hl Hne Hfuel Hown Hrun1)
      as (Hshape & Hframe & _ & _ & a & Ha & [hp Hhp] & Hmine).
    rewrite (run_hazard_pointers_at r1 index a) in Hrun by done.
    cbn [bind perform] in Hrun. erewrite run_act in Hrun; [|by eapply exec_ptr_load].
    simpl in Hrun. simplify_eq. split; [done|]. intros x Hx _. by apply Hframe.
  - destruct (run_ReclaimLater_local _ _ _ _ _ _ _ Hrun) as [-> _]. split; [by left|done].
  - destruct (run_ReclaimNoHazardPointer_local _ _ _ _ _ _ Hrun) as [-> _].
    split; [by left|done].
  - rewrite run_bind in Hrun.
    destruct (run (Reclaimer_destroy fuel r) σ) as [[tr1 σ1] [r1|e]] eqn:Hrun1; [|done].
    destruct (run_Reclaimer_destroy_returned _ _ _ _ _ _ Hown Hrun1) as [_ ->].
    simpl in Hrun. simplify_eq. split.
    + left. rewrite head_clear_flags, length_clear_flags.
      split; [by apply linked_clear_flags|done].
    + intros x Hx Hnot. rewrite ptr_at_clear_flags, flag_at_clear_flags_ne by done. done.
Qed.

(** The same for the request of a thread in a world. *)
Lemma handle_effect fuel t c w w' :
  world_ok w → handle fuel t c w = Some w' →
  ((registry (world_list w') = registry (world_list w)
    ∧ length (hpl_slots (world_list w')) = length (hpl_slots (world_list w)))
   ∨ (registry (world_list w') = length (hpl_slots (world_list w)) :: registry (world_list w)
      ∧ length (hpl_slots (world_list w')) = S (length (hpl_slots (world_list w)))
      ∧ Forall (λ b, flag_at (world_list w) b = true) (registry (world_list w))))
  ∧ (∀ t' a, t' ≠ t → a ∈ hazard_pointers_ (GetInstance t' w) →
       ptr_at (world_list w') a = ptr_at (world_list w) a)
  ∧ (∀ t', t' ≠ t → GetInstance t' w' = GetInstance t' w).
Proof.
  intros Hw Hstep. destruct (ok_linked w Hw) as (l & Hl & Hne).
  apply (handle_fuel fuel (Nat.max fuel (length l))) in Hstep; [|lia].
  assert (length l ≤ Nat.max fuel (length l))%nat as Hfuel by lia.
  revert Hstep Hfuel. generalize (Nat.max fuel (length l)). clear fuel. intros fuel Hstep Hfuel.
  destruct (handle_run _ _ _ _ _ Hstep) as (tr & r' & Hrun & Hrecl).
  destruct (GetInstance_ok t w Hw) as (Hown & Hexcl & _).
  destruct (serve_effect _ _ _ _ _ _ _ _ Hl Hne Hfuel Hown Hrun) as [Hshape Hframe].
  rewrite (registry_linked _ _ Hl). split; [|split].
  - destruct Hshape as [[Hl' Hlen]|(Hl' & Hlen & Hbusy)]; [left|right];
      by rewrite (registry_linked _ _ Hl').
  - intros t' a Hne' Ha. unfold GetInstance in Ha.
    destruct (world_reclaimers w !! t') as [r1|] eqn:Ht'; simpl in Ha;
      [|by apply elem_of_nil in Ha].
    apply Hframe; [by eapply (ok_owned w Hw)|by eapply Hexcl].
  - intros t' Hne'. unfold GetInstance. by rewrite Hrecl, lookup_insert_ne.
Qed.

(** In every reachable world the chain from the head goes through every
    slot that has been created. *)
Lemma reachable_covered w :
  reachable w → registry (world_list w) ≡ₚ seq 0 (length (hpl_slots (world_list w))).
Proof.
  induction 1 as [|fuel t c w w' Hw IH Hstep]; [done|].
  destruct (handle_effect _ _ _ _ _ (reachable_ok w Hw) Hstep)
    as [[[-> ->]|(-> & -> & _)] _]; [done|].
  rewrite seq_S. simpl. rewrite IH. by rewrite Permutation_cons_append.
Qed.

(** ** The end of the program *)

Lemma destroy_loop_linked l : ∀ fuel σ p deleted,
  linked (hpl_slots σ) p l → NoDup (deleted ++ l) → (length l ≤ fuel)%nat →
  HazardPointerList_destroy_loop fuel σ p deleted = (deleted ++ l, Returned ()).
Proof.
  induction l as [|a l IH]; intros fuel σ p deleted Hl Hnd Hfuel; inversion Hl; simplify_eq.
  - rewrite app_nil_r. by destruct fuel.
  - destruct fuel as [|fuel]; [simpl in Hfuel; lia|]. simpl.
    rewrite decide_False.
    2:{ apply NoDup_app in Hnd as (_ & Hnd & _). intros Hin. apply (Hnd a Hin). by left. }
    match goal with H : hpl_slots σ !! a = Some _ |- _ => rewrite H end.
    rewrite IH; [by rewrite <-(assoc_L (++))|done|by rewrite <-(assoc_L (++))|
                  simpl in Hfuel; lia].
Qed.

(** X4: in every reachable world the destructor of the registry returns and
    deletes every slot that has been created, each once. *)
Theorem HazardPointerList_destroy_deletes_every_slot fuel w :
  reachable w → (length (hpl_slots (world_list w)) ≤ fuel)%nat →
  ∃ deleted,
    HazardPointerList_destroy fuel (world_list w) = (deleted, Returned ())
    ∧ deleted ≡ₚ seq 0 (length (hpl_slots (world_list w))).
Proof.
  intros Hw Hfuel. destruct (reachable_preconditions w 0 Hw) as (Hl & _ & Hlen & _).
  exists (registry (world_list w)). split; [|by apply reachable_covered].
  unfold HazardPointerList_destroy.
  rewrite (destroy_loop_linked (registry (world_list w))); [done|done| |lia].
  simpl. by eapply linked_NoDup.
Qed.

Lemma HazardPointerList_destroy_deletes_every_slot_witness :
  reachable world_two
  ∧ length (hpl_slots (world_list world_two)) = 2%nat
  ∧ HazardPointerList_destroy 2 (world_list world_two) = ([1; 0]%nat, Returned ()).
Proof.
  assert (reachable world_two) as Hw by apply reachable_world_after.
  split; [exact Hw|]. split; [reflexivity|].
  destruct (HazardPointerList_destroy_deletes_every_slot 2 world_two Hw ltac:(vm_compute; lia))
    as (deleted & Hrun & _).
  rewrite Hrun. f_equal.
  assert (HazardPointerList_destroy 2 (world_list world_two) = ([1; 0]%nat, Returned ()))
    as Hc by (vm_compute; reflexivity).
  rewrite Hc in Hrun. by injection Hrun as <-.
Defined.

(** ** Slots across requests and threads *)



Lemma handle_all_cons fuel t c rest w w2 :
  handle_all fuel ((t, c) :: rest) w = Some w2 →
  ∃ w1, handle fuel t c w = Some w1 ∧ handle_all fuel rest w1 = Some w2.
Proof. simpl. destruct (handle fuel t c w) as [w1|]; [|done]. simpl. eauto. Qed.

(** The requests of other threads leave the reclaimer of a thread and the
    pointers in its slots as they are. *)
Lemma handle_all_frame fuel t others : ∀ w w2,
  reachable w → Forall (λ tc : nat * request, tc.1 ≠ t) others →
  handle_all fuel others w = Some w2 →
  reachable w2 ∧ GetInstance t w2 = GetInstance t w
  ∧ ∀ a, a ∈ hazard_pointers_ (GetInstance t w) →
      ptr_at (world_list w2) a = ptr_at (world_list w) a.
Proof.
  induction others as [|[t' c] others IH]; intros w w2 Hw Hne Hall.
  { simpl in Hall. by simplify_eq. }
  apply Forall_cons in Hne as [Hne Hothers]. simpl in Hne.
  destruct (handle_all_cons _ _ _ _ _ _ Hall) as (w1 & Hstep & Hrest).
  destruct (handle_effect _ _ _ _ _ (reachable_ok w Hw) Hstep) as (_ & Hptr & Hinst).
  destruct (IH w1 w2) as (Hw2 & Hr & Hp); [by eapply reachable_handle|done|done|].
  split; [done|]. rewrite Hr, (Hinst t) by done. split; [done|].
  intros a Ha. rewrite Hp by (by rewrite (Hinst t)). by apply (Hptr t).
Qed.

(** X6: what a thread has published through an index is what
    [GetHazardPtr] returns for that index, also after any requests of other
    threads: they do not write to the slot of the thread. *)
Theorem GetHazardPtr_after_MarkHazard fuel w t index ptr w1 others w2 :
  reachable w → handle fuel t (req_MarkHazard index ptr) w = Some w1 →
  Forall (λ tc : nat * request, tc.1 ≠ t) others →
  handle_all fuel others w1 = Some w2 →
  ∃ a,
    hazard_pointers_ (GetInstance t w2) !! Z.to_nat (to_size_t index) = Some a
    ∧ run (GetHazardPtr fuel index (GetInstance t w2)) (world_list w2) =
        ([ev_ptr_load a ptr], world_list w2, Returned (ptr, GetInstance t w2)).
Proof.
  intros Hw Hstep Hothers Hall.
  assert (reachable w1) as Hw1 by by eapply reachable_handle.
  assert (∃ a, hazard_pointers_ (GetInstance t w1) !! Z.to_nat (to_size_t index) = Some a
               ∧ ptr_at (world_list w1) a = ptr) as (a & Ha & Hptr).
  { pose proof (reachable_ok w Hw) as Hok. destruct (ok_linked w Hok) as (l & Hl & Hne).
    apply (handle_fuel fuel (Nat.max fuel (length l))) in Hstep; [|lia].
    destruct (handle_run _ _ _ _ _ Hstep) as (tr & r' & Hrun & Hrecl).
    destruct (GetInstance_ok t w Hok) as (Hown & _).
    cbn [serve] in Hrun. unfold MarkHazard in Hrun. rewrite run_bind in Hrun.
    destruct (run (TryAcquireHazardPointer _ index _) _) as [[tr1 σ1] [r1|e]] eqn:Hrun1;
      [|done].
    assert (length l ≤ Nat.max fuel (length l))%nat as Hfuel by lia.
    destruct (run_TryAcquireHazardPointer_effect _ _ _ _ _ _ _ _ Hl Hne Hfuel Hown Hrun1)
      as (_ & _ & _ & _ & a & Ha & [hp Hhp] & _).
    rewrite (run_hazard_pointers_at r1 index a) in Hrun by done.
    cbn [bind perform] in Hrun. erewrite run_act in Hrun; [|by eapply exec_ptr_store].
    simpl in Hrun. injection Hrun as _ Hσ <-.
    exists a. unfold GetInstance. rewrite Hrecl, lookup_insert_eq. simpl.
    split; [done|]. rewrite <-Hσ.
    by erewrite ptr_at_lookup; [|by apply lookup_update_slot_eq]. }
  destruct (handle_all_frame _ _ _ _ _ Hw1 Hothers Hall) as (Hw2 & Hinst & Hframe).
  assert (a ∈ hazard_pointers_ (GetInstance t w1)) as Hin by by eapply list_elem_of_lookup_2.
  exists a. rewrite Hinst. split; [done|].
  destruct (GetInstance_ok t w2 (reachable_ok w2 Hw2)) as (Hown2 & _).
  rewrite Hinst in Hown2. destruct (flag_at_true_valid _ _ (Hown2 a Hin)) as [hp Hhp].
  unfold GetHazardPtr. rewrite run_bind, TryAcquireHazardPointer_registered.
  2:{ apply lookup_lt_Some in Ha. pose proof (to_size_t_range index). lia. }
  rewrite (run_hazard_pointers_at _ index a) by done.
  cbn [bind perform]. erewrite run_act; [|by eapply exec_ptr_load]. simpl.
  rewrite <-(ptr_at_lookup _ _ _ Hhp), Hframe, Hptr by done. done.
Qed.

Lemma GetHazardPtr_after_MarkHazard_witness :
  let others := [(1%nat, req_MarkHazard 0 6); (1%nat, req_ReclaimLater 5 (Some 1%nat));
                 (1%nat, req_ReclaimNoHazardPointer); (2%nat, req_GetHazardPtr 0)] in
  ∃ w2, handle_all 3 others world_one = Some w2
    ∧ run (GetHazardPtr 3 0 (GetInstance 0 w2)) (world_list w2) =
        ([ev_ptr_load 0 5], world_list w2, Returned (5%N, GetInstance 0 w2)).
Proof.
  intros others.
  assert (handle 3 0 (req_MarkHazard 0 5) World_new = Some world_one) as Hstep
    by (vm_compute; reflexivity).
  destruct (handle_all 3 others world_one) as [w2|] eqn:Hall; [|by vm_compute in Hall].
  exists w2. split; [done|].
  destruct (GetHazardPtr_after_MarkHazard 3 World_new 0 0 5 world_one others w2
              reachable_new Hstep) as (a & Ha & Hrun); [|exact Hall|].
  { subst others. repeat constructor; simpl; lia. }
  assert (a = 0%nat) as ->; [|exact Hrun].
  assert (hazard_pointers_ (GetInstance 0 w2) = [0%nat]) as Hhps.
  { assert (Some w2 = handle_all 3 others world_one) as Hc by done.
    vm_compute in Hc. injection Hc as ->. reflexivity. }
  rewrite Hhps in Ha. by injection Ha.
Defined.

(** ** Monitors that look at destroyer calls only *)

Section Silent.
Context {S : Type} (mon : S → event → option S).
Hypothesis silent : ∀ s e, (∀ f arg, e ≠ ev_call f arg) → mon s e = Some s.

Local Ltac silent_step :=
  try unfold perform at 1;
  lazymatch goal with
  | |- wp _ (Act _ _) _ _ =>
      let x := fresh "x" in
      intros x; eexists; split; [by apply silent|]; cbn [bind perform]
  | |- wp _ (deref _ _) _ _ =>
      let a := fresh "a" in apply wp_deref; intros a ->; cbn [bind perform]
  | |- wp _ (Ret _) _ _ => cbn [wp]
  | |- wp _ (Throw _) _ _ => exact I
  end.

Lemma find_silent fuel : ∀ p s (Φ : option nat → S → Prop),
  (∀ x, Φ x s) → wp mon (TryAcquireHazardPointer_find fuel p) s Φ.
Proof.
  induction fuel as [|fuel IH]; intros p s Φ HΦ; [done|].
  cbn [TryAcquireHazardPointer_find]. silent_step. silent_step.
  destruct (negb x); [by silent_step|]. silent_step.
  destruct x0; [by apply IH|by silent_step].
Qed.

Lemma push_silent fuel : ∀ new_head old_head s (Φ : unit → S → Prop),
  (∀ x, Φ x s) → wp mon (TryAcquireHazardPointer_push fuel new_head old_head) s Φ.
Proof.
  induction fuel as [|fuel IH]; intros new_head old_head s Φ HΦ; [done|].
  cbn [TryAcquireHazardPointer_push bind perform]. silent_step. silent_step.
  destruct x0 as [[] current]; [by silent_step|by apply IH].
Qed.

Lemma TryAcquireHazardPointer_silent fuel index r s (Φ : Reclaimer → S → Prop) :
  (∀ r', reclaim_map_ r' = reclaim_map_ r → Φ r' s) →
  wp mon (TryAcquireHazardPointer fuel index r) s Φ.
Proof.
  intros HΦ. unfold TryAcquireHazardPointer.
  destruct (negb _); [done|]. destruct (_ <? _); [silent_step; by apply HΦ|].
  cbn [bind perform]. silent_step. apply wp_bind, find_silent. intros [a|].
  - cbn [bind]. silent_step. by apply HΦ.
  - cbn [bind perform]. do 4 silent_step.
    apply wp_bind, wp_bind, push_silent. intros _. simpl. by apply HΦ.
Qed.

Lemma hazard_pointers_at_silent {T} r index (k : nat → prog T) s (Φ : T → S → Prop) :
  (∀ a, wp mon (k a) s Φ) → wp mon (hazard_pointers_at r index k) s Φ.
Proof. intros H. unfold hazard_pointers_at. by destruct (_ !! _). Qed.

Lemma collect_silent fuel : ∀ p set s (Φ : gset N → S → Prop),
  (∀ x, Φ x s) → wp mon (ReclaimNoHazardPointer_collect fuel p set) s Φ.
Proof.
  induction fuel as [|fuel IH]; intros p set s Φ HΦ; [done|].
  cbn [ReclaimNoHazardPointer_collect]. do 3 silent_step.
  destruct x0; [by apply IH|by silent_step].
Qed.

Lemma Hazard_loop_silent fuel : ∀ p key s (Φ : bool → S → Prop),
  (∀ x, Φ x s) → wp mon (Hazard_loop fuel p key) s Φ.
Proof.
  induction fuel as [|fuel IH]; intros p key s Φ HΦ; [done|].
  cbn [Hazard_loop]. do 2 silent_step. destruct (decide _); [by silent_step|]. silent_step.
  destruct x0; [by apply IH|by silent_step].
Qed.

Lemma wait_silent fuel spins : ∀ key s (Φ : unit → S → Prop),
  Φ () s → wp mon (Reclaimer_destroy_wait fuel spins key) s Φ.
Proof.
  induction spins as [|spins IH]; intros key s Φ HΦ; [done|].
  cbn [Reclaimer_destroy_wait]. apply wp_bind. unfold Hazard. cbn [bind perform]. silent_step.
  apply Hazard_loop_silent. intros [].
  - cbn [bind perform]. silent_step. by apply IH.
  - by silent_step.
Qed.

Lemma handover_silent hps : ∀ s (Φ : unit → S → Prop),
  Φ () s → wp mon (Reclaimer_destroy_handover hps) s Φ.
Proof.
  induction hps as [|a hps IH]; intros s Φ HΦ; [by simpl|].
  cbn [Reclaimer_destroy_handover bind perform]. silent_step.
  destruct (decide _); [|done]. cbn [bind]. silent_step. by apply IH.
Qed.
End Silent.

(** ** Interleavings accepted by a monitor *)

Section AcceptedFacts.
Context {S : Type} (monitor : nat → S → event → option S) (init : nat → S).

Lemma step_accepted t w : accepted monitor init w → accepted monitor init (step t w).
Proof.
  intros Hw t'. destruct (Hw t') as (s & Hs & Hwp). unfold step.
  destruct (running w !! t) as [[x|e|a k]|] eqn:Ht; [by exists s..| |by exists s].
  destruct (exec a (shared w)) as [[x σ]|] eqn:Hexec; simpl.
  - destruct (decide (t' = t)) as [->|Hne].
    + destruct (Hwp _ Ht x) as (s' & Hs' & Hk). exists s'. split.
      * rewrite events_of_app, monitor_all_app, Hs. simpl.
        rewrite decide_True by done. simpl. by rewrite Hs'.
      * intros m. rewrite list_lookup_insert_eq by by eapply lookup_lt_Some.
        by intros [= <-].
    + exists s. split.
      * rewrite events_of_app. simpl. rewrite decide_False by done. by rewrite app_nil_r.
      * intros m. rewrite list_lookup_insert_ne by done. apply Hwp.
  - exists s. split; [done|]. intros m. destruct (decide (t' = t)) as [->|Hne].
    + rewrite list_lookup_insert_eq by by eapply lookup_lt_Some. by intros [= <-].
    + rewrite list_lookup_insert_ne by done. apply Hwp.
Qed.

Lemma steps_accepted schedule : ∀ w,
  accepted monitor init w → accepted monitor init (steps schedule w).
Proof.
  induction schedule as [|t schedule IH]; intros w Hw; [done|].
  apply IH. by apply step_accepted.
Qed.

Lemma start_accepted fuel css :
  (∀ t cs, css !! t = Some cs →
     wp (monitor t) (thread_main fuel cs Reclaimer_new) (init t) (λ _ _, True)) →
  accepted monitor init (start fuel css).
Proof.
  intros Hwp t. exists (init t). split; [done|]. intros m. simpl. rewrite list_lookup_fmap.
  destruct (css !! t) as [cs|] eqn:Ht; [|done]. intros [= <-]. by apply Hwp.
Qed.
End AcceptedFacts.

(** ** One destroyer call for each deferral *)

Section AtMost.
Context (b : nat) (f : nat) (p : N).
Implicit Types (n : nat).

Lemma at_most_silent n e : (∀ f' arg, e ≠ ev_call f' arg) → at_most b f p n e = Some n.
Proof. intros He. destruct e; try done. by destruct (He f0 arg). Qed.

Lemma at_most_count tr : ∀ n n',
  monitor_all (at_most b f p) n tr = Some n' →
  (n' = n + destructions f p tr)%nat ∧ ((n ≤ b)%nat → (n' ≤ b)%nat).
Proof.
  unfold destructions.
  induction tr as [|e tr IH]; intros n n' Hmon; simpl in Hmon.
  { simplify_eq. simpl. split; [lia|done]. }
  destruct (at_most b f p n e) as [n1|] eqn:He; [|done]. simpl in Hmon.
  destruct (IH _ _ Hmon) as [-> Hle].
  destruct e; simpl in He; simplify_eq; try (split; [done|done]).
  simpl. destruct (decide (f0 = f ∧ arg = p)) as [[-> ->]|Hne].
  - destruct (decide (n < b)%nat); [|done]. simplify_eq.
    rewrite filter_cons_True by done. simpl. split; [lia|]. intros _. apply Hle. lia.
  - simplify_eq. rewrite filter_cons_False; [done|]. intros [= -> ->]. by apply Hne.
Qed.

Lemma pending_delete r k hps pool :
  (pending f p {| hazard_pointers_ := hps; reclaim_map_ := delete k (reclaim_map_ r);
                  reclaim_pool_ := pool |} ≤ pending f p r)%nat
  ∧ (k = p → pending f p {| hazard_pointers_ := hps;
                            reclaim_map_ := delete k (reclaim_map_ r);
                            reclaim_pool_ := pool |} = 0%nat).
Proof.
  unfold pending. simpl. destruct (decide (k = p)) as [->|Hne].
  - rewrite lookup_delete_eq. split; [lia|done].
  - rewrite lookup_delete_ne by done. split; [lia|done].
Qed.

(** The call of the destroyer of an entry of the map and the removal of the
    entry: the call is within the budget when the entry is counted as
    pending. *)
Lemma invoke_entry_at_most r k node hps pool n R (Φ : unit → nat → Prop) :
  keys_ok r → reclaim_map_ r !! k = Some node →
  (n + pending f p r + R ≤ b)%nat →
  (∀ n', (n' + pending f p {| hazard_pointers_ := hps;
                              reclaim_map_ := delete k (reclaim_map_ r);
                              reclaim_pool_ := pool |} + R ≤ b)%nat → Φ () n') →
  wp (at_most b f p) (invoke (node_delete_func node) (node_ptr node)) n Φ.
Proof.
  intros Hkeys Hnode Hinv HΦ. pose proof (Hkeys _ _ Hnode) as Hk. simpl in Hk.
  destruct (pending_delete r k hps pool) as [Hle Hzero].
  destruct (node_delete_func node) as [f'|] eqn:Hf; [|done]. cbn [invoke]. unfold perform.
  intros []. simpl. destruct (decide (f' = f ∧ node_ptr node = p)) as [[-> Hp]|Hne].
  - assert (pending f p r = 1%nat) as Hone.
    { unfold pending. rewrite <-Hp, Hk, Hnode. by rewrite decide_True. }
    rewrite decide_True by lia. eexists. split; [done|]. apply HΦ.
    rewrite Hzero by congruence. lia.
  - eexists. split; [done|]. apply HΦ. lia.
Qed.

Lemma entries_delete (m : gmap N ReclaimNode) k node entries :
  NoDup ((k, node) :: entries).*1 →
  Forall (λ kv : N * ReclaimNode, m !! kv.1 = Some kv.2) entries →
  Forall (λ kv : N * ReclaimNode, delete k m !! kv.1 = Some kv.2) entries.
Proof.
  intros Hnd Hall. apply NoDup_cons in Hnd as [Hk _].
  apply Forall_forall. intros [k' node'] Hin. rewrite Forall_forall in Hall.
  simpl. rewrite lookup_delete_ne; [by apply (Hall _ Hin)|].
  intros <-. apply Hk. apply list_elem_of_fmap. by exists (k, node').
Qed.

Lemma sweep_at_most entries : ∀ set r n R (Φ : Reclaimer → nat → Prop),
  NoDup entries.*1 →
  Forall (λ kv : N * ReclaimNode, reclaim_map_ r !! kv.1 = Some kv.2) entries →
  keys_ok r → (n + pending f p r + R ≤ b)%nat →
  (∀ r' n', keys_ok r' → (n' + pending f p r' + R ≤ b)%nat → Φ r' n') →
  wp (at_most b f p) (ReclaimNoHazardPointer_sweep entries set r) n Φ.
Proof.
  induction entries as [|[k node] entries IH]; intros set r n R Φ Hnd Hall Hkeys Hinv HΦ;
    [by apply HΦ|].
  pose proof (entries_delete _ _ _ _ Hnd (Forall_inv_tail Hall)) as Hall'.
  apply Forall_cons in Hall as [Hnode Hall]. simpl in Hnode.
  pose proof Hnd as Hnd'. apply NoDup_cons in Hnd' as [_ Hnd'].
  cbn [ReclaimNoHazardPointer_sweep]. destruct (decide _); [by apply (IH _ _ _ R)|].
  apply wp_bind.
  eapply (invoke_entry_at_most r k node (hazard_pointers_ r)
            (ReclaimPool.Push node (reclaim_pool_ r))); [done..|].
  intros n' Hinv'. apply (IH _ _ _ R); try done. by apply keys_ok_delete.
Qed.

Lemma drain_at_most fuel entries : ∀ r n R (Φ : Reclaimer → nat → Prop),
  NoDup entries.*1 →
  Forall (λ kv : N * ReclaimNode, reclaim_map_ r !! kv.1 = Some kv.2) entries →
  keys_ok r → (n + pending f p r + R ≤ b)%nat →
  (∀ r' n', keys_ok r' → (n' + pending f p r' + R ≤ b)%nat → Φ r' n') →
  wp (at_most b f p) (Reclaimer_destroy_drain fuel entries r) n Φ.
Proof.
  induction entries as [|[k node] entries IH]; intros r n R Φ Hnd Hall Hkeys Hinv HΦ;
    [by apply HΦ|].
  pose proof (entries_delete _ _ _ _ Hnd (Forall_inv_tail Hall)) as Hall'.
  apply Forall_cons in Hall as [Hnode Hall]. simpl in Hnode.
  pose proof Hnd as Hnd'. apply NoDup_cons in Hnd' as [_ Hnd'].
  cbn [Reclaimer_destroy_drain]. apply wp_bind, wait_silent; [apply at_most_silent|].
  apply wp_bind.
  eapply (invoke_entry_at_most r k node (hazard_pointers_ r) (reclaim_pool_ r)); [done..|].
  intros n' Hinv'. apply (IH _ _ R); try done. by apply keys_ok_delete.
Qed.

Lemma map_entries (m : gmap N ReclaimNode) :
  NoDup (map_to_list m).*1
  ∧ Forall (λ kv : N * ReclaimNode, m !! kv.1 = Some kv.2) (map_to_list m).
Proof.
  split; [apply NoDup_fst_map_to_list|].
  apply Forall_forall. intros [k node]. apply elem_of_map_to_list.
Qed.

Lemma deferrals_cons c cs :
  deferrals f p (c :: cs) =
  ((if decide (c = req_ReclaimLater p (Some f)) then 1 else 0) + deferrals f p cs)%nat.
Proof. unfold deferrals. rewrite filter_cons. by destruct (decide _). Qed.

Lemma serve_at_most fuel c cs r n (Φ : Reclaimer → nat → Prop) :
  keys_ok r → (n + pending f p r + deferrals f p (c :: cs) ≤ b)%nat →
  (∀ r' n', keys_ok r' → (n' + pending f p r' + deferrals f p cs ≤ b)%nat → Φ r' n') →
  wp (at_most b f p) (serve fuel c r) n Φ.
Proof.
  intros Hr Hinv HΦ. rewrite deferrals_cons in Hinv.
  assert (∀ r', reclaim_map_ r' = reclaim_map_ r →
            keys_ok r' ∧ (n + pending f p r' + deferrals f p cs ≤ b)%nat) as Hsame.
  { intros r' Hr'. split; [by eapply keys_ok_same_map|]. unfold pending in *.
    rewrite Hr'. lia. }
  destruct c as [index ptr|index|ptr func| |]; cbn [serve].
  - unfold MarkHazard. apply wp_bind, TryAcquireHazardPointer_silent; [apply at_most_silent|].
    intros r' Hr'. apply hazard_pointers_at_silent. intros a. cbn [bind perform].
    intros []. eexists. split; [done|]. simpl. by apply HΦ; apply Hsame.
  - apply wp_bind. unfold GetHazardPtr.
    apply wp_bind, TryAcquireHazardPointer_silent; [apply at_most_silent|].
    intros r' Hr'. apply hazard_pointers_at_silent. intros a. cbn [bind perform].
    intros v. eexists. split; [done|]. simpl. by apply HΦ; apply Hsame.
  - unfold ReclaimLater. destruct (ReclaimPool.Pop _) as [[? pool]|]; simpl; [|done].
    apply HΦ.
    + unfold keys_ok, map_insert_new. simpl.
      destruct (reclaim_map_ r !! ptr); [done|]. by apply map_Forall_insert_2.
    + unfold pending, map_insert_new in *. simpl.
      destruct (reclaim_map_ r !! ptr) as [old|] eqn:Hold; [lia|].
      destruct (decide (ptr = p)) as [->|Hne].
      * rewrite lookup_insert_eq. simpl. rewrite Hold in Hinv.
        destruct (decide (func = Some f)) as [->|Hf].
        -- rewrite decide_True in Hinv by done. lia.
        -- lia.
      * rewrite lookup_insert_ne by done. lia.
  - unfold ReclaimNoHazardPointer. cbn [bind perform].
    intros sz. eexists. split; [done|].
    destruct (_ <? _).
    { simpl. apply HΦ; [done|lia]. }
    cbn [bind perform]. intros h. eexists. split; [done|].
    apply wp_bind, collect_silent; [apply at_most_silent|]. intros set.
    destruct (map_entries (reclaim_map_ r)) as [Hnd Hall].
    by apply (sweep_at_most _ _ _ _ (deferrals f p cs)).
  - apply wp_bind. unfold Reclaimer_destroy.
    apply wp_bind, handover_silent; [apply at_most_silent|].
    destruct (map_entries (reclaim_map_ r)) as [Hnd Hall].
    apply (drain_at_most _ _ _ _ (deferrals f p cs)); try done.
    intros r' n' _ Hinv'. simpl. apply HΦ; [apply map_Forall_empty|].
    unfold pending. simpl. rewrite lookup_empty. lia.
Qed.

Lemma thread_main_at_most fuel cs : ∀ r n,
  keys_ok r → (n + pending f p r + deferrals f p cs ≤ b)%nat →
  wp (at_most b f p) (thread_main fuel cs r) n (λ _ _, True).
Proof.
  induction cs as [|c cs IH]; intros r n Hr Hinv; [done|].
  cbn [thread_main]. apply wp_bind. eapply serve_at_most; [done..|].
  intros r' n' Hr' Hinv'. by apply IH.
Qed.
End AtMost.

(** X7: in every interleaving, a thread calls the destroyer [f] on the
    address [p] at most as many times as it defers [p] with [f]: nothing
    is destroyed that was not deferred, or twice for one deferral. *)
Theorem destroyer_called_once_per_deferral fuel css schedule t f p :
  (destructions f p (events_of t (history (steps schedule (start fuel css))))
   ≤ deferrals f p (css !!! t))%nat.
Proof.
  set (monitor := λ t, at_most (deferrals f p (css !!! t)) f p).
  assert (accepted monitor (λ _, 0%nat) (start fuel css)) as Hstart.
  { apply start_accepted. intros t' cs Ht'. subst monitor. simpl.
    rewrite (list_lookup_total_correct _ _ _ Ht').
    apply thread_main_at_most; [apply map_Forall_empty|].
    unfold pending. simpl. rewrite lookup_empty. lia. }
  destruct (steps_accepted monitor _ schedule _ Hstart t) as (n & Hmon & _).
  subst monitor. simpl in Hmon.
  destruct (at_most_count (deferrals f p (css !!! t)) f p _ _ _ Hmon) as [-> Hle].
  assert (0 ≤ deferrals f p (css !!! t))%nat as Hpos by lia.
  specialize (Hle Hpos). lia.
Qed.

(** ** Threads that only reclaim *)

Lemma wp_mono {S T} (monitor : S → event → option S) (m : prog T) :
  ∀ s (Φ Ψ : T → S → Prop),
  (∀ x s', Φ x s' → Ψ x s') → wp monitor m s Φ → wp monitor m s Ψ.
Proof.
  induction m as [x|e|a k IH]; intros s Φ Ψ HΦ; simpl; [by apply HΦ|done|].
  intros H x. destruct (H x) as (s' & Hs' & Hk). eauto.
Qed.

Lemma wp_unwatched {S T} (m : prog T) : ∀ (s : S) (Φ : T → S → Prop),
  (∀ x s', Φ x s') → wp (λ s _, Some s) m s Φ.
Proof.
  induction m as [x|e|a k IH]; intros s Φ HΦ; simpl; [by apply HΦ|done|].
  intros x. eauto.
Qed.

Lemma thread_main_reads fuel cs : ∀ r,
  Forall reclaims_only cs → hazard_pointers_ r = [] →
  wp read_only (thread_main fuel cs r) () (λ _ _, True).
Proof.
  induction cs as [|c cs IH]; intros r Hcs Hr; [done|].
  apply Forall_cons in Hcs as [Hc Hcs]. cbn [thread_main]. apply wp_bind.
  destruct c as [index ptr|index|ptr func| |]; try done; cbn [serve].
  - unfold ReclaimLater. destruct (ReclaimPool.Pop _) as [[? pool]|]; simpl; [|done].
    by apply IH.
  - eapply wp_mono; [|apply ReclaimNoHazardPointer_reads].
    intros r' [] (Hr' & _). apply IH; [done|congruence].
  - apply wp_bind. unfold Reclaimer_destroy. rewrite Hr. simpl.
    apply drain_reads. intros r'. simpl. by apply IH.
Qed.

Lemma read_only_all tr s :
  monitor_all read_only () tr = Some s → Forall (λ e, read_only () e = Some ()) tr.
Proof.
  revert s. induction tr as [|e tr IH]; intros s Hmon; [constructor|].
  simpl in Hmon. destruct (read_only () e) as [[]|] eqn:He; [|done].
  constructor; [done|]. by eapply IH.
Qed.

(** X8: in every interleaving, a thread whose requests are [ReclaimLater],
    [ReclaimNoHazardPointer] and the end of the thread only loads from the
    registry, calls destroyers and yields: it writes to no slot, creates
    none, and changes neither the head nor the count. *)
Theorem reclaiming_thread_never_writes fuel css schedule t :
  Forall reclaims_only (css !!! t) →
  Forall (λ e, read_only () e = Some ())
    (events_of t (history (steps schedule (start fuel css)))).
Proof.
  intros Hcs.
  assert (accepted (watch t read_only) (λ _, ()) (start fuel css)) as Hstart.
  { apply start_accepted. intros t' cs Ht'. unfold watch.
    destruct (decide (t' = t)) as [->|_]; [|by apply wp_unwatched].
    rewrite (list_lookup_total_correct _ _ _ Ht') in Hcs. by apply thread_main_reads. }
  destruct (steps_accepted _ _ schedule _ Hstart t) as (s & Hmon & _).
  unfold watch in Hmon. rewrite decide_True in Hmon by done. by eapply read_only_all.
Qed.

Lemma reclaiming_thread_never_writes_witness :
  let css := [[req_MarkHazard 0 5];
              [req_ReclaimLater 5 (Some 1%nat); req_ReclaimNoHazardPointer; req_thread_exit]] in
  let w := steps [1; 1; 0; 0; 1; 1; 0; 1; 1; 1; 1; 1]%nat (start 2 css) in
  events_of 1 (history w) =
    [ev_size_load 0; ev_head_load (Some 0%nat); ev_ptr_load 0 0; ev_next_load 0 None;
     ev_call 1 5]
  ∧ events_of 0 (history w) =
      [ev_head_load (Some 0%nat); ev_flag_test_and_set 0 false; ev_ptr_store 0 5]
  ∧ Forall (λ e, read_only () e = Some ()) (events_of 1 (history w)).
Proof.
  intros css w. split; [reflexivity|]. split; [reflexivity|].
  apply (reclaiming_thread_never_writes 2 css). by repeat constructor.
Defined.

(** ** Threads within their views *)

Lemma wpl_bind {A B} (m : prog A) (f : A → prog B) s (Φ : B → view → Prop) :
  wpl m s (λ x s', wpl (f x) s' Φ) → wpl (bind m f) s Φ.
Proof.
  revert s. induction m as [x|e|a k IH]; intros s; simpl; [done|done|].
  intros [Hmay Hk]. split; [done|]. intros x Hx. apply IH, Hk, Hx.
Qed.

Lemma grows_refl s : grows s s.
Proof. done. Qed.

Lemma grows_trans s1 s2 s3 : grows s1 s2 → grows s2 s3 → grows s1 s3.
Proof. intros (? & ? & ?) (? & ? & ?). split; [congruence|]. split; [congruence|set_solver]. Qed.

Lemma grows_know x s : grows s (know x s).
Proof. destruct x; [|done]. split; [done|]. split; [done|]. simpl. set_solver. Qed.

Lemma know_Some_known a s : a ∈ v_known (know (Some a) s).
Proof. simpl. set_solver. Qed.

Ltac wpl_step :=
  try unfold perform at 1; cbn [bind];
  lazymatch goal with
  | |- wpl (Act _ _) _ _ =>
      let x := fresh "x" in
      let Hx := fresh "Hx" in
      split; [cbn [may]|intros x Hx; cbn [learn answers] in *; cbn [bind perform]]
  | |- wpl (Ret _) _ _ => cbn [wpl]
  | |- wpl (Throw _) _ _ => done
  end.

Lemma find_view fuel : ∀ p s (Φ : option nat → view → Prop),
  (∃ a, p = Some a ∧ a ∈ v_known s) →
  (∀ res s', v_fresh s' = v_fresh s → v_known s ⊆ v_known s' →
     match res with
     | Some a => (a ∉ dom (v_own s)) ∧ a ∈ v_known s' ∧ v_own s' = <[a := nullptr]> (v_own s)
     | None => v_own s' = v_own s
     end → Φ res s') →
  wpl (TryAcquireHazardPointer_find fuel p) s Φ.
Proof.
  induction fuel as [|fuel IH]; intros p s Φ (a & -> & Ha) HΦ; [done|].
  cbn [TryAcquireHazardPointer_find deref]. wpl_step; [by left|].
  destruct Hx as [Hown _]. destruct x; cbn [negb].
  - wpl_step; [done|]. destruct x as [q|].
    + apply IH; [exists q; split; [done|apply know_Some_known]|].
      intros res s' Hf Hk Hres. apply HΦ; [done|simpl in Hk; set_solver|done].
    + wpl_step. by apply HΦ.
  - wpl_step. apply HΦ; [done|done|]. split; [|done].
    intros Hin. by specialize (Hown Hin).
Qed.

Lemma push_view fuel : ∀ new_head old_head s (Φ : unit → view → Prop),
  new_head ∈ dom (v_fresh s) →
  (∀ s', v_own s' = v_own s → v_fresh s' = delete new_head (v_fresh s) →
     v_known s ⊆ v_known s' → new_head ∈ v_known s' → Φ () s') →
  wpl (TryAcquireHazardPointer_push fuel new_head old_head) s Φ.
Proof.
  induction fuel as [|fuel IH]; intros new_head old_head s Φ Hnew HΦ; [done|].
  cbn [TryAcquireHazardPointer_push]. wpl_step; [done|].
  wpl_step.
  { exists new_head. split; [done|]. simpl. by rewrite lookup_insert_eq. }
  destruct x0 as [[] current]; simpl in *.
  - apply HΦ; simpl; [done| |set_solver|set_solver].
    by rewrite delete_insert_eq.
  - apply IH.
    + destruct current; simpl; set_solver.
    + intros s' Ho Hf Hk Hn. apply HΦ; [by destruct current| |
        destruct current; simpl in *; set_solver|done].
      rewrite Hf. destruct current; simpl; by rewrite delete_insert_eq.
Qed.

Lemma TryAcquireHazardPointer_view fuel index r s (Φ : Reclaimer → view → Prop) :
  settled r s →
  (∀ r' s', settled r' s' → reclaim_map_ r' = reclaim_map_ r →
     is_Some (hazard_pointers_ r' !! Z.to_nat (to_size_t index)) → Φ r' s') →
  wpl (TryAcquireHazardPointer fuel index r) s Φ.
Proof.
  intros (Hnd & Hhps & Hfresh & Hpool) HΦ. unfold TryAcquireHazardPointer.
  destruct (to_size_t index <=? _) eqn:Hle; [|done]. apply Z.leb_le in Hle. cbn [negb].
  destruct (to_size_t index <? _) eqn:Hlt.
  { apply Z.ltb_lt in Hlt. wpl_step. apply HΦ; [done|done|].
    apply lookup_lt_is_Some_2. pose proof (to_size_t_range index). lia. }
  apply Z.ltb_ge in Hlt.
  assert (Z.to_nat (to_size_t index) = length (hazard_pointers_ r)) as Hidx by lia.
  wpl_step; [done|]. destruct x as [h|]; [|by destruct Hx as [? [=]]]. clear Hx.
  apply wpl_bind, find_view; [exists h; split; [done|apply know_Some_known]|].
  intros [a|] s1 Hf1 Hk1 Hres; cbn [bind].
  - destruct Hres as (Hnew & Hka & Ho1). wpl_step. apply HΦ; [|done|].
    + split; [|split; [|split; [by rewrite Hf1|done]]]; simpl.
      * apply NoDup_app. split; [done|]. split; [|apply NoDup_singleton].
        intros b Hb ->%list_elem_of_singleton. by apply Hnew, Hhps.
      * intros b [Hb| ->%list_elem_of_singleton]%elem_of_app.
        -- destruct (Hhps b Hb). rewrite Ho1. simpl in Hk1. set_solver.
        -- rewrite Ho1. set_solver.
    + simpl. rewrite Hidx, lookup_snoc. by eexists.
  - simpl in Hf1, Hk1. wpl_step; [done|]. destruct Hx as (_ & _ & Hnew).
    rewrite Hres in Hnew. rename x into a.
    wpl_step; [right; simpl; set_solver|].
    destruct Hx as [_ Hclear]. simpl in Hclear.
    rewrite Hclear; [|set_solver|by rewrite Hres]. clear Hclear.
    wpl_step; [done|]. clear Hx. wpl_step; [done|].
    destruct x1 as [h'|]; [|by destruct Hx as [? [=]]]. clear Hx.
    apply wpl_bind, wpl_bind, push_view; [simpl; set_solver|].
    intros s2 Ho2 Hf2 Hk2 Hka. simpl in Ho2, Hf2, Hk2. cbn [bind wpl].
    apply HΦ; [|done|].
    + split; [|split; [|split; [|done]]]; simpl.
      * apply NoDup_app. split; [done|]. split; [|apply NoDup_singleton].
        intros b Hb ->%list_elem_of_singleton. by apply Hnew, Hhps.
      * intros b [Hb| ->%list_elem_of_singleton]%elem_of_app.
        -- destruct (Hhps b Hb). rewrite Ho2, Hres. set_solver.
        -- rewrite Ho2. set_solver.
      * rewrite Hf2, Hf1, Hfresh, insert_empty, delete_singleton_eq. done.
    + simpl. rewrite Hidx, lookup_snoc. by eexists.
Qed.

Lemma hazard_pointers_at_view {T} r index (k : nat → prog T) s (Φ : T → view → Prop) :
  is_Some (hazard_pointers_ r !! Z.to_nat (to_size_t index)) →
  (∀ a, hazard_pointers_ r !! Z.to_nat (to_size_t index) = Some a → wpl (k a) s Φ) →
  wpl (hazard_pointers_at r index k) s Φ.
Proof. intros [a Ha] H. unfold hazard_pointers_at. rewrite Ha. by apply H. Qed.

Lemma collect_view fuel : ∀ p set s (Φ : gset N → view → Prop),
  (∃ a, p = Some a ∧ a ∈ v_known s) →
  (∀ x s', grows s s' → Φ x s') →
  wpl (ReclaimNoHazardPointer_collect fuel p set) s Φ.
Proof.
  induction fuel as [|fuel IH]; intros p set s Φ (a & -> & Ha) HΦ; [done|].
  cbn [ReclaimNoHazardPointer_collect deref]. wpl_step; [done|]. wpl_step; [done|].
  destruct x0 as [q|].
  - apply IH; [exists q; split; [done|apply know_Some_known]|].
    intros set' s' Hs'. apply HΦ. eapply grows_trans; [apply (grows_know (Some q))|done].
  - wpl_step. apply HΦ, grows_refl.
Qed.

Lemma invoke_view f arg s (Φ : unit → view → Prop) :
  Φ () s → wpl (invoke f arg) s Φ.
Proof.
  intros HΦ. destruct f; [|done]. cbn [invoke]. wpl_step; [done|].
  simpl in x. destruct x. exact HΦ.
Qed.

Lemma sweep_view entries : ∀ set r s (Φ : Reclaimer → view → Prop),
  (∀ r', hazard_pointers_ r' = hazard_pointers_ r →
     (reclaim_pool_ r ≠ [] → reclaim_pool_ r' ≠ []) → Φ r' s) →
  wpl (ReclaimNoHazardPointer_sweep entries set r) s Φ.
Proof.
  induction entries as [|[k node] entries IH]; intros set r s Φ HΦ; [by apply HΦ|].
  cbn [ReclaimNoHazardPointer_sweep]. destruct (decide _); [by apply IH|].
  apply wpl_bind, invoke_view. apply IH. intros r' Hhps Hpool.
  apply HΦ; [done|]. intros _. by apply Hpool.
Qed.

Lemma Hazard_loop_view fuel : ∀ p key s (Φ : bool → view → Prop),
  (∃ a, p = Some a ∧ a ∈ v_known s) →
  (∀ x s', grows s s' → Φ x s') →
  wpl (Hazard_loop fuel p key) s Φ.
Proof.
  induction fuel as [|fuel IH]; intros p key s Φ (a & -> & Ha) HΦ; [done|].
  cbn [Hazard_loop deref]. wpl_step; [done|].
  destruct (decide (x = key)); [wpl_step; apply HΦ, grows_refl|].
  wpl_step; [done|]. destruct x0 as [q|].
  - apply IH; [exists q; split; [done|apply know_Some_known]|].
    intros b s' Hs'. apply HΦ. eapply grows_trans; [apply (grows_know (Some q))|done].
  - wpl_step. apply HΦ, grows_refl.
Qed.

Lemma wait_view fuel spins : ∀ key s (Φ : unit → view → Prop),
  (∀ s', grows s s' → Φ () s') → wpl (Reclaimer_destroy_wait fuel spins key) s Φ.
Proof.
  induction spins as [|spins IH]; intros key s Φ HΦ; [done|].
  cbn [Reclaimer_destroy_wait]. apply wpl_bind. unfold Hazard. wpl_step; [done|].
  destruct x as [h|]; [|by destruct Hx as [? [=]]].
  apply Hazard_loop_view; [exists h; split; [done|apply know_Some_known]|].
  intros [] s' Hs'.
  - wpl_step; [done|]. apply IH. intros s'' Hs''. apply HΦ.
    eapply grows_trans; [apply (grows_know (Some h))|]. by eapply grows_trans.
  - wpl_step. apply HΦ. eapply grows_trans; [apply (grows_know (Some h))|done].
Qed.

Lemma handover_view hps : ∀ s (Φ : unit → view → Prop),
  NoDup hps → (∀ a, a ∈ hps → a ∈ dom (v_own s) ∧ a ∈ v_known s) →
  (∀ s', v_fresh s' = v_fresh s → Φ () s') →
  wpl (Reclaimer_destroy_handover hps) s Φ.
Proof.
  induction hps as [|a hps IH]; intros s Φ Hnd Hhps HΦ; [by apply HΦ|].
  apply NoDup_cons in Hnd as [Ha Hnd].
  destruct (Hhps a) as [[v Hv]%elem_of_dom Hka]; [by left|].
  cbn [Reclaimer_destroy_handover]. wpl_step; [done|].
  rewrite (Hx v Hv). destruct (decide (nullptr = v)) as [<-|]; [|done].
  wpl_step; [done|]. apply IH; [done| |done].
  intros b Hb. destruct (Hhps b) as [Hob Hkb]; [by right|].
  split; [|done]. simpl. apply elem_of_dom. rewrite lookup_delete_ne; [by apply elem_of_dom|].
  by intros ->.
Qed.

Lemma drain_view fuel entries : ∀ r s (Φ : Reclaimer → view → Prop),
  (∀ r' s', grows s s' → Φ r' s') →
  wpl (Reclaimer_destroy_drain fuel entries r) s Φ.
Proof.
  induction entries as [|[k node] entries IH]; intros r s Φ HΦ; [apply HΦ, grows_refl|].
  cbn [Reclaimer_destroy_drain]. apply wpl_bind, wait_view. intros s' Hs'.
  apply wpl_bind, invoke_view. apply IH. intros r' s'' Hs''. apply HΦ.
  by eapply grows_trans.
Qed.

(** Every request keeps the thread within its view. *)
Lemma serve_view fuel c r s (Φ : Reclaimer → view → Prop) :
  settled r s → (∀ r' s', settled r' s' → Φ r' s') → wpl (serve fuel c r) s Φ.
Proof.
  intros Hr HΦ. destruct c as [index ptr|index|ptr func| |]; cbn [serve].
  - unfold MarkHazard. apply wpl_bind, TryAcquireHazardPointer_view; [done|].
    intros r' s' (Hnd & Hhps & Hfresh & Hpool) _ Hidx.
    apply hazard_pointers_at_view; [done|]. intros a Ha%list_elem_of_lookup_2.
    destruct (Hhps a Ha) as [Hoa Hka]. wpl_step; [done|]. wpl_step. apply HΦ.
    split; [done|]. split; [|done]. intros b Hb. destruct (Hhps b Hb) as [Hob Hkb].
    split; [|done]. simpl. set_solver.
  - apply wpl_bind. unfold GetHazardPtr. apply wpl_bind, TryAcquireHazardPointer_view; [done|].
    intros r' s' Hr' _ Hidx. pose proof Hr' as (Hnd & Hhps & Hfresh & Hpool).
    apply hazard_pointers_at_view; [done|]. intros a Ha%list_elem_of_lookup_2.
    destruct (Hhps a Ha) as [Hoa Hka]. wpl_step; [done|]. wpl_step. by apply HΦ.
  - destruct Hr as (Hnd & Hhps & Hfresh & Hpool). unfold ReclaimLater.
    destruct (Pop_nonempty _ Hpool) as (node & pool' & -> & Hpool' & _). simpl.
    by apply HΦ.
  - destruct Hr as (Hnd & Hhps & Hfresh & Hpool). unfold ReclaimNoHazardPointer.
    wpl_step; [done|]. destruct (_ <? _); [by wpl_step; apply HΦ|].
    wpl_step; [done|]. destruct x0 as [h|]; [|by destruct Hx0 as [? [=]]].
    apply wpl_bind, collect_view; [exists h; split; [done|apply know_Some_known]|].
    intros set s' (Ho & Hf & Hk). apply sweep_view. intros r' Hhps' Hpool'. apply HΦ.
    split; [by rewrite Hhps'|]. split; [|split; [by rewrite Hf|by apply Hpool']].
    intros b Hb. rewrite Hhps' in Hb. destruct (Hhps b Hb). rewrite Ho. simpl in Hk.
    set_solver.
  - destruct Hr as (Hnd & Hhps & Hfresh & Hpool). apply wpl_bind. unfold Reclaimer_destroy.
    apply wpl_bind, handover_view; [done|done|]. intros s' Hf.
    apply drain_view. intros r' s'' (_ & Hf' & _). wpl_step. apply HΦ.
    split; [constructor|]. split; [by intros ? ?%elem_of_nil|]. split; [congruence|done].
Qed.

Lemma thread_main_view fuel cs : ∀ r s,
  settled r s → wpl (thread_main fuel cs r) s (λ _ s', v_fresh s' = ∅).
Proof.
  induction cs as [|c cs IH]; intros r s Hr; [by destruct Hr as (_ & _ & ? & _)|].
  cbn [thread_main]. apply wpl_bind, serve_view; [done|]. intros r' s' Hr'. by apply IH.
Qed.

(** ** The views and the registry *)

Lemma update_slot_lookup_ne σ b f x :
  x ≠ b → hpl_slots (update_slot b f σ) !! x = hpl_slots σ !! x.
Proof. intros. unfold update_slot. simpl. by rewrite list_lookup_alter_ne. Qed.

Lemma update_slot_lookup_eq σ b f :
  hpl_slots (update_slot b f σ) !! b = f <$> hpl_slots σ !! b.
Proof. unfold update_slot. simpl. by rewrite list_lookup_alter_eq. Qed.

Lemma flag_at_update_ne σ b f x :
  x ≠ b → flag_at (update_slot b f σ) x = flag_at σ x.
Proof. intros. unfold flag_at. by rewrite update_slot_lookup_ne. Qed.

Lemma ptr_at_update_ne σ b f x :
  x ≠ b → ptr_at (update_slot b f σ) x = ptr_at σ x.
Proof. intros. unfold ptr_at. by rewrite update_slot_lookup_ne. Qed.

Lemma next_at_update_ne σ b f x :
  x ≠ b → next_at (update_slot b f σ) x = next_at σ x.
Proof. intros. unfold next_at. by rewrite update_slot_lookup_ne. Qed.

Lemma flag_at_update σ b f x :
  (∀ hp, hp_flag (f hp) = hp_flag hp) → flag_at (update_slot b f σ) x = flag_at σ x.
Proof.
  intros Hf. destruct (decide (x = b)) as [->|]; [|by apply flag_at_update_ne].
  unfold flag_at. rewrite update_slot_lookup_eq.
  destruct (hpl_slots σ !! b); simpl; [by rewrite Hf|done].
Qed.

Lemma ptr_at_update σ b f x :
  (∀ hp, hp_ptr (f hp) = hp_ptr hp) → ptr_at (update_slot b f σ) x = ptr_at σ x.
Proof.
  intros Hf. destruct (decide (x = b)) as [->|]; [|by apply ptr_at_update_ne].
  unfold ptr_at. rewrite update_slot_lookup_eq.
  destruct (hpl_slots σ !! b); simpl; [by rewrite Hf|done].
Qed.

Lemma next_at_update σ b f x :
  (∀ hp, hp_next (f hp) = hp_next hp) → next_at (update_slot b f σ) x = next_at σ x.
Proof.
  intros Hf. destruct (decide (x = b)) as [->|]; [|by apply next_at_update_ne].
  unfold next_at. rewrite update_slot_lookup_eq.
  destruct (hpl_slots σ !! b); simpl; [by rewrite Hf|done].
Qed.

Lemma registry_update σ b f :
  (∀ hp, hp_next (f hp) = hp_next hp) →
  linked (hpl_slots σ) (hpl_head σ) (registry σ) →
  registry (update_slot b f σ) = registry σ.
Proof. intros Hf Hl. apply registry_linked. simpl. by apply linked_alter. Qed.

(** A chain stays a chain when a slot outside of it changes. *)
Lemma linked_alter_outside slots p l b f :
  b ∉ l → linked slots p l → linked (alter f b slots) p l.
Proof.
  intros Hb Hl. induction Hl as [|a hp l Ha Hl IH]; [constructor|].
  apply not_elem_of_cons in Hb as [Hne Hb].
  econstructor; [by rewrite list_lookup_alter_ne|by apply IH].
Qed.

Lemma linked_elem_valid slots p l a : linked slots p l → a ∈ l → (a < length slots)%nat.
Proof. intros Hl Ha. by apply lookup_lt_is_Some, (linked_valid slots p l). Qed.

(** The link of a slot of a chain leads to a slot of the chain; the chain
    from a slot of a chain is part of the chain. *)
Lemma linked_next slots p l a q :
  linked slots p l → a ∈ l → (slots !! a ≫= hp_next) = Some q → q ∈ l.
Proof.
  intros Hl. induction Hl as [|b hp l Hb Hl IH]; [by intros ?%elem_of_nil|].
  intros [->|Ha]%elem_of_cons Hq.
  - rewrite Hb in Hq. simpl in Hq. rewrite Hq in Hl. inversion Hl; simplify_eq.
    right. by left.
  - right. by apply IH.
Qed.

Lemma fits_head σ G : fits σ G → ∃ h, hpl_head σ = Some h ∧ h ∈ registry σ.
Proof.
  intros [[Hl Hne] _ _ _ _ _ _ _]. destruct (linked_some _ _ _ Hl Hne) as [h Hh].
  exists h. split; [done|]. rewrite Hh in Hl. inversion Hl. by left.
Qed.

Lemma fits_valid σ G t a :
  fits σ G → a ∈ v_known (G t) ∨ a ∈ dom (v_fresh (G t)) ∨ a ∈ dom (v_own (G t)) →
  is_Some (hpl_slots σ !! a).
Proof.
  intros Hfit [Ha|[[q Ha]%elem_of_dom|[v Ha]%elem_of_dom]].
  - eapply linked_valid; [apply (fit_linked _ _ Hfit)|by eapply fit_known].
  - by destruct (fit_fresh _ _ Hfit t a q Ha) as (_ & ? & _).
  - destruct (fit_own _ _ Hfit t a v Ha) as (Hflag & _). by apply flag_at_true_valid.
Qed.

(** An operation that the view allows does not go through a pointer that
    names no slot. *)
Lemma may_exec σ G t a : fits σ G → may (G t) a → is_Some (exec a σ).
Proof.
  intros Hfit Hmay.
  destruct a as [| expected desired| | | |b|b|b|b v|b|b q|f arg|]; simpl in *; try by eexists.
  - destruct (decide _); by eexists.
  - destruct (fits_valid σ G t b Hfit) as [hp Hhp]; [tauto|].
    unfold set_slot. rewrite Hhp. simpl. by eexists.
  - destruct Hmay as [Hown Hk]. destruct (fits_valid σ G t b Hfit) as [hp Hhp]; [tauto|].
    unfold set_slot. rewrite Hhp. simpl. by eexists.
  - destruct (fits_valid σ G t b Hfit) as [hp Hhp]; [tauto|]. rewrite Hhp. by eexists.
  - destruct Hmay as [Hown Hk]. destruct (fits_valid σ G t b Hfit) as [hp Hhp]; [tauto|].
    unfold set_slot. rewrite Hhp. simpl. by eexists.
  - destruct (fits_valid σ G t b Hfit) as [hp Hhp]; [tauto|]. rewrite Hhp. by eexists.
  - destruct (fits_valid σ G t b Hfit) as [hp Hhp]; [tauto|].
    unfold set_slot. rewrite Hhp. simpl. by eexists.
Qed.

Lemma set_view_eq t s G : set_view t s G t = s.
Proof. unfold set_view. by rewrite decide_True. Qed.

Lemma set_view_ne t s G t' : t' ≠ t → set_view t s G t' = G t'.
Proof. intros. unfold set_view. by rewrite decide_False. Qed.

Ltac view_of t0 t :=
  destruct (decide (t0 = t)) as [->|?];
  [rewrite ?set_view_eq in *|rewrite ?set_view_ne in * by done].

(** A thread learns addresses of the chain. *)
Lemma fits_same σ G t s' :
  fits σ G → v_own s' = v_own (G t) → v_fresh s' = v_fresh (G t) →
  (∀ a, a ∈ v_known s' → a ∈ registry σ) →
  fits σ (set_view t s' G).
Proof.
  intros [Hl Hcover Hfresh Hfone Hknown Hown Hoone Hidle] Ho Hf Hk. split; try done.
  - intros a Ha. destruct (Hcover a Ha) as [|[t0 Ht0]]; [by left|]. right. exists t0.
    view_of t0 t; [by rewrite Hf|done].
  - intros t0 a q. view_of t0 t; [rewrite Hf, Ho|]; apply Hfresh.
  - intros t1 t2 a. view_of t1 t; view_of t2 t; rewrite ?Hf; try done; apply Hfone.
  - intros t0 a. view_of t0 t; [apply Hk|apply Hknown].
  - intros t0 a v. view_of t0 t; [rewrite Hf, Ho|]; apply Hown.
  - intros t1 t2 a. view_of t1 t; view_of t2 t; rewrite ?Ho; try done; apply Hoone.
Qed.

Lemma fits_size σ G z :
  fits σ G →
  fits {| hpl_slots := hpl_slots σ; hpl_head := hpl_head σ; hpl_size := z |} G.
Proof. intros []. by split. Qed.

(** A thread changes the flag or the pointer of the slot [b]. *)
Lemma fits_alter σ G t b f s' :
  fits σ G → (∀ hp, hp_next (f hp) = hp_next hp) →
  v_fresh s' = v_fresh (G t) → v_known s' = v_known (G t) →
  (∀ a, a ≠ b → v_own s' !! a = v_own (G t) !! a) →
  (∀ v, v_own s' !! b = Some v →
     flag_at (update_slot b f σ) b = true ∧ ptr_at (update_slot b f σ) b = v
     ∧ (b ∈ registry σ ∨ b ∈ dom (v_fresh (G t)))
     ∧ ∀ t', t' ≠ t → b ∉ dom (v_own (G t'))) →
  (∀ t' v, t' ≠ t → v_own (G t') !! b = Some v →
     flag_at (update_slot b f σ) b = true ∧ ptr_at (update_slot b f σ) b = v) →
  (flag_at (update_slot b f σ) b = false → ptr_at (update_slot b f σ) b = nullptr) →
  (∀ t' q, v_fresh (G t') !! b = Some q →
     ptr_at (update_slot b f σ) b = nullptr
     ∧ (t' ≠ t → (b ∉ dom (v_own (G t'))) → flag_at (update_slot b f σ) b = false)
     ∧ (t' = t → (b ∉ dom (v_own s')) → flag_at (update_slot b f σ) b = false)) →
  fits (update_slot b f σ) (set_view t s' G).
Proof.
  intros [[Hl Hne] Hcover Hfresh Hfone Hknown Hown Hoone Hidle] Hf Hfr Hkn Hothers
    Hmine Htheirs Hnull Hfb.
  assert (registry (update_slot b f σ) = registry σ) as Hreg by by apply registry_update.
  split; rewrite ?Hreg.
  - split; [|done]. simpl. by apply linked_alter.
  - intros a Ha. simpl in Ha. rewrite length_alter in Ha.
    destruct (Hcover a Ha) as [|[t0 Ht0]]; [by left|]. right. exists t0.
    view_of t0 t; [by rewrite Hfr|done].
  - intros t0 a q Ha.
    assert (v_fresh (G t0) !! a = Some q) as Ha' by (view_of t0 t; [by rewrite <-Hfr|done]).
    destruct (Hfresh t0 a q Ha') as (Hout & Hvalid & Hnext & Hptr & Hflag).
    split; [done|]. split; [by apply valid_update_slot|].
    split; [by rewrite next_at_update|].
    destruct (decide (a = b)) as [->|Hab].
    + destruct (Hfb t0 q Ha') as (Hp & Hf1 & Hf2). split; [done|].
      view_of t0 t; [by apply Hf2|by apply Hf1].
    + rewrite ptr_at_update_ne, flag_at_update_ne by done. split; [done|].
      intros Hno. apply Hflag. intros Hin. apply Hno.
      view_of t0 t; [|done]. apply elem_of_dom. rewrite Hothers by done. by apply elem_of_dom.
  - intros t1 t2 a. view_of t1 t; view_of t2 t; rewrite ?Hfr; try done; apply Hfone.
  - intros t0 a. view_of t0 t; [rewrite Hkn|]; apply Hknown.
  - intros t0 a v Ha. destruct (decide (a = b)) as [->|Hab].
    + view_of t0 t.
      * destruct (Hmine v Ha) as (? & ? & Hwhere & _). rewrite Hfr. done.
      * destruct (Htheirs t0 v) as [? ?]; [done|done|].
        destruct (Hown t0 b v Ha) as (_ & _ & ?). done.
    + rewrite flag_at_update_ne, ptr_at_update_ne by done.
      view_of t0 t; [rewrite Hothers in Ha by done; rewrite Hfr|]; by apply Hown.
  - intros t1 t2 a H1 H2. destruct (decide (t1 = t2)) as [|Hne12]; [done|]. exfalso.
    assert (∀ t0, t0 ≠ t → a ∈ dom (v_own s') → a ∈ dom (v_own (G t0)) → False) as Hexcl.
    { intros t0 Ht0 [v Hv]%elem_of_dom Hin. destruct (decide (a = b)) as [->|Hab].
      - destruct (Hmine v Hv) as (_ & _ & _ & Hno). by apply (Hno t0).
      - rewrite Hothers in Hv by done. apply Ht0. apply (Hoone t0 t a); [done|].
        by apply elem_of_dom. }
    view_of t1 t; view_of t2 t; try done; [by eapply Hexcl|by eapply Hexcl|].
    by apply Hne12, (Hoone t1 t2 a).
  - intros a. destruct (decide (a = b)) as [->|Hab]; [done|].
    rewrite flag_at_update_ne, ptr_at_update_ne by done. apply Hidle.
Qed.

(** A thread stores a link in a slot it has created and not linked. *)
Lemma fits_next_store σ G t b q :
  fits σ G → b ∈ dom (v_fresh (G t)) →
  fits (update_slot b (set_next q) σ)
       (set_view t (with_fresh (<[b := q]> (v_fresh (G t))) (G t)) G).
Proof.
  intros Hfit Hb. pose proof Hfit as [[Hl Hne] Hcover Hfresh Hfone Hknown Hown Hoone Hidle].
  apply elem_of_dom in Hb as [q0 Hq0].
  destruct (Hfresh t b q0 Hq0) as (Hout & [hp Hhp] & _ & Hptr & Hflag).
  assert (registry (update_slot b (set_next q) σ) = registry σ) as Hreg.
  { apply registry_linked. simpl. by apply linked_alter_outside. }
  assert (∀ x, flag_at (update_slot b (set_next q) σ) x = flag_at σ x) as Hflags
    by (intros x; by apply flag_at_update).
  assert (∀ x, ptr_at (update_slot b (set_next q) σ) x = ptr_at σ x) as Hptrs
    by (intros x; by apply ptr_at_update).
  split; rewrite ?Hreg.
  - split; [|done]. simpl. by apply linked_alter_outside.
  - intros a Ha. simpl in Ha. rewrite length_alter in Ha.
    destruct (Hcover a Ha) as [|[t0 Ht0]]; [by left|]. right. exists t0.
    view_of t0 t; [|done]. simpl. set_solver.
  - intros t0 a q' Ha. rewrite Hflags, Hptrs. view_of t0 t; simpl in Ha.
    + destruct (decide (a = b)) as [->|Hab].
      * rewrite lookup_insert_eq in Ha. simplify_eq. split; [done|].
        split; [by apply valid_update_slot|]. split; [|done].
        unfold next_at. rewrite update_slot_lookup_eq, Hhp. done.
      * rewrite lookup_insert_ne in Ha by done.
        destruct (Hfresh t a q' Ha) as (? & ? & ? & ? & ?).
        split; [done|]. split; [by apply valid_update_slot|].
        by rewrite next_at_update_ne.
    + assert (a ≠ b) as Hab.
      { intros ->. assert (t0 = t); [|done].
        apply (Hfone t0 t b); apply elem_of_dom; by eexists. }
      destruct (Hfresh t0 a q' Ha) as (? & ? & ? & ? & ?).
      split; [done|]. split; [by apply valid_update_slot|].
      by rewrite next_at_update_ne.
  - assert (dom (<[b:=q]> (v_fresh (G t))) = dom (v_fresh (G t))) as Hdom.
    { rewrite dom_insert_L. assert (b ∈ dom (v_fresh (G t))) by (apply elem_of_dom; by eexists).
      set_solver. }
    intros t1 t2 a. view_of t1 t; view_of t2 t; simpl; rewrite ?Hdom; try done; apply Hfone.
  - intros t0 a. view_of t0 t; apply Hknown.
  - intros t0 a v Ha. rewrite Hflags, Hptrs. view_of t0 t; simpl in *.
    + destruct (Hown t a v Ha) as (? & ? & Hw). split; [done|]. split; [done|]. set_solver.
    + by apply Hown.
  - intros t1 t2 a. view_of t1 t; view_of t2 t; simpl; try done; apply Hoone.
  - intros a. rewrite Hflags, Hptrs. apply Hidle.
Qed.

(** A thread creates a slot. *)
Lemma fits_new σ G t :
  fits σ G →
  fits {| hpl_slots := hpl_slots σ ++ [HazardPointer_new]; hpl_head := hpl_head σ;
          hpl_size := hpl_size σ |}
       (set_view t (with_fresh (<[length (hpl_slots σ) := None]> (v_fresh (G t))) (G t)) G).
Proof.
  intros Hfit. pose proof Hfit as [[Hl Hne] Hcover Hfresh Hfone Hknown Hown Hoone Hidle].
  set (σ' := {| hpl_slots := hpl_slots σ ++ [HazardPointer_new]; hpl_head := hpl_head σ;
                hpl_size := hpl_size σ |}).
  set (n := length (hpl_slots σ)).
  set (s' := with_fresh (<[n := None]> (v_fresh (G t))) (G t)).
  assert (∀ x, hpl_slots σ' !! x =
               if decide (x = n) then Some HazardPointer_new else hpl_slots σ !! x) as Hlook.
  { intros x. simpl. destruct (decide (x = n)) as [->|Hx]; [apply lookup_fresh|].
    destruct (decide (x < n)%nat); [by rewrite lookup_app_l|].
    rewrite !lookup_ge_None_2; [done|subst n; lia|]. rewrite length_app. simpl. subst n. lia. }
  assert (hpl_slots σ !! n = None) as Hn by (apply lookup_ge_None_2; subst n; lia).
  assert (∀ x, flag_at σ' x = flag_at σ x) as Hflags.
  { intros x. unfold flag_at. rewrite Hlook. destruct (decide (x = n)) as [->|]; [|done].
    by rewrite Hn. }
  assert (∀ x, ptr_at σ' x = ptr_at σ x) as Hptrs.
  { intros x. unfold ptr_at. rewrite Hlook. destruct (decide (x = n)) as [->|]; [|done].
    by rewrite Hn. }
  assert (∀ x, next_at σ' x = next_at σ x) as Hnexts.
  { intros x. unfold next_at. rewrite Hlook. destruct (decide (x = n)) as [->|]; [|done].
    by rewrite Hn. }
  assert (registry σ' = registry σ) as Hreg.
  { apply registry_linked. simpl. by apply linked_app. }
  assert (∀ t0, n ∉ dom (v_fresh (G t0))) as Hnew.
  { intros t0 Hin. destruct (fits_valid σ G t0 n Hfit) as [? ?]; [tauto|congruence]. }
  split; rewrite ?Hreg.
  - split; [|done]. simpl. by apply linked_app.
  - intros a Ha. simpl in Ha. rewrite length_app in Ha. simpl in Ha.
    destruct (decide (a = n)) as [->|Han].
    + right. exists t. rewrite set_view_eq. simpl. set_solver.
    + destruct (Hcover a) as [|[t0 Ht0]]; [subst n; lia|by left|]. right. exists t0.
      view_of t0 t; [|done]. simpl. set_solver.
  - intros t0 a q Ha. rewrite Hflags, Hptrs, Hnexts, Hlook.
    assert (a ≠ n → v_fresh (G t0) !! a = Some q) as Hold.
    { intros Han. view_of t0 t; [|done]. simpl in Ha. by rewrite lookup_insert_ne in Ha. }
    destruct (decide (a = n)) as [->|Han].
    + assert (t0 = t) as ->.
      { destruct (decide (t0 = t)) as [|Hne0]; [done|]. rewrite set_view_ne in Ha by done.
        destruct (Hnew t0). apply elem_of_dom. by eexists. }
      rewrite set_view_eq in *. simpl in Ha. rewrite lookup_insert_eq in Ha. simplify_eq.
      split; [|split; [by eexists|]].
      * intros Hin. apply (linked_elem_valid _ _ _ _ Hl) in Hin. subst n. lia.
      * unfold next_at, ptr_at, flag_at. rewrite Hn. done.
    + destruct (Hfresh t0 a q (Hold Han)) as (? & ? & ? & ? & Hf).
      split; [done|]. split; [done|]. split; [done|]. split; [done|].
      intros Hno. apply Hf. by view_of t0 t.
  - intros t1 t2 a H1 H2.
    assert (∀ t0, a ∈ dom (v_fresh (set_view t s' G t0)) → a = n → t0 = t) as Howner.
    { intros t0 Hin ->. destruct (decide (t0 = t)) as [|Hne0]; [done|].
      rewrite set_view_ne in Hin by done. by destruct (Hnew t0). }
    destruct (decide (a = n)) as [->|Han].
    { rewrite (Howner t1 H1 eq_refl). by rewrite (Howner t2 H2 eq_refl). }
    apply (Hfone t1 t2 a).
    + view_of t1 t; [|done]. simpl in H1. set_solver.
    + view_of t2 t; [|done]. simpl in H2. set_solver.
  - intros t0 a. view_of t0 t; apply Hknown.
  - intros t0 a v Ha. rewrite Hflags, Hptrs. view_of t0 t; simpl in *.
    + destruct (Hown t a v Ha) as (? & ? & Hw). split; [done|]. split; [done|]. set_solver.
    + by apply Hown.
  - intros t1 t2 a. view_of t1 t; view_of t2 t; simpl; try done; apply Hoone.
  - intros a. rewrite Hflags, Hptrs. apply Hidle.
Qed.

(** A thread links a slot it has created in front of the chain. *)
Lemma fits_link σ G t b :
  fits σ G → v_fresh (G t) !! b = Some (hpl_head σ) →
  fits {| hpl_slots := hpl_slots σ; hpl_head := Some b; hpl_size := hpl_size σ |}
       (set_view t (know (Some b) (with_fresh (delete b (v_fresh (G t))) (G t))) G).
Proof.
  intros Hfit Hb. pose proof Hfit as [[Hl Hne] Hcover Hfresh Hfone Hknown Hown Hoone Hidle].
  set (σ' := {| hpl_slots := hpl_slots σ; hpl_head := Some b; hpl_size := hpl_size σ |}).
  destruct (Hfresh t b _ Hb) as (Hout & [hp Hhp] & Hnext & Hptr & Hflag).
  assert (linked (hpl_slots σ') (hpl_head σ') (b :: registry σ)) as Hl'.
  { simpl. econstructor; [done|]. unfold next_at in Hnext. rewrite Hhp in Hnext.
    simpl in Hnext. by rewrite Hnext. }
  assert (registry σ' = b :: registry σ) as Hreg by by apply registry_linked.
  split; rewrite ?Hreg.
  - done.
  - intros a Ha. destruct (decide (a = b)) as [->|Hab]; [left; by left|].
    destruct (Hcover a Ha) as [|[t0 Ht0]]; [left; by right|]. right. exists t0.
    view_of t0 t; [|done]. simpl. set_solver.
  - intros t0 a q Ha.
    assert (v_fresh (G t0) !! a = Some q ∧ a ≠ b) as [Ha' Hab].
    { view_of t0 t.
      - simpl in Ha. apply lookup_delete_Some in Ha as [? ?]. done.
      - split; [done|]. intros ->. assert (t0 = t); [|done].
        apply (Hfone t0 t b); apply elem_of_dom; by eexists. }
    destruct (Hfresh t0 a q Ha') as (? & ? & ? & ? & Hf).
    split; [set_solver|]. split; [done|]. split; [done|]. split; [done|].
    intros Hno. apply Hf. by view_of t0 t.
  - intros t1 t2 a H1 H2. apply (Hfone t1 t2 a).
    + view_of t1 t; [|done]. simpl in H1. set_solver.
    + view_of t2 t; [|done]. simpl in H2. set_solver.
  - intros t0 a Ha. view_of t0 t.
    + simpl in Ha. apply elem_of_union in Ha as [->%elem_of_singleton|Ha]; [by left|].
      right. by apply (Hknown t).
    + right. by apply (Hknown t0).
  - intros t0 a v Ha.
    assert (v_own (G t0) !! a = Some v) as Ha' by by view_of t0 t.
    destruct (Hown t0 a v Ha') as (? & ? & Hw). split; [done|]. split; [done|].
    destruct (decide (a = b)) as [->|Hab]; [left; by left|].
    destruct Hw as [|Hw]; [left; by right|]. right. view_of t0 t; [|done]. simpl. set_solver.
  - intros t1 t2 a. view_of t1 t; view_of t2 t; simpl; try done; apply Hoone.
  - done.
Qed.

Lemma fits_keep σ G t : fits σ G → fits σ (set_view t (G t) G).
Proof. intros Hfit. apply fits_same; [done..|]. apply (fit_known _ _ Hfit). Qed.

Lemma fits_know σ G t x :
  fits σ G → (∀ a, x = Some a → a ∈ registry σ) → fits σ (set_view t (know x (G t)) G).
Proof.
  intros Hfit Hx. destruct x as [a|]; [|by apply fits_keep].
  apply fits_same; [done..|]. simpl. intros b [->%elem_of_singleton|Hb]%elem_of_union.
  - by apply Hx.
  - by apply (fit_known _ _ Hfit t).
Qed.

(** An operation that the view of a thread allows gets an answer the
    thread expects, and the views fit the registry afterwards. *)
Lemma fits_exec σ G t a x σ' :
  fits σ G → may (G t) a → exec a σ = Some (x, σ') →
  answers (G t) a x ∧ fits σ' (set_view t (learn (G t) a x) G).
Proof.
  intros Hfit Hmay Hexec. pose proof (fit_linked _ _ Hfit) as [Hl Hne].
  destruct (fits_head σ G Hfit) as (h & Hh & Hhin).
  destruct a as [| expected desired| | | |b|b|b|b v|b|b q|f arg|]; simpl in Hexec, Hmay.
  - simplify_eq. split; [simpl; by rewrite Hh|]. cbn [learn].
    apply fits_know; [done|]. intros a. rewrite Hh. by intros [= <-].
  - destruct Hmay as (b & -> & Hb). destruct (decide (hpl_head σ = expected)) as [<-|Hne'].
    + simplify_eq. split; [done|]. cbn [learn fst]. by apply fits_link.
    + simplify_eq. split; [simpl; by rewrite Hh|]. cbn [learn fst snd].
      apply fits_know; [done|]. intros a. rewrite Hh. by intros [= <-].
  - simplify_eq. split; [done|]. by apply fits_keep.
  - simplify_eq. split; [done|]. by apply fits_keep, fits_size.
  - simplify_eq. split; [|by apply fits_new]. simpl.
    assert (hpl_slots σ !! length (hpl_slots σ) = None) as Hn by by apply lookup_ge_None_2.
    split; [|split]; intros Hin;
      (destruct (fits_valid σ G t (length (hpl_slots σ)) Hfit) as [? ?]; [tauto|congruence]).
  - destruct (hpl_slots σ !! b) as [hp|] eqn:Hhp; [|done]. unfold set_slot in Hexec.
    rewrite Hhp in Hexec. simpl in Hexec. simplify_eq.
    assert (flag_at σ b = hp_flag hp) as Hflag by by apply flag_at_lookup.
    assert (ptr_at (update_slot b (set_flag true) σ) b = ptr_at σ b) as Hptr
      by by apply ptr_at_update.
    assert (flag_at (update_slot b (set_flag true) σ) b = true) as Hset.
    { unfold flag_at. by rewrite update_slot_lookup_eq, Hhp. }
    assert (∀ t' q, v_fresh (G t') !! b = Some q → t' = t) as Hmine.
    { intros t' q Hq. destruct (fit_fresh _ _ Hfit t' b q Hq) as (Hout & _).
      destruct Hmay as [Hk|Hf]; [by destruct Hout; eapply fit_known|].
      apply (fit_fresh_one _ _ Hfit t' t b); [|done]. apply elem_of_dom. by eexists. }
    split.
    + simpl. split.
      * intros [v Hv]%elem_of_dom. destruct (fit_own _ _ Hfit t b v Hv) as (? & _). congruence.
      * intros [q Hq]%elem_of_dom Hno.
        destruct (fit_fresh _ _ Hfit t b q Hq) as (_ & _ & _ & _ & Hf). rewrite <-Hflag. auto.
    + cbn [learn]. destruct (hp_flag hp) eqn:Hwas.
      * apply fits_alter; try done.
        -- intros v Hv. destruct (fit_own _ _ Hfit t b v Hv) as (_ & Hp & Hw).
           split; [done|]. split; [congruence|]. split; [done|].
           intros t' Hne' Hin. apply Hne'. apply (fit_own_one _ _ Hfit t' t b); [done|].
           apply elem_of_dom. by eexists.
        -- intros t' v _ Hv. destruct (fit_own _ _ Hfit t' b v Hv) as (_ & Hp & _).
           split; [done|congruence].
        -- congruence.
        -- intros t' q Hq. pose proof (Hmine t' q Hq) as ->.
           destruct (fit_fresh _ _ Hfit t b q Hq) as (_ & _ & _ & Hp & Hf).
           split; [congruence|]. split; [done|]. intros _ Hno. specialize (Hf Hno). congruence.
      * assert (∀ t' v, v_own (G t') !! b = Some v → False) as Hfree.
        { intros t' v Hv. destruct (fit_own _ _ Hfit t' b v Hv) as (? & _). congruence. }
        apply fits_alter; try done.
        -- intros a Ha. simpl. by rewrite lookup_insert_ne.
        -- intros v. simpl. rewrite lookup_insert_eq. intros [= <-].
           split; [done|]. split; [rewrite Hptr; apply (fit_idle _ _ Hfit); congruence|].
           split; [destruct Hmay as [Hk|Hf]; [left; by eapply fit_known|by right]|].
           intros t' _ [v Hv]%elem_of_dom. by eapply Hfree.
        -- intros t' v _ Hv. by destruct (Hfree t' v).
        -- congruence.
        -- intros t' q Hq. pose proof (Hmine t' q Hq) as ->.
           destruct (fit_fresh _ _ Hfit t b q Hq) as (_ & _ & _ & Hp & Hf).
           split; [congruence|]. split; [done|]. intros _ Hno. destruct Hno. simpl.
           set_solver.
  - destruct Hmay as [Hown Hk]. unfold set_slot in Hexec.
    destruct (hpl_slots σ !! b) as [hp|] eqn:Hhp; [|done]. simpl in Hexec. simplify_eq.
    split; [done|]. cbn [learn].
    destruct (fit_own _ _ Hfit t b _ Hown) as (Hflag & Hptr & _).
    assert (b ∈ registry σ) as Hin by by eapply fit_known.
    apply fits_alter; try done.
    + intros a Ha. simpl. by rewrite lookup_delete_ne.
    + intros v. simpl. by rewrite lookup_delete_eq.
    + intros t' v Hne' Hv. destruct Hne'. apply (fit_own_one _ _ Hfit t' t b).
      * apply elem_of_dom. by eexists.
      * apply elem_of_dom. by eexists.
    + intros _. by rewrite ptr_at_update.
    + intros t' q Hq. by destruct (fit_fresh _ _ Hfit t' b q Hq) as (Hout & _).
  - destruct (hpl_slots σ !! b) as [hp|] eqn:Hhp; [|done]. simpl in Hexec. simplify_eq.
    split; [|by apply fits_keep]. simpl. intros v Hv.
    destruct (fit_own _ _ Hfit t b v Hv) as (_ & Hp & _).
    by rewrite <-Hp, (ptr_at_lookup _ _ _ Hhp).
  - destruct Hmay as [[v0 Hown]%elem_of_dom Hk]. unfold set_slot in Hexec.
    destruct (hpl_slots σ !! b) as [hp|] eqn:Hhp; [|done]. simpl in Hexec. simplify_eq.
    split; [done|]. cbn [learn].
    destruct (fit_own _ _ Hfit t b _ Hown) as (Hflag & Hptr & _).
    assert (b ∈ registry σ) as Hin by by eapply fit_known.
    assert (flag_at (update_slot b (set_ptr v) σ) b = true) as Hflag'
      by by rewrite flag_at_update.
    apply fits_alter; try done.
    + intros a Ha. simpl. by rewrite lookup_insert_ne.
    + intros v'. simpl. rewrite lookup_insert_eq. intros [= <-]. split; [done|].
      split; [unfold ptr_at; by rewrite update_slot_lookup_eq, Hhp|]. split; [by left|].
      intros t' Hne' Hin'. apply Hne'. apply (fit_own_one _ _ Hfit t' t b); [done|].
      apply elem_of_dom. by eexists.
    + intros t' v' Hne' Hv. destruct Hne'. apply (fit_own_one _ _ Hfit t' t b).
      * apply elem_of_dom. by eexists.
      * apply elem_of_dom. by eexists.
    + congruence.
    + intros t' q Hq. by destruct (fit_fresh _ _ Hfit t' b q Hq) as (Hout & _).
  - destruct (hpl_slots σ !! b) as [hp|] eqn:Hhp; [|done]. simpl in Hexec. simplify_eq.
    split; [done|]. cbn [learn]. apply fits_know; [done|]. intros a Ha.
    eapply linked_next; [done|by eapply fit_known|]. by rewrite Hhp.
  - unfold set_slot in Hexec.
    destruct (hpl_slots σ !! b) as [hp|] eqn:Hhp; [|done]. simpl in Hexec. simplify_eq.
    split; [done|]. cbn [learn]. by apply fits_next_store.
  - simplify_eq. split; [done|]. by apply fits_keep.
  - simplify_eq. split; [done|]. by apply fits_keep.
Qed.

(** ** Interleavings keep the views coherent *)

Lemma learn_hold s a x : may s a → v_own (learn s a x) = hold (v_own s) (observe a x).
Proof.
  intros Hmay. destruct a; simpl in *; try done.
  - destruct x; done.
  - destruct x as [[] ?]; simpl; [|by destruct o]. by destruct desired.
  - by destruct x.
  - destruct Hmay as [Hown _]. by rewrite decide_True.
  - by destruct x.
Qed.

Lemma held_snoc tr e : held (tr ++ [e]) = hold (held tr) e.
Proof. unfold held. by rewrite foldl_app. Qed.

Lemma step_coherent t w G : coherent w G → ∃ G', coherent (step t w) G'.
Proof.
  intros [Hfit Hheld Hrun Habs]. unfold step.
  destruct (running w !! t) as [[x|e|a k]|] eqn:Ht; [by exists G..| |by exists G].
  destruct (Hrun _ _ Ht) as [Hmay Hk].
  destruct (may_exec _ _ _ _ Hfit Hmay) as [[x σ'] Hexec]. rewrite Hexec.
  destruct (fits_exec _ _ _ _ _ _ Hfit Hmay Hexec) as [Hans Hfit'].
  exists (set_view t (learn (G t) a x) G). split; simpl.
  - done.
  - intros t0. rewrite events_of_app. simpl. view_of t0 t.
    + rewrite decide_True by done. simpl. by rewrite held_snoc, <-Hheld, learn_hold.
    + rewrite decide_False by done. simpl. by rewrite app_nil_r.
  - intros t0 m. view_of t0 t.
    + rewrite list_lookup_insert_eq by by eapply lookup_lt_Some. intros [= <-]. by apply Hk.
    + rewrite list_lookup_insert_ne by done. apply Hrun.
  - intros t0 Hnone. view_of t0 t.
    + rewrite list_lookup_insert_eq in Hnone by by eapply lookup_lt_Some. done.
    + rewrite list_lookup_insert_ne in Hnone by done. by apply Habs.
Qed.

Lemma steps_coherent schedule : ∀ w G,
  coherent w G → ∃ G', coherent (steps schedule w) G'.
Proof.
  induction schedule as [|t schedule IH]; intros w G Hw; [by exists G|].
  destruct (step_coherent t w G Hw) as [G1 Hw1]. by apply (IH _ G1).
Qed.

Lemma settled_new : settled Reclaimer_new view_new.
Proof. split; [constructor|]. split; [by intros ? ?%elem_of_nil|done]. Qed.

Lemma start_coherent fuel css : coherent (start fuel css) (λ _, view_new).
Proof.
  split; simpl.
  - split; simpl; try done.
    + split; [|done]. by repeat econstructor.
    + intros a Ha. left. assert (a = 0%nat) as -> by lia. by left.
    + intros [|a]; [done|]. intros _. unfold ptr_at. simpl. by destruct a.
  - intros t. by destruct (events_of t []) eqn:E.
  - intros t m. rewrite list_lookup_fmap. destruct (css !! t) as [cs|]; [|done].
    intros [= <-]. apply thread_main_view, settled_new.
  - done.
Qed.

Lemma reachable_coherent fuel css schedule :
  ∃ G, coherent (steps schedule (start fuel css)) G.
Proof. eapply steps_coherent, start_coherent. Qed.

(** X9: in every interleaving no thread ever makes an invalid access: no
    operation goes through a null pointer or a pointer that names no slot,
    [hazard_pointers_] is not read past its end, and [Pop] does not find
    the head of the pool null. *)
Theorem no_invalid_access fuel css schedule t :
  running (steps schedule (start fuel css)) !! t ≠ Some (Throw InvalidAccess).
Proof.
  destruct (reachable_coherent fuel css schedule) as [G [_ _ Hrun _]].
  intros Ht. by apply (Hrun t _ Ht).
Qed.

(** X10: in every interleaving, a slot that a thread holds (its
    [test_and_set] found the flag clear and it has not cleared the flag
    since) has its flag set, holds the pointer the thread stored in it last
    (none if it stored none), is a slot that exists, and is held by no
    other thread; and a slot whose flag is clear holds no pointer. *)
Theorem held_slots_are_exclusive fuel css schedule :
  let w := steps schedule (start fuel css) in
  (∀ t a v, held (events_of t (history w)) !! a = Some v →
     flag_at (shared w) a = true ∧ ptr_at (shared w) a = v
     ∧ (a < length (hpl_slots (shared w)))%nat
     ∧ ∀ t', a ∈ dom (held (events_of t' (history w))) → t' = t)
  ∧ (∀ a, flag_at (shared w) a = false → ptr_at (shared w) a = nullptr).
Proof.
  intros w. destruct (reachable_coherent fuel css schedule) as [G [Hfit Hheld _ _]].
  fold w in Hfit, Hheld. split; [|apply (fit_idle _ _ Hfit)].
  intros t a v Ha. rewrite <-Hheld in Ha.
  destruct (fit_own _ _ Hfit t a v Ha) as (Hflag & Hptr & _).
  split; [done|]. split; [done|]. split.
  - by apply lookup_lt_is_Some, flag_at_true_valid.
  - intros t' Ht'. rewrite <-Hheld in Ht'. apply (fit_own_one _ _ Hfit t' t a); [done|].
    apply elem_of_dom. by eexists.
Qed.

(** X11: in every interleaving the slots linked from the head form a chain
    without repetition that is never empty; when every thread has returned,
    the chain goes through every slot created, so the destructor of the
    registry deletes each of them once. *)
Theorem registry_is_a_chain fuel css schedule :
  let w := steps schedule (start fuel css) in
  linked (hpl_slots (shared w)) (hpl_head (shared w)) (registry (shared w))
  ∧ registry (shared w) ≠ [] ∧ NoDup (registry (shared w))
  ∧ ((∀ t m, running w !! t = Some m → m = Ret ()) →
     registry (shared w) ≡ₚ seq 0 (length (hpl_slots (shared w)))
     ∧ ∀ fuel', (length (hpl_slots (shared w)) ≤ fuel')%nat →
         HazardPointerList_destroy fuel' (shared w) = (registry (shared w), Returned ())).
Proof.
  intros w. destruct (reachable_coherent fuel css schedule) as [G [Hfit _ Hrun Habs]].
  fold w in Hfit, Hrun, Habs. destruct (fit_linked _ _ Hfit) as [Hl Hne].
  pose proof (linked_NoDup _ _ _ Hl) as Hnd.
  split; [done|]. split; [done|]. split; [done|]. intros Hdone.
  assert (∀ t, v_fresh (G t) = ∅) as Hfresh.
  { intros t. destruct (running w !! t) as [m|] eqn:Ht; [|by apply Habs].
    specialize (Hrun t m Ht). by rewrite (Hdone t m Ht) in Hrun. }
  split.
  - apply NoDup_Permutation; [done|apply NoDup_seq|]. intros a. rewrite elem_of_seq. split.
    + intros Ha%(linked_elem_valid _ _ _ _ Hl). lia.
    + intros [_ Ha]. destruct (fit_cover _ _ Hfit a) as [|[t Ht]]; [lia|done|].
      rewrite Hfresh in Ht. set_solver.
  - intros fuel' Hfuel. unfold HazardPointerList_destroy.
    rewrite (destroy_loop_linked (registry (shared w))); [done|done|done|].
    pose proof (linked_length _ _ _ Hl). lia.
Qed.

Lemma registry_is_a_chain_witness :
  let w := steps (replicate 3 0 ++ replicate 7 1 ++ replicate 10 2 ++ replicate 5 1)%nat
             (start 3 [[req_GetHazardPtr 0]; [req_GetHazardPtr 0]; [req_GetHazardPtr 0]]) in
  (∀ t m, running w !! t = Some m → m = Ret ())
  ∧ registry (shared w) = [1; 2; 0]%nat
  ∧ HazardPointerList_destroy 3 (shared w) = ([1; 2; 0]%nat, Returned ()).
Proof.
  intros w.
  assert (∀ t m, running w !! t = Some m → m = Ret ()) as Hdone.
  { intros [|[|[|t]]] m; vm_compute; congruence. }
  assert (registry (shared w) = [1; 2; 0]%nat) as Hreg by (vm_compute; reflexivity).
  split; [exact Hdone|]. split; [exact Hreg|].
  destruct (registry_is_a_chain 3 [[req_GetHazardPtr 0]; [req_GetHazardPtr 0];
                                   [req_GetHazardPtr 0]]
              (replicate 3 0 ++ replicate 7 1 ++ replicate 10 2 ++ replicate 5 1)%nat)
    as (_ & _ & _ & Hend).
  destruct (Hend Hdone) as [_ Hdestroy]. fold w in Hdestroy.
  rewrite <-Hreg. apply Hdestroy. vm_compute. lia.
Defined.

(** ** Monitors that refuse destroyer calls only *)

Section NoCalls.
Context {S : Type} (mon : S → event → option S).
Hypothesis accepts : ∀ s e, (∀ f arg, e ≠ ev_call f arg) → is_Some (mon s e).

Local Ltac accept_step :=
  try unfold perform at 1; cbn [bind];
  lazymatch goal with
  | |- wp _ (Act ?a _) ?s _ =>
      let x := fresh "x" in
      let s' := fresh "s" in
      let Hs' := fresh "Hs" in
      intros x; destruct (accepts s (observe a x)) as [s' Hs']; [done|];
      exists s'; split; [exact Hs'|]; clear Hs'; cbn [bind perform]
  | |- wp _ (deref _ _) _ _ =>
      let a := fresh "a" in apply wp_deref; intros a ->; cbn [bind perform]
  | |- wp _ (Ret _) _ _ => cbn [wp]
  | |- wp _ (Throw _) _ _ => exact I
  end.

Lemma find_accepted fuel : ∀ p s (Φ : option nat → S → Prop),
  (∀ x s', Φ x s') → wp mon (TryAcquireHazardPointer_find fuel p) s Φ.
Proof.
  induction fuel as [|fuel IH]; intros p s Φ HΦ; [done|].
  cbn [TryAcquireHazardPointer_find]. accept_step. accept_step.
  destruct (negb x); [by accept_step|]. accept_step.
  destruct x0; [by apply IH|by accept_step].
Qed.

Lemma push_accepted fuel : ∀ new_head old_head s (Φ : unit → S → Prop),
  (∀ x s', Φ x s') → wp mon (TryAcquireHazardPointer_push fuel new_head old_head) s Φ.
Proof.
  induction fuel as [|fuel IH]; intros new_head old_head s Φ HΦ; [done|].
  cbn [TryAcquireHazardPointer_push]. accept_step. accept_step.
  destruct x0 as [[] current]; [by accept_step|by apply IH].
Qed.

Lemma TryAcquireHazardPointer_accepted fuel index r s (Φ : Reclaimer → S → Prop) :
  (∀ r' s', reclaim_map_ r' = reclaim_map_ r → Φ r' s') →
  wp mon (TryAcquireHazardPointer fuel index r) s Φ.
Proof.
  intros HΦ. unfold TryAcquireHazardPointer.
  destruct (negb _); [done|]. destruct (_ <? _); [accept_step; by apply HΦ|].
  accept_step. apply wp_bind, find_accepted. intros [a|] s'.
  - cbn [bind]. accept_step. by apply HΦ.
  - do 4 accept_step.
    apply wp_bind, wp_bind, push_accepted. intros _ s''. simpl. by apply HΦ.
Qed.

Lemma handover_accepted hps : ∀ s (Φ : unit → S → Prop),
  (∀ s', Φ () s') → wp mon (Reclaimer_destroy_handover hps) s Φ.
Proof.
  induction hps as [|a hps IH]; intros s Φ HΦ; [by apply HΦ|].
  cbn [Reclaimer_destroy_handover]. accept_step.
  destruct (decide (nullptr = x)); [|done]. accept_step. by apply IH.
Qed.

End NoCalls.

(** ** Traversals *)

Lemma traverse_accepts s e : (∀ f arg, e ≠ ev_call f arg) → is_Some (traverse s e).
Proof. intros He. destruct e; try by eexists. by destruct (He f arg). Qed.

Ltac traverse_step :=
  try unfold perform at 1; cbn [bind];
  lazymatch goal with
  | |- wp _ (Act _ _) _ _ =>
      let x := fresh "x" in intros x; eexists; split; [reflexivity|]; cbn [bind perform]
  | |- wp _ (Ret _) _ _ => cbn [wp]
  | |- wp _ (Throw _) _ _ => exact I
  end.

Lemma collect_traverse fuel : ∀ p set s (Φ : gset N → traversal → Prop),
  tr_cursor s = Some p → tr_read s = false → tr_seen s ⊆ set →
  (∀ set' s', tr_cursor s' = Some None → tr_seen s' ⊆ set' → Φ set' s') →
  wp traverse (ReclaimNoHazardPointer_collect fuel p set) s Φ.
Proof.
  induction fuel as [|fuel IH]; intros p set s Φ Hc Hr Hsub HΦ; [done|].
  cbn [ReclaimNoHazardPointer_collect]. destruct p as [a|]; [|done]. cbn [deref].
  traverse_step. rewrite (decide_True (P := tr_cursor s = Some (Some a))) by done.
  traverse_step. cbn [tr_cursor tr_read]. rewrite (decide_True (P := _ ∧ _)) by done.
  cbn [tr_head tr_visited tr_seen].
  assert ((if decide (nullptr ≠ x) then {[x]} ∪ tr_seen s else tr_seen s)
          ⊆ (if decide (nullptr ≠ x) then {[x]} ∪ set else set)) as Hsub'.
  { destruct (decide (nullptr ≠ x)); set_solver. }
  destruct x0 as [q|]; [by apply IH|]. traverse_step. by apply HΦ.
Qed.

Lemma invoke_traverse f arg s (Φ : unit → traversal → Prop) :
  tr_cursor s = Some None → arg ∉ tr_seen s → Φ () s → wp traverse (invoke f arg) s Φ.
Proof.
  intros Hc Harg HΦ. destruct f; [|done]. cbn [invoke]. unfold perform.
  intros []. exists s. simpl. by rewrite decide_True.
Qed.

Lemma sweep_traverse entries : ∀ set r s (Φ : Reclaimer → traversal → Prop),
  Forall (λ kv : N * ReclaimNode, node_ptr kv.2 = kv.1) entries →
  tr_cursor s = Some None → tr_seen s ⊆ set → keys_ok r →
  (∀ r', keys_ok r' → Φ r' s) →
  wp traverse (ReclaimNoHazardPointer_sweep entries set r) s Φ.
Proof.
  induction entries as [|[k node] entries IH]; intros set r s Φ Hkeys Hc Hsub Hr HΦ;
    [by apply HΦ|].
  apply Forall_cons in Hkeys as [Hk Hkeys]. simpl in Hk.
  cbn [ReclaimNoHazardPointer_sweep]. destruct (decide _) as [|Hout]; [by apply IH|].
  apply wp_bind, invoke_traverse; [done|set_solver|].
  apply IH; [done|done|done| |done]. by apply keys_ok_delete.
Qed.

Lemma Hazard_loop_traverse fuel : ∀ p key s (Φ : bool → traversal → Prop),
  tr_cursor s = Some p → tr_read s = false → key ∉ tr_seen s →
  (∀ b s', (b = false → tr_cursor s' = Some None ∧ key ∉ tr_seen s') → Φ b s') →
  wp traverse (Hazard_loop fuel p key) s Φ.
Proof.
  induction fuel as [|fuel IH]; intros p key s Φ Hc Hr Hkey HΦ; [done|].
  cbn [Hazard_loop]. destruct p as [a|]; [|done]. cbn [deref].
  traverse_step. rewrite (decide_True (P := tr_cursor s = Some (Some a))) by done.
  destruct (decide (x = key)) as [Heq|Hne]; [traverse_step; by apply HΦ|].
  traverse_step. cbn [tr_cursor tr_read]. rewrite (decide_True (P := _ ∧ _)) by done.
  cbn [tr_head tr_visited tr_seen].
  assert (key ∉ (if decide (nullptr ≠ x) then {[x]} ∪ tr_seen s else tr_seen s)) as Hkey'.
  { destruct (decide (nullptr ≠ x)); set_solver. }
  destruct x0 as [q|]; [by apply IH|]. traverse_step. by apply HΦ.
Qed.

Lemma wait_traverse fuel spins : ∀ key s (Φ : unit → traversal → Prop),
  (∀ s', tr_cursor s' = Some None → key ∉ tr_seen s' → Φ () s') →
  wp traverse (Reclaimer_destroy_wait fuel spins key) s Φ.
Proof.
  induction spins as [|spins IH]; intros key s Φ HΦ; [done|].
  cbn [Reclaimer_destroy_wait]. apply wp_bind. unfold Hazard. traverse_step.
  apply Hazard_loop_traverse; [done|done|set_solver|]. intros [] s' Hs'.
  - traverse_step. by apply IH.
  - traverse_step. destruct Hs'; [done|]. by apply HΦ.
Qed.

Lemma drain_traverse fuel entries : ∀ r s (Φ : Reclaimer → traversal → Prop),
  Forall (λ kv : N * ReclaimNode, node_ptr kv.2 = kv.1) entries →
  keys_ok r → (∀ r' s', keys_ok r' → Φ r' s') →
  wp traverse (Reclaimer_destroy_drain fuel entries r) s Φ.
Proof.
  induction entries as [|[k node] entries IH]; intros r s Φ Hkeys Hr HΦ; [by apply HΦ|].
  apply Forall_cons in Hkeys as [Hk Hkeys]. simpl in Hk.
  cbn [Reclaimer_destroy_drain]. apply wp_bind, wait_traverse. intros s' Hc Hs'.
  apply wp_bind, invoke_traverse; [done|by rewrite Hk|].
  apply IH; [done| |done]. by apply keys_ok_delete.
Qed.

(** Whatever its operations return, a request calls a destroyer only at
    the end of a traversal of the chain from the head it loaded last, and
    only on an address it has not read from a slot of that traversal. *)
Lemma serve_traverse fuel c r s (Φ : Reclaimer → traversal → Prop) :
  keys_ok r → (∀ r' s', keys_ok r' → Φ r' s') → wp traverse (serve fuel c r) s Φ.
Proof.
  intros Hr HΦ. destruct c as [index ptr|index|ptr func| |]; cbn [serve].
  - unfold MarkHazard.
    apply wp_bind, TryAcquireHazardPointer_accepted; [apply traverse_accepts|].
    intros r' s' Hr'. unfold hazard_pointers_at. destruct (_ !! _) as [a|]; [|done].
    traverse_step. traverse_step. by eapply HΦ, keys_ok_same_map.
  - apply wp_bind. unfold GetHazardPtr.
    apply wp_bind, TryAcquireHazardPointer_accepted; [apply traverse_accepts|].
    intros r' s' Hr'. unfold hazard_pointers_at. destruct (_ !! _) as [a|]; [|done].
    traverse_step. traverse_step. by eapply HΦ, keys_ok_same_map.
  - unfold ReclaimLater. destruct (ReclaimPool.Pop _) as [[? pool]|]; simpl; [|done].
    apply HΦ. unfold keys_ok, map_insert_new. simpl.
    destruct (reclaim_map_ r !! ptr); [done|]. by apply map_Forall_insert_2.
  - unfold ReclaimNoHazardPointer. traverse_step.
    destruct (_ <? _); [traverse_step; by apply HΦ|]. traverse_step.
    apply wp_bind, collect_traverse; [done|done|done|]. intros set s' Hc Hsub.
    apply sweep_traverse; [by apply keys_ok_entries|done|done|done|]. intros r'. apply HΦ.
  - apply wp_bind. unfold Reclaimer_destroy.
    apply wp_bind, handover_accepted; [apply traverse_accepts|]. intros s'.
    apply drain_traverse; [by apply keys_ok_entries|done|]. intros r' s'' _.
    simpl. by apply HΦ.
Qed.

Lemma thread_main_traverse fuel cs : ∀ r s,
  keys_ok r → wp traverse (thread_main fuel cs r) s (λ _ _, True).
Proof.
  induction cs as [|c cs IH]; intros r s Hr; [done|].
  cbn [thread_main]. apply wp_bind, serve_traverse; [done|]. intros r' s' Hr'. by apply IH.
Qed.

Lemma reachable_traversed fuel css schedule :
  accepted (λ _, traverse) (λ _, traversal_new) (steps schedule (start fuel css)).
Proof.
  apply steps_accepted, start_accepted. intros t cs _.
  apply thread_main_traverse, map_Forall_empty.
Qed.

(** ** Chains and pointers across an operation *)

(** An operation that the view of a thread allows keeps the chains that
    lie in the registry. *)
Lemma exec_chain σ G t a x σ' p l :
  fits σ G → may (G t) a → exec a σ = Some (x, σ') →
  linked (hpl_slots σ) p l → (∀ c, c ∈ l → c ∈ registry σ) →
  linked (hpl_slots σ') p l.
Proof.
  intros Hfit Hmay Hexec Hl Hin.
  destruct a as [| expected desired| | | |b|b|b|b v|b|b q|f arg|]; simpl in Hexec, Hmay;
    try (by simplify_eq).
  - destruct (decide _); by simplify_eq.
  - simplify_eq. simpl. by apply linked_app.
  - destruct (hpl_slots σ !! b) as [hp|] eqn:Hhp; [|done]. unfold set_slot in Hexec.
    rewrite Hhp in Hexec. simpl in Hexec. simplify_eq. simpl. by apply linked_alter.
  - unfold set_slot in Hexec. destruct (hpl_slots σ !! b) as [hp|] eqn:Hhp; [|done].
    simpl in Hexec. simplify_eq. simpl. by apply linked_alter.
  - destruct (hpl_slots σ !! b) as [hp|] eqn:Hhp; [|done]. simpl in Hexec. by simplify_eq.
  - unfold set_slot in Hexec. destruct (hpl_slots σ !! b) as [hp|] eqn:Hhp; [|done].
    simpl in Hexec. simplify_eq. simpl. by apply linked_alter.
  - destruct (hpl_slots σ !! b) as [hp|] eqn:Hhp; [|done]. simpl in Hexec. by simplify_eq.
  - unfold set_slot in Hexec. destruct (hpl_slots σ !! b) as [hp|] eqn:Hhp; [|done].
    simpl in Hexec. simplify_eq. simpl. apply linked_alter_outside; [|done].
    intros Hb. apply elem_of_dom in Hmay as [q0 Hq0].
    destruct (fit_fresh _ _ Hfit t b q0 Hq0) as (Hout & _). by apply Hout, Hin.
Qed.

(** It takes no slot out of the registry. *)
Lemma exec_registry σ G t a x σ' c :
  fits σ G → may (G t) a → exec a σ = Some (x, σ') →
  c ∈ registry σ → c ∈ registry σ'.
Proof.
  intros Hfit Hmay Hexec Hc. destruct (fit_linked _ _ Hfit) as [Hl Hne].
  pose proof (exec_chain _ _ _ _ _ _ _ _ Hfit Hmay Hexec Hl (λ c Hc, Hc)) as Hl'.
  destruct (decide (hpl_head σ' = hpl_head σ)) as [Hhead|Hhead].
  { rewrite <-Hhead in Hl'. by rewrite (registry_linked _ _ Hl'). }
  destruct a as [| expected desired| | | |b|b|b|b v|b|b q|f arg|]; simpl in Hexec, Hmay;
    try (by simplify_eq);
    try (unfold set_slot in Hexec; destruct (hpl_slots σ !! b) as [hp|]; [|done];
         simpl in Hexec; by simplify_eq).
  destruct Hmay as (b & -> & Hb). destruct (decide (hpl_head σ = expected)) as [<-|];
    [|by simplify_eq].
  simplify_eq. destruct (fit_fresh _ _ Hfit t b _ Hb) as (_ & [hp Hhp] & Hnext & _).
  simpl in Hl'.
  assert (linked (hpl_slots σ) (Some b) (b :: registry σ)) as Hl''.
  { econstructor; [done|]. unfold next_at in Hnext. rewrite Hhp in Hnext. simpl in Hnext.
    by rewrite Hnext. }
  rewrite (registry_linked {| hpl_slots := hpl_slots σ; hpl_head := Some b;
                              hpl_size := hpl_size σ |} _ Hl''). by right.
Qed.

(** Only a store changes the pointer of a slot. *)
Lemma exec_ptr_at a σ x σ' b :
  exec a σ = Some (x, σ') → (∀ v, observe a x ≠ ev_ptr_store b v) →
  ptr_at σ' b = ptr_at σ b.
Proof.
  intros Hexec Hb.
  destruct a as [| expected desired| | | |c|c|c|c v|c|c q|f arg|]; simpl in Hexec;
    try (by simplify_eq).
  - destruct (decide _); by simplify_eq.
  - simplify_eq. unfold ptr_at. simpl.
    destruct (decide (b < length (hpl_slots σ))%nat); [by rewrite lookup_app_l|].
    rewrite (lookup_ge_None_2 (hpl_slots σ)) by lia.
    destruct (decide (b = length (hpl_slots σ))) as [->|]; [by rewrite lookup_fresh|].
    rewrite lookup_ge_None_2; [done|]. rewrite length_app. simpl. lia.
  - destruct (hpl_slots σ !! c) as [hp|] eqn:Hhp; [|done]. unfold set_slot in Hexec.
    rewrite Hhp in Hexec. simpl in Hexec. simplify_eq. by apply ptr_at_update.
  - unfold set_slot in Hexec. destruct (hpl_slots σ !! c) as [hp|] eqn:Hhp; [|done].
    simpl in Hexec. simplify_eq. by apply ptr_at_update.
  - destruct (hpl_slots σ !! c) as [hp|] eqn:Hhp; [|done]. simpl in Hexec. by simplify_eq.
  - unfold set_slot in Hexec. destruct (hpl_slots σ !! c) as [hp|] eqn:Hhp; [|done].
    simpl in Hexec. simplify_eq. apply ptr_at_update_ne. intros ->. by apply (Hb v).
  - destruct (hpl_slots σ !! c) as [hp|] eqn:Hhp; [|done]. simpl in Hexec. by simplify_eq.
  - unfold set_slot in Hexec. destruct (hpl_slots σ !! c) as [hp|] eqn:Hhp; [|done].
    simpl in Hexec. simplify_eq. by apply ptr_at_update.
Qed.

(** ** A pointer published before the head is loaded *)

Lemma on_track_exec σ G t a x σ' b p s :
  fits σ G → may (G t) a → exec a σ = Some (x, σ') →
  on_track σ b p s → on_track σ' b p s.
Proof.
  intros Hfit Hmay Hexec Htrack q Hq.
  destruct (Htrack q Hq) as (rest & Hl & Hin & Hb & Hseen & Hread).
  exists rest. split; [by eapply exec_chain|]. split; [|done].
  intros c Hc. eapply exec_registry; [done..|]. by apply Hin.
Qed.

Lemma exec_unchanged a σ x σ' :
  exec a σ = Some (x, σ') →
  match a with
  | head_load | ptr_load _ | next_load _ | call _ _ => σ' = σ
  | _ => True
  end.
Proof.
  intros Hexec. destruct a; simpl in *; try done; try (by simplify_eq);
    (destruct (hpl_slots σ !! p); [|done]; simpl in Hexec; by simplify_eq).
Qed.

(** The traversal of a thread stays on track across an operation of the
    thread that is not a load of the head. *)
Lemma traverse_on_track σ G t a x σ' b p s s' :
  fits σ G → may (G t) a → exec a σ = Some (x, σ') →
  (∀ v, observe a x ≠ ev_head_load v) → ptr_at σ b = p → p ≠ nullptr →
  on_track σ b p s → traverse s (observe a x) = Some s' →
  on_track σ' b p s'.
Proof.
  intros Hfit Hmay Hexec Hnh Hptr Hp Htrack Hs'.
  pose proof (exec_unchanged _ _ _ _ Hexec) as Hsame.
  destruct a as [| expected desired| | | |c|c|c|c v|c|c q0|f arg|];
    try (simpl in Hs'; simplify_eq; by eapply on_track_exec).
  - by destruct (Hnh x).
  - subst σ'. simpl in Hs', Hexec.
    destruct (hpl_slots σ !! c) as [hp|] eqn:Hhp; [|done]. simpl in Hexec. simplify_eq.
    destruct (decide (tr_cursor s = Some (Some c))) as [Hc|]; [|done].
    intros q Hq. simpl in Hq. destruct (Htrack q Hq) as (rest & Hl & Hin & Hb & Hseen & Hread).
    exists rest. split; [done|]. split; [done|]. split; [done|]. simpl.
    split.
    + intros Hv. specialize (Hseen Hv). destruct (decide _); set_solver.
    + intros _ ->. rewrite Hq in Hc. simplify_eq.
      rewrite <-(ptr_at_lookup _ _ _ Hhp). rewrite decide_True by done. set_solver.
  - subst σ'. simpl in Hs', Hexec.
    destruct (hpl_slots σ !! c) as [hp|] eqn:Hhp; [|done]. simpl in Hexec. simplify_eq.
    destruct (decide (tr_cursor s = Some (Some c) ∧ tr_read s = true)) as [[Hc Hr]|];
      [|by intros q [=]].
    intros q Hq. simpl in Hq. simplify_eq.
    destruct (Htrack _ Hc) as (rest & Hl & Hin & Hb & Hseen & Hread).
    inversion Hl as [|? hp' rest' Hhp' Hl' E1 E2]; simplify_eq.
    exists rest'. split; [done|]. split; [intros c' Hc'; apply Hin; by right|]. simpl.
    split; [by rewrite <-(assoc_L (++))|]. split; [|done].
    intros [Hv|Hv%list_elem_of_singleton]%elem_of_app; [by apply Hseen|].
    subst. by apply Hread.
  - simpl in Hs'. destruct (decide _); [|done]. simplify_eq. by eapply on_track_exec.
Qed.

Lemma monitor_all_snoc {S} (mon : S → event → option S) s tr e s' :
  monitor_all mon s (tr ++ [e]) = Some s' →
  ∃ s1, monitor_all mon s tr = Some s1 ∧ mon s1 e = Some s'.
Proof.
  rewrite monitor_all_app. destruct (monitor_all mon s tr) as [s1|]; [|done].
  simpl. destruct (mon s1 e) as [s2|] eqn:He; [|done]. simpl. intros [= <-]. by exists s1.
Qed.

Lemma step_spared base t b p t0 w G since :
  coherent w G → accepted (λ _, traverse) (λ _, traversal_new) (step t0 w) →
  p ≠ nullptr → spared base t b p w since →
  ∃ since', spared base t b p (step t0 w) since'.
Proof.
  intros [Hfit _ Hrun _] Hacc Hp [Hhist Hsp]. revert Hacc. unfold step.
  destruct (running w !! t0) as [[x|e|a k]|] eqn:Ht0; try (intros _; by exists since).
  destruct (Hrun _ _ Ht0) as [Hmay _].
  destruct (may_exec _ _ _ _ Hfit Hmay) as [[x σ'] Hexec]. rewrite Hexec. intros Hacc.
  exists (since ++ [(t0, observe a x)]). split; simpl; [by rewrite Hhist, (assoc_L (++))|].
  intros Hq1 Hq2.
  destruct Hsp as (Hptr & Hreg & Htrack & Hcalls).
  { intros v Hv. apply (Hq1 v). set_solver. }
  { intros t' v Hv. apply (Hq2 t' v). set_solver. }
  assert (∀ s', monitor_all traverse traversal_new
                  (events_of t (history w ++ [(t0, observe a x)])) = Some s' →
            if decide (t0 = t) then
              ∃ s, monitor_all traverse traversal_new (events_of t (history w)) = Some s
                   ∧ traverse s (observe a x) = Some s'
            else monitor_all traverse traversal_new (events_of t (history w)) = Some s')
    as Hsplit.
  { intros s'. rewrite events_of_app. unfold events_of at 2. simpl.
    destruct (decide (t0 = t)) as [->|Hne]; simpl.
    - apply monitor_all_snoc.
    - by rewrite app_nil_r. }
  split; [|split; [|split]].
  - rewrite <-Hptr. eapply exec_ptr_at; [done|]. intros v Hv. apply (Hq2 t0 v). rewrite <-Hv.
    set_solver.
  - by eapply exec_registry.
  - intros s' Hs'. specialize (Hsplit s' Hs'). destruct (decide (t0 = t)) as [->|Hne].
    + destruct Hsplit as (s & Hs & Hstep).
      eapply traverse_on_track; [done..| |done|done|by apply Htrack|done].
      intros v Hv. apply (Hq1 v). rewrite <-Hv. set_solver.
    + eapply on_track_exec; [done..|]. by apply Htrack.
  - intros f [Hin|Hin%list_elem_of_singleton]%elem_of_app; [by apply (Hcalls f)|].
    injection Hin as <- Hcall.
    destruct (Hacc t) as (s' & Hs' & _). simpl in Hs'. specialize (Hsplit s' Hs').
    rewrite decide_True in Hsplit by done. destruct Hsplit as (s & Hs & Hstep).
    rewrite <-Hcall in Hstep. simpl in Hstep.
    destruct (decide _) as [[Hc Hout]|]; [|done].
    destruct (Htrack s Hs None Hc) as (rest & Hl & _ & Hb & Hseen & _).
    inversion Hl; simplify_eq. rewrite app_nil_r in Hb. by apply Hout, Hseen.
Qed.

Lemma steps_app s1 s2 w : steps (s1 ++ s2) w = steps s2 (steps s1 w).
Proof. unfold steps. by rewrite foldl_app. Qed.

Lemma steps_spared fuel css base t b p s2 : ∀ s1 since,
  p ≠ nullptr → spared base t b p (steps s1 (start fuel css)) since →
  ∃ since', spared base t b p (steps s2 (steps s1 (start fuel css))) since'.
Proof.
  induction s2 as [|t0 s2 IH]; intros s1 since Hp Hsp; [by exists since|].
  destruct (reachable_coherent fuel css s1) as [G HG].
  destruct (step_spared base t b p t0 _ G since HG) as [since1 Hsp1]; [|done|done|].
  { change (step t0 (steps s1 (start fuel css))) with (steps [t0] (steps s1 (start fuel css))).
    rewrite <-steps_app. apply reachable_traversed. }
  specialize (IH (s1 ++ [t0]) since1 Hp). rewrite steps_app in IH. by apply IH.
Qed.

(** The head a thread has just loaded is the head. *)
Lemma last_head_load fuel css schedule : ∀ h t v,
  history (steps schedule (start fuel css)) = h ++ [(t, ev_head_load v)] →
  hpl_head (shared (steps schedule (start fuel css))) = v.
Proof.
  induction schedule as [|t0 schedule IH] using rev_ind; intros h t v Hh.
  { by destruct h. }
  rewrite steps_app in *. simpl in *. set (w := steps schedule (start fuel css)) in *.
  revert Hh. unfold step. destruct (running w !! t0) as [[x|e|a k]|]; try apply IH.
  destruct (exec a (shared w)) as [[x σ']|] eqn:Hexec; [|apply IH]. simpl.
  intros [_ [= <- Ha]]%app_inj_tail.
  destruct a; simpl in Ha; try done. simpl in Hexec. by simplify_eq.
Qed.

(** A slot of the registry that holds [p] when a thread loads the head
    and in which no pointer is stored afterwards keeps the thread from
    calling a destroyer on [p] until it loads the head again. *)
Lemma no_call_since_head_load fuel css s1 s2 t b p h v :
  let w1 := steps s1 (start fuel css) in
  let w2 := steps s2 w1 in
  history w1 = h ++ [(t, ev_head_load v)] →
  b ∈ registry (shared w1) → ptr_at (shared w1) b = p → p ≠ nullptr →
  let since := drop (length (history w1)) (history w2) in
  (∀ v', (t, ev_head_load v') ∉ since) → (∀ t' v', (t', ev_ptr_store b v') ∉ since) →
  ∀ f, (t, ev_call f p) ∉ since.
Proof.
  intros w1 w2 Hh Hb Hptr Hp since Hq1 Hq2.
  assert (spared (history w1) t b p w1 []) as Hbase.
  { split; [by rewrite app_nil_r|]. intros _ _. split; [done|]. split; [done|].
    split; [|by intros f ?%elem_of_nil].
    intros s Hs. rewrite Hh, events_of_app in Hs. unfold events_of at 2 in Hs.
    simpl in Hs. rewrite decide_True in Hs by done. simpl in Hs.
    apply monitor_all_snoc in Hs as (s0 & _ & Hs). simpl in Hs. simplify_eq.
    intros q Hq. simpl in Hq. simplify_eq.
    destruct (reachable_coherent fuel css s1) as [G [Hfit _ _ _]].
    destruct (fit_linked _ _ Hfit) as [Hl _].
    rewrite (last_head_load fuel css s1 h t q Hh) in Hl. fold w1 in Hl.
    exists (registry (shared w1)). simpl. split; [done|]. split; [done|].
    split; [done|]. split; [by intros ?%elem_of_nil|done]. }
  destruct (steps_spared fuel css (history w1) t b p s2 s1 [] Hp Hbase)
    as [since' [Hhist Hsp]]. fold w1 w2 in Hhist.
  assert (since = since') as ->.
  { subst since. by rewrite Hhist, drop_app_length. }
  by destruct (Hsp Hq1 Hq2) as (_ & _ & _ & Hcalls).
Qed.


(** X12: in every interleaving, when a thread loads the head while a slot
    of the registry holds the non-null pointer [p], then, as long as no
    thread stores a pointer in that slot, the thread does not call a
    destroyer on [p] before it loads the head again: the scan of
    [ReclaimNoHazardPointer] and the wait of the destructor spare every
    address that was published before they began and stays published. *)
Theorem published_pointer_is_spared fuel css s1 s2 t b p h v :
  let w1 := steps s1 (start fuel css) in
  let w2 := steps s2 w1 in
  history w1 = h ++ [(t, ev_head_load v)] →
  b ∈ registry (shared w1) → ptr_at (shared w1) b = p → p ≠ nullptr →
  let since := drop (length (history w1)) (history w2) in
  (∀ v', (t, ev_head_load v') ∉ since) → (∀ t' v', (t', ev_ptr_store b v') ∉ since) →
  ∀ f, (t, ev_call f p) ∉ since.
Proof. apply no_call_since_head_load. Qed.

Lemma published_pointer_is_spared_witness :
  let css := [[req_ReclaimLater 7 (Some 1%nat); req_ReclaimNoHazardPointer];
              [req_MarkHazard 0 7]] in
  let w1 := steps [1; 1; 1; 0; 0]%nat (start 2 css) in
  let w2 := steps [0; 0; 0; 0]%nat w1 in
  history w1 =
    [(1, ev_head_load (Some 0)); (1, ev_flag_test_and_set 0 false); (1, ev_ptr_store 0 7);
     (0, ev_size_load 0)]%nat ++ [(0%nat, ev_head_load (Some 0%nat))]
  ∧ registry (shared w1) = [0%nat] ∧ ptr_at (shared w1) 0 = 7%N
  ∧ drop (length (history w1)) (history w2) =
      [(0, ev_ptr_load 0 7); (0, ev_next_load 0 None)]%nat
  ∧ running w2 = [Ret (); Ret ()]
  ∧ ∀ f, (0%nat, ev_call f 7) ∉ drop (length (history w1)) (history w2).
Proof.
  intros css w1 w2.
  assert (history w1 =
    [(1, ev_head_load (Some 0)); (1, ev_flag_test_and_set 0 false); (1, ev_ptr_store 0 7);
     (0, ev_size_load 0)]%nat ++ [(0%nat, ev_head_load (Some 0%nat))]) as Hh by reflexivity.
  assert (drop (length (history w1)) (history w2) =
            [(0, ev_ptr_load 0 7); (0, ev_next_load 0 None)]%nat) as Hsince by reflexivity.
  split; [exact Hh|]. split; [reflexivity|]. split; [reflexivity|].
  split; [exact Hsince|]. split; [reflexivity|].
  apply (published_pointer_is_spared 2 css [1; 1; 1; 0; 0]%nat [0; 0; 0; 0]%nat
           0 0 7 _ _ Hh).
  - by left.
  - reflexivity.
  - discriminate.
  - intros v'. fold w1 w2. rewrite Hsince. set_solver.
  - intros t' v'. fold w1 w2. rewrite Hsince. set_solver.
Defined.

(** ** A pointer published by a thread that holds the slot *)

Lemma step_kept base t1 b p t0 w G since :
  coherent w G → p ≠ nullptr → kept base t1 b p w since →
  ∃ since', kept base t1 b p (step t0 w) since'.
Proof.
  intros [Hfit Hheld Hrun _] Hp [Hhist Hkept]. unfold step.
  destruct (running w !! t0) as [[x|e|a k]|] eqn:Ht0; try (by exists since).
  destruct (Hrun _ _ Ht0) as [Hmay _].
  destruct (may_exec _ _ _ _ Hfit Hmay) as [[x σ'] Hexec]. rewrite Hexec.
  destruct (fits_exec _ _ _ _ _ _ Hfit Hmay Hexec) as [Hans _].
  exists (since ++ [(t0, observe a x)]). split; simpl; [by rewrite Hhist, (assoc_L (++))|].
  intros Hq. destruct Hkept as [Hb Hstores].
  { intros v Hv. apply (Hq v). set_solver. }
  assert (v_own (G t1) !! b = Some p) as Hown by by rewrite Hheld.
  split.
  - rewrite events_of_app. unfold events_of at 2. simpl.
    destruct (decide (t0 = t1)) as [->|Hne]; simpl; [|by rewrite app_nil_r].
    rewrite held_snoc.
    destruct a as [| expected desired| | | |c|c|c|c v|c|c q0|f arg|]; simpl; try done.
    + destruct x; [done|]. destruct (decide (c = b)) as [->|Hcb];
        [|by rewrite lookup_insert_ne].
      destruct Hans as [Hans _]. assert (false = true); [|done]. apply Hans.
      apply elem_of_dom. by eexists.
    + destruct (decide (c = b)) as [->|Hcb]; [|by rewrite lookup_delete_ne].
      destruct Hmay as [Hnull _]. congruence.
    + destruct (decide (c = b)) as [->|Hcb].
      * destruct (Hq v). set_solver.
      * destruct (decide _); [|done]. by rewrite lookup_insert_ne.
  - intros t' v [Hin|Hin%list_elem_of_singleton]%elem_of_app; [by apply (Hstores t' v)|].
    injection Hin as <- Hstore.
    destruct a; simpl in Hstore; try done. injection Hstore as <- <-.
    destruct Hmay as [Hmine _].
    assert (t' = t1) as ->.
    { apply (fit_own_one _ _ Hfit t' t1 b); [done|]. apply elem_of_dom. by eexists. }
    destruct (Hq v). set_solver.
Qed.

Lemma steps_kept fuel css base t1 b p s2 : ∀ s1 since,
  p ≠ nullptr → kept base t1 b p (steps s1 (start fuel css)) since →
  ∃ since', kept base t1 b p (steps s2 (steps s1 (start fuel css))) since'.
Proof.
  induction s2 as [|t0 s2 IH]; intros s1 since Hp Hk; [by exists since|].
  destruct (reachable_coherent fuel css s1) as [G HG].
  destruct (step_kept base t1 b p t0 _ G since HG Hp Hk) as [since1 Hk1].
  specialize (IH (s1 ++ [t0]) since1 Hp). rewrite steps_app in IH. by apply IH.
Qed.

(** X13: in every interleaving, an address that a thread has published in
    a slot it holds before another thread (or the same) loads the head is
    not passed to a destroyer by that thread before it loads the head
    again, as long as the publishing thread stores no other pointer in the
    slot: no other thread can store in the slot, and the scan or the wait
    that begins with the load of the head reads the address from it. *)
Theorem published_hazard_pointer_is_spared fuel css s1 s2 t t1 b p h v :
  let w1 := steps s1 (start fuel css) in
  let w2 := steps s2 w1 in
  history w1 = h ++ [(t, ev_head_load v)] →
  held (events_of t1 (history w1)) !! b = Some p → p ≠ nullptr →
  let since := drop (length (history w1)) (history w2) in
  (∀ v', (t, ev_head_load v') ∉ since) → (∀ v', (t1, ev_ptr_store b v') ∉ since) →
  ∀ f, (t, ev_call f p) ∉ since.
Proof.
  intros w1 w2 Hh Hb Hp since Hq1 Hq2.
  destruct (reachable_coherent fuel css s1) as [G [Hfit Hheld _ _]]. fold w1 in Hfit, Hheld.
  rewrite <-Hheld in Hb. destruct (fit_own _ _ Hfit t1 b p Hb) as (_ & Hptr & Hwhere).
  assert (b ∈ registry (shared w1)) as Hreg.
  { destruct Hwhere as [|[q Hq]%elem_of_dom]; [done|].
    destruct (fit_fresh _ _ Hfit t1 b q Hq) as (_ & _ & _ & Hnull & _). congruence. }
  assert (kept (history w1) t1 b p w1 []) as Hbase.
  { split; [by rewrite app_nil_r|]. intros _. rewrite <-Hheld. split; [done|].
    by intros t' v' ?%elem_of_nil. }
  destruct (steps_kept fuel css (history w1) t1 b p s2 s1 [] Hp Hbase)
    as [since' [Hhist Hkept]]. fold w1 w2 in Hhist.
  assert (since = since') as Hsince.
  { subst since. by rewrite Hhist, drop_app_length. }
  rewrite <-Hsince in Hkept. destruct (Hkept Hq2) as [_ Hstores].
  by apply (no_call_since_head_load fuel css s1 s2 t b p h v Hh Hreg Hptr Hp).
Qed.

Lemma published_hazard_pointer_is_spared_witness :
  let css := [[req_ReclaimLater 7 (Some 1%nat); req_ReclaimNoHazardPointer];
              [req_MarkHazard 0 7]] in
  let w1 := steps [1; 1; 1; 0; 0]%nat (start 2 css) in
  let w2 := steps [0; 0; 0; 0]%nat w1 in
  events_of 1 (history w1) =
    [ev_head_load (Some 0%nat); ev_flag_test_and_set 0 false; ev_ptr_store 0 7]
  ∧ held (events_of 1 (history w1)) !! 0%nat = Some 7%N
  ∧ events_of 0 (history w2) =
      [ev_size_load 0; ev_head_load (Some 0%nat); ev_ptr_load 0 7; ev_next_load 0 None]
  ∧ running w2 = [Ret (); Ret ()]
  ∧ ∀ f, (0%nat, ev_call f 7) ∉ drop (length (history w1)) (history w2).
Proof.
  intros css w1 w2.
  assert (history w1 =
    [(1, ev_head_load (Some 0)); (1, ev_flag_test_and_set 0 false); (1, ev_ptr_store 0 7);
     (0, ev_size_load 0)]%nat ++ [(0%nat, ev_head_load (Some 0%nat))]) as Hh by reflexivity.
  assert (drop (length (history w1)) (history w2) =
            [(0, ev_ptr_load 0 7); (0, ev_next_load 0 None)]%nat) as Hsince by reflexivity.
  assert (held (events_of 1 (history w1)) !! 0%nat = Some 7%N) as Hheld
    by (vm_compute; reflexivity).
  split; [reflexivity|]. split; [exact Hheld|]. split; [reflexivity|]. split; [reflexivity|].
  apply (published_hazard_pointer_is_spared 2 css [1; 1; 1; 0; 0]%nat [0; 0; 0; 0]%nat
           0 1 0 7 _ _ Hh Hheld).
  - discriminate.
  - intros v'. fold w1 w2. rewrite Hsince. set_solver.
  - intros v'. fold w1 w2. rewrite Hsince. set_solver.
Defined.

(** X14: in every interleaving, a thread that loads the pointer of a slot
    it holds reads the pointer it stored there last, or null when it has
    stored none since it took the slot: what [GetHazardPtr] returns is
    what the thread's last [MarkHazard] for the index published, whatever
    the other threads have done in between. *)
Theorem own_slot_reads_last_store fuel css schedule h t a v v' :
  history (steps schedule (start fuel css)) = h ++ [(t, ev_ptr_load a v)] →
  held (events_of t h) !! a = Some v' → v = v'.
Proof.
  revert h t a v v'.
  induction schedule as [|t0 schedule IH] using rev_ind; intros h t a v v' Hh Hheld.
  { by destruct h. }
  rewrite steps_app in Hh. simpl in Hh.
  destruct (reachable_coherent fuel css schedule) as [G [Hfit Hown Hrun _]].
  set (w := steps schedule (start fuel css)) in *.
  revert Hh. unfold step.
  destruct (running w !! t0) as [[x|e|c k]|] eqn:Ht0; try (intros Hh; by eapply IH).
  destruct (Hrun _ _ Ht0) as [Hmay _].
  destruct (may_exec _ _ _ _ Hfit Hmay) as [[x σ'] Hexec]. rewrite Hexec. simpl.
  destruct (fits_exec _ _ _ _ _ _ Hfit Hmay Hexec) as [Hans _].
  intros [<- [= <- Hc]]%app_inj_tail.
  destruct c; simpl in Hc; try done. injection Hc as <- <-.
  simpl in Hans. apply Hans. by rewrite Hown.
Qed.

Lemma own_slot_reads_last_store_witness :
  let css := [[req_MarkHazard 0 5; req_GetHazardPtr 0]; [req_MarkHazard 0 6]] in
  let w := steps [0; 0; 0; 1; 1; 1; 1; 1; 1; 1; 1; 1; 1; 0]%nat (start 2 css) in
  events_of 1 (history w) =
    [ev_head_load (Some 0%nat); ev_flag_test_and_set 0 true; ev_next_load 0 None;
     ev_new_HazardPointer 1; ev_flag_test_and_set 1 false; ev_size_fetch_add 0;
     ev_head_load (Some 0%nat); ev_next_store 1 (Some 0%nat);
     ev_head_compare_exchange (Some 0%nat) (Some 1%nat) true; ev_ptr_store 1 6]
  ∧ ∃ h, history w = h ++ [(0%nat, ev_ptr_load 0 5)]
         ∧ held (events_of 0 h) !! 0%nat = Some 5%N.
Proof.
  intros css w. split; [reflexivity|].
  assert (∃ h v, history w = h ++ [(0%nat, ev_ptr_load 0 v)]
                 ∧ held (events_of 0 h) !! 0%nat = Some 5%N) as (h & v & Hh & Hheld).
  { exists (take 13 (history w)), 5%N. split; [reflexivity|]. vm_compute. reflexivity. }
  exists h. split; [|exact Hheld].
  by rewrite (own_slot_reads_last_store 2 css _ h 0 0 v 5 Hh Hheld) in Hh.
Defined.

Lemma held_slots_are_exclusive_witness :
  let w := steps (replicate 3 0 ++ replicate 7 1 ++ replicate 10 2 ++ replicate 5 1)%nat
             (start 3 [[req_MarkHazard 0 5]; [req_MarkHazard 0 6]; [req_MarkHazard 0 7]]) in
  held (events_of 0 (history w)) = {[0%nat := 5%N]}
  ∧ held (events_of 1 (history w)) = {[1%nat := 6%N]}
  ∧ held (events_of 2 (history w)) = {[2%nat := 7%N]}
  ∧ flag_at (shared w) 1 = true ∧ ptr_at (shared w) 1 = 6%N
  ∧ ∀ t', 1%nat ∈ dom (held (events_of t' (history w))) → t' = 1%nat.
Proof.
  intros w.
  assert (held (events_of 1 (history w)) = {[1%nat := 6%N]}) as H1
    by (vm_compute; reflexivity).
  split; [vm_compute; reflexivity|]. split; [exact H1|].
  split; [vm_compute; reflexivity|].
  destruct (held_slots_are_exclusive 3
              [[req_MarkHazard 0 5]; [req_MarkHazard 0 6]; [req_MarkHazard 0 7]]
              (replicate 3 0 ++ replicate 7 1 ++ replicate 10 2 ++ replicate 5 1)%nat)
    as [Hheld _].
  destruct (Hheld 1%nat 1%nat 6%N) as (Hflag & Hptr & _ & Hone).
  { fold w. rewrite H1. apply lookup_singleton_eq. }
  split; [exact Hflag|]. split; [exact Hptr|exact Hone].
Defined.
